(** * PM-Nexus: identifier reconciliation and synchronisation engine

    A shallow embedding of the reference resolver
    ([scripts/jira-post-import-fix.py], [scripts/convert-all-refs-to-jira-keys.py])
    and of the remote sync client and orchestrator
    ([scripts/jira-sync-comprehensive.py], [scripts/jira-bulk-sync.py]),
    followed by the properties of the specification stated on them.

    Python [str] values are lists of characters; a character is a code
    point below 256.  Python dictionaries are finite maps. *)

From Stdlib Require Import Ascii String NArith Lia.
From stdpp Require Import base option list gmap strings pretty.

Open Scope list_scope.
Open Scope char_scope.

(** ** Python strings *)

Abbreviation str := (list ascii).

Definition py (x : string) : str := list_ascii_of_string x.

Module Str.

Definition code (c : ascii) : N := N_of_ascii c.

Definition between (lo hi : N) (c : ascii) : bool :=
  (lo <=? code c)%N && (code c <=? hi)%N.

(** [str.isspace] for one character, also the class [\s] of [re] on
    [str] patterns: TAB..CR, FS..US, SPACE, NEL and NBSP. *)
Definition isspace (c : ascii) : bool :=
  between 9 13 c || between 28 32 c || (code c =? 133)%N || (code c =? 160)%N.

(** The class [[A-Z]]. *)
Definition is_upper_az (c : ascii) : bool := between 65 90 c.

(** The class [\d]: decimal digits. *)
Definition is_decimal (c : ascii) : bool := between 48 57 c.

(** [str.isdigit] for one character: decimal digits and the
    superscripts two, three and one. *)
Definition isdigit_char (c : ascii) : bool :=
  is_decimal c || (code c =? 178)%N || (code c =? 179)%N || (code c =? 185)%N.

(** [str.isalnum] for one character. *)
Definition isalnum_char (c : ascii) : bool :=
  isdigit_char c || between 188 190 c
  || between 65 90 c || between 97 122 c
  || (code c =? 170)%N || (code c =? 181)%N || (code c =? 186)%N
  || between 192 214 c || between 216 246 c || between 248 255 c.

(** [str.lower] for one character. *)
Definition lower_char (c : ascii) : ascii :=
  if between 65 90 c || between 192 214 c || between 216 222 c
  then ascii_of_N (code c + 32) else c.

Definition lower (s : str) : str := map lower_char s.

(** [s.isdigit()] and [s.isalnum()]: true on non-empty strings whose
    characters all are. *)
Definition isdigit (s : str) : bool :=
  match s with [] => false | _ => forallb isdigit_char s end.

Definition isalnum (s : str) : bool :=
  match s with [] => false | _ => forallb isalnum_char s end.

Fixpoint startswith (p s : str) : bool :=
  match p, s with
  | [], _ => true
  | a :: p', b :: s' => Ascii.eqb a b && startswith p' s'
  | _ :: _, [] => false
  end.

Definition eqb (a b : str) : bool := bool_decide (a = b).

Fixpoint lstrip (s : str) : str :=
  match s with
  | [] => []
  | c :: t => if isspace c then lstrip t else s
  end.

Fixpoint rstrip (s : str) : str :=
  match s with
  | [] => []
  | c :: t =>
      match rstrip t with
      | [] => if isspace c then [] else [c]
      | r => c :: r
      end
  end.

(** [s.strip()] *)
Definition strip (s : str) : str := rstrip (lstrip s).

(** The longest prefix of whitespace, what greedy whitespace takes. *)
Fixpoint leading_space (s : str) : str :=
  match s with
  | [] => []
  | c :: t => if isspace c then c :: leading_space t else []
  end.

(** [s.split(sep)] for a one-character separator. *)
Fixpoint split (sep : ascii) (s : str) : list str :=
  match s with
  | [] => [[]]
  | c :: t =>
      if Ascii.eqb c sep then [] :: split sep t
      else match split sep t with
           | h :: r => (c :: h) :: r
           | [] => [[c]]
           end
  end.

(** [sep.join(l)] *)
Fixpoint join (sep : str) (l : list str) : str :=
  match l with
  | [] => []
  | x :: r =>
      match r with
      | [] => x
      | _ => x ++ sep ++ join sep r
      end
  end.

End Str.

(** ** Regular-expression substitution on table rows

    The scripts rewrite markdown table rows with
    [re.sub(P, f, content)], where the pattern [P] is, written with
    blanks between its parts, [( \| \s* F \s* \| \s* ) ( [^|]+ ) ( \| )]
    for a field label [F].  Cut the content at every ['|']: [content = s0|s1|...|sn].
    A match can only start at a bar.  Starting at the bar in front of
    [si] it succeeds exactly when [si] is [F] surrounded by whitespace
    (the label part of [P] up to the next bar), [s(i+1)] is not empty (the whitespace in front is
    greedy but gives characters back so that [[^|]+] takes at least
    one) and a closing bar follows [s(i+1)].  [re.sub] takes matches from
    the left without overlap, so after a match the search resumes behind
    the closing bar: the cell behind that bar cannot open a match.  The
    labels have no bar and neither begin nor end with whitespace. *)

Module Re.
Import Str.

Definition cells (content : str) : list str := split "|" content.

Definition is_label (F cell : str) : bool := eqb (strip cell) F.

Definition is_nil (s : str) : bool := match s with [] => true | _ => false end.

(** The three groups of a match with label cell [lab] and non-empty
    value cell [cell].  When the value cell is all whitespace the
    greedy whitespace gives its last character back to [[^|]+]. *)
Definition field_groups (lab cell : str) : str * str * str :=
  match lstrip cell with
  | [] => ("|" :: lab ++ "|" :: removelast cell,
           drop (length cell - 1) cell, ["|"])
  | body => ("|" :: lab ++ "|" :: leading_space cell, body, ["|"])
  end.

(** [re.sub] of the row pattern over the cells behind the first bar.
    [repl] is the replacement callback; it updates the state of its
    closure (its [nonlocal] variables). *)
Fixpoint sub_field {S : Type} (F : str)
    (repl : str * str * str -> S -> str * S)
    (l : list str) (st : S) : str * S :=
  match l with
  | [] => ([], st)
  | lab :: l' =>
      match l' with
      | cell :: nxt :: rest =>
          if is_label F lab && negb (is_nil cell)
          then let '(out, st1) := repl (field_groups lab cell) st in
               let '(tl, st2) := sub_field F repl rest st1 in
               (out ++ nxt ++ tl, st2)
          else let '(tl, st1) := sub_field F repl l' st in
               ("|" :: lab ++ tl, st1)
      | _ => let '(tl, st1) := sub_field F repl l' st in
             ("|" :: lab ++ tl, st1)
      end
  end.

Definition re_sub_field {S : Type} (F : str)
    (repl : str * str * str -> S -> str * S)
    (content : str) (st : S) : str * S :=
  match cells content with
  | [] => (content, st)
  | s0 :: l => let '(out, st') := sub_field F repl l st in (s0 ++ out, st')
  end.

(** Maximal prefix of characters of a class, and the rest. *)
Fixpoint span (p : ascii -> bool) (s : str) : str * str :=
  match s with
  | [] => ([], [])
  | c :: t => if p c then let '(a, b) := span p t in (c :: a, b) else ([], s)
  end.

(** [[A-Z]+-\d+] matching the whole of [s]. *)
Definition key_shape (s : str) : bool :=
  match span is_upper_az s with
  | (_ :: _, "-" :: d) =>
      match span is_decimal d with
      | (_ :: _, []) => true
      | _ => false
      end
  | _ => false
  end.

(** [re.match(r'^[A-Z]+-\d+$', s)]: [$] also matches in front of a
    final newline. *)
Definition match_key (s : str) : bool :=
  match span is_upper_az s with
  | (_ :: _, "-" :: d) =>
      match span is_decimal d with
      | (_ :: _, []) => true
      | (_ :: _, [c]) => Ascii.eqb c "010"
      | _ => false
      end
  | _ => false
  end.

(** [re.search] of the row pattern of the key, written with blanks
    [\| \s* JIRA Key \s* \| \s* ( [A-Z]+-\d+ ) \s* \|], over the cells
    behind the first bar: the first label cell [JIRA Key] whose value
    cell is a key between whitespace and is closed by a bar.  The
    result is the group. *)
Fixpoint search_jira_key (l : list str) : option str :=
  match l with
  | [] => None
  | lab :: l' =>
      match l' with
      | val :: _ :: _ =>
          if is_label (py "JIRA Key") lab && key_shape (strip val)
          then Some (strip val)
          else search_jira_key l'
      | _ => None
      end
  end.

(** [re.search] of the row pattern of a field: the groups of the
    first match. *)
Fixpoint search_field (F : str) (l : list str) : option (str * str * str) :=
  match l with
  | [] => None
  | lab :: l' =>
      match l' with
      | cell :: _ :: _ =>
          if is_label F lab && negb (is_nil cell)
          then Some (field_groups lab cell)
          else search_field F l'
      | _ => None
      end
  end.

End Re.

(** Exceptions, and results of calls that may raise. *)
Inductive exn :=
  | ApiError          (* [Exception("JIRA API error ...")] *)
  | Timeout           (* [requests.exceptions.Timeout] *)
  | TransportError    (* any other exception of [requests] *)
  | FileNotFound
  | AttributeError.

Inductive result (A : Type) : Type :=
  | Return (a : A)
  | Raise (e : exn).
Arguments Return {A} a.
Arguments Raise {A} e.

(** ** The local corpus

    The tree under [EPICS_DIR], directories only, in the order in which
    the scripts walk it.  [stories_dir] and [tasks_dir] are [None] when
    the directory is missing; [story_files] and the task files are the
    contents of the files [story-*.md] and [task-*.md]. *)

Module Corpus.
Record StoryDir := {
  story_dir_name : str;
  story_files : list str;
  tasks_dir : option (list str)
}.
Record EpicDir := {
  epic_dir_name : str;
  stories_dir : option (list StoryDir)
}.
End Corpus.

(** ** scripts/jira-post-import-fix.py *)

Module PostImportFix.
Import Str Re.

Record ReferenceMapping := {
  epics : gmap str str;
  stories : gmap str str;
  stories_by_epic : gmap (str * str) str;
  tasks : gmap str str;
  task_tuples : gmap (str * str) str
}.

(** The [context] dictionary: [epic_name] is [context.get("epic_name")],
    [story_dir_name] is present when the key is in the dictionary. *)
Record Context := {
  epic_name : option str;
  story_dir_name : option str
}.

Record FixState := { num_fixed : nat; unresolved : list str }.

Definition is_jira_key (ref : str) : bool := match_key (strip ref).

Definition none_values : list str := [py ""; py "-"; py "none"; py "n/a"].

Definition is_none_value (s : str) : bool :=
  bool_decide (lower s ∈ none_values).

(** The per-epic story lookup of [convert_reference]. *)
Definition story_in_epic (ref : str) (mapping : ReferenceMapping)
    (context : option Context) : option str :=
  match context ≫= epic_name with
  | Some (c :: e) =>
      let epic := c :: e in
      let by_s :=
        if startswith (py "S") ref && isalnum (drop 1 ref)
        then match stories_by_epic mapping !! (epic, ref) with
             | Some k => Some k
             | None => stories_by_epic mapping !! (epic, drop 1 ref)
             end
        else None in
      match by_s with
      | Some k => Some k
      | None =>
          if isdigit ref
             || match ref with c0 :: _ => isdigit_char c0 | [] => false end
          then match stories_by_epic mapping !! (epic, ref) with
               | Some k => Some k
               | None => stories_by_epic mapping !! (epic, "S" :: ref)
               end
          else None
      end
  | _ => None
  end.

Definition task_in_story (ref : str) (mapping : ReferenceMapping)
    (context : option Context) : option str :=
  match context ≫= story_dir_name with
  | Some story_dir => task_tuples mapping !! (story_dir, ref)
  | None => None
  end.

Definition epic_lookup (ref : str) (mapping : ReferenceMapping) : option str :=
  match epics mapping !! ref with
  | Some k => Some k
  | None =>
      if startswith (py "EPIC-") ref then epics mapping !! drop 5 ref else None
  end.

(** The chain of lookups after the two pass-through tests, in the
    order of the source. *)
Definition lookups (ref : str) (mapping : ReferenceMapping)
    (context : option Context) : list (option str) :=
  [ epic_lookup ref mapping;
    stories mapping !! ref;
    story_in_epic ref mapping context;
    tasks mapping !! ref;
    task_in_story ref mapping context ].

Fixpoint first_hit (l : list (option str)) : option str :=
  match l with
  | [] => None
  | Some k :: _ => Some k
  | None :: r => first_hit r
  end.

Definition convert_reference (ref : str) (mapping : ReferenceMapping)
    (context : option Context) : str * bool :=
  let ref := strip ref in
  if is_jira_key ref then (ref, false)
  else if is_none_value ref then (ref, false)
  else match first_hit (lookups ref mapping context) with
       | Some k => (k, true)
       | None => (ref, false)
       end.

(** Body of the loop over the tokens of one field. *)
Definition convert_step (field_name : str) (mapping : ReferenceMapping)
    (context : option Context)
    (acc : list str * bool * list str) (ref : str) : list str * bool * list str :=
  let '(converted, any_converted, unres) := acc in
  let '(new_ref, was_converted) := convert_reference ref mapping context in
  let converted := converted ++ [new_ref] in
  if was_converted then (converted, true, unres)
  else if negb (is_jira_key new_ref) && negb (is_none_value new_ref)
       then (converted, any_converted, unres ++ [field_name ++ py ": " ++ ref])
       else (converted, any_converted, unres).

Definition replace_refs (field_name : str) (mapping : ReferenceMapping)
    (context : option Context)
    (m : str * str * str) (st : FixState) : str * FixState :=
  let '(prefix, refs_str0, suffix) := m in
  let refs_str := strip refs_str0 in
  if is_none_value refs_str then (prefix ++ refs_str0 ++ suffix, st)
  else
    let refs := map strip (split "," refs_str) in
    let '(converted, any_converted, unres) :=
      fold_left (convert_step field_name mapping context) refs
                ([], false, unresolved st) in
    (prefix ++ join (py ", ") converted ++ py " " ++ suffix,
     {| num_fixed := if any_converted then S (num_fixed st) else num_fixed st;
        unresolved := unres |}).

Definition default_field_names : list str :=
  [py "Depends On"; py "Blocks"; py "Requires"; py "Unlocks"].

Definition fix_pass (mapping : ReferenceMapping) (context : option Context)
    (acc : str * FixState) (field_name : str) : str * FixState :=
  re_sub_field field_name (replace_refs field_name mapping context)
               (fst acc) (snd acc).

Definition fix_references_in_content (content : str)
    (mapping : ReferenceMapping) (context : option Context)
    (field_names : option (list str)) : str * nat * list str :=
  let names := default default_field_names field_names in
  let '(content', st) :=
    fold_left (fix_pass mapping context) names
              (content, {| num_fixed := 0; unresolved := [] |}) in
  (content', num_fixed st, unresolved st).

Definition extract_jira_key (content : str) : str :=
  default [] (search_jira_key (tail (cells content))).

(** *** The client *)

(** An entry of [issuelinks] in a response. *)
Record Link := { outwardIssue : option str; inwardIssue : option str }.

(** One HTTP exchange: a response with its status and the
    [issuelinks] of its body, a timeout, or another exception. *)
Inductive reply :=
  | Status (status : nat) (issuelinks : list Link)
  | TimeoutExc
  | OtherExc.

Inductive call :=
  | GetLinks (issue_key : str)
  | PostLink (from_key to_key : str).

(** [JiraClient] with the tracker behind it: [server n] answers the
    exchange number [n], [sent] counts the exchanges, [calls] lists
    the requests the client made. *)
Record JiraClient := {
  enabled : bool;
  server : nat → reply;
  sent : nat;
  calls : list call
}.

Definition exchanged (c : JiraClient) : JiraClient :=
  {| enabled := enabled c; server := server c; sent := S (sent c); calls := calls c |}.

Definition called (what : call) (c : JiraClient) : JiraClient :=
  {| enabled := enabled c; server := server c; sent := sent c;
     calls := calls c ++ [what] |}.

(** The loop [for attempt in range(3)] of [request], with [n]
    iterations left.  The value is the decoded body; when the loop
    ends without [return] the method returns [None]. *)
Fixpoint attempts (n attempt : nat) (c : JiraClient)
    : result (option (list Link)) * JiraClient :=
  match n with
  | 0 => (Return None, c)
  | S n =>
      match server c (sent c) with
      | Status status links =>
          if (status <? 400)%nat then (Return (Some links), exchanged c)
          else if (status =? 429)%nat then attempts n (S attempt) (exchanged c)
          else (Raise ApiError, exchanged c)
      | TimeoutExc =>
          if (attempt <? 2)%nat then attempts n (S attempt) (exchanged c)
          else (Raise Timeout, exchanged c)
      | OtherExc => (Raise TransportError, exchanged c)
      end
  end.

Definition request (c : JiraClient) (what : call)
    : result (option (list Link)) * JiraClient :=
  if negb (enabled c) then (Return (Some []), c)
  else attempts 3 0 (called what c).

(** [create_link]: the [try] around the request returns [True], the
    [except Exception] returns [False]. *)
Definition create_link (c : JiraClient) (from_key to_key : str)
    : result bool * JiraClient :=
  if negb (enabled c) then (Return true, c)
  else match request c (PostLink from_key to_key) with
       | (Return _, c) => (Return true, c)
       | (Raise _, c) => (Return false, c)
       end.

Definition link_keys (l : Link) : gset str :=
  match outwardIssue l with Some k => {[ k ]} | None => ∅ end
  ∪ match inwardIssue l with Some k => {[ k ]} | None => ∅ end.

(** [get_existing_links]: reading the fields of [None] raises inside
    the [try]; every exception gives the empty set. *)
Definition get_existing_links (c : JiraClient) (issue_key : str)
    : result (gset str) * JiraClient :=
  if negb (enabled c) then (Return ∅, c)
  else match request c (GetLinks issue_key) with
       | (Return (Some links), c) => (Return (⋃ (map link_keys links)), c)
       | (Return None, c) => (Return ∅, c)
       | (Raise _, c) => (Return ∅, c)
       end.

(** The loop over the tokens of a field of [create_missing_links];
    the state is the client and [result.links_created]. *)
Definition link_ref (src : str) (existing : gset str) (dry_run : bool)
    (st : JiraClient * nat) (ref : str) : JiraClient * nat :=
  let ref := strip ref in
  if is_jira_key ref && bool_decide (ref ∉ existing)
  then if negb dry_run
       then match create_link st.1 src ref with
            | (Return true, c) => (c, S st.2)
            | (_, c) => (c, st.2)
            end
       else st
  else st.

(** The links of one story or task file: [field] is [Blocks] for a
    story and [Unlocks] for a task. *)
Definition link_entity (field content : str) (dry_run : bool)
    (st : JiraClient * nat) : JiraClient * nat :=
  match extract_jira_key content with
  | [] => st
  | src =>
      let '(existing, c) :=
        if negb dry_run
        then match get_existing_links st.1 src with
             | (Return s, c) => (s, c)
             | (Raise _, c) => (∅, c)
             end
        else (∅, st.1) in
      match search_field field (tail (cells content)) with
      | None => (c, st.2)
      | Some (_, g, _) =>
          let refs := strip g in
          if bool_decide (lower refs ∈ [py ""; py "-"; py "none"])
          then (c, st.2)
          else fold_left (link_ref src existing dry_run) (split "," refs) (c, st.2)
      end
  end.

Definition link_story_dir (dry_run : bool) (st : JiraClient * nat)
    (sd : Corpus.StoryDir) : JiraClient * nat :=
  let st :=
    match Corpus.story_files sd with
    | [] => st
    | content :: _ => link_entity (py "Blocks") content dry_run st
    end in
  match Corpus.tasks_dir sd with
  | None => st
  | Some task_files =>
      fold_left (λ st content, link_entity (py "Unlocks") content dry_run st)
                task_files st
  end.

Definition create_missing_links (epic_dirs : list Corpus.EpicDir)
    (client : JiraClient) (links_created : nat) (dry_run : bool)
    : JiraClient * nat :=
  fold_left
    (λ st epic_dir,
       match Corpus.stories_dir epic_dir with
       | None => st
       | Some story_dirs => fold_left (link_story_dir dry_run) story_dirs st
       end)
    epic_dirs (client, links_created).

End PostImportFix.

(** ** scripts/convert-all-refs-to-jira-keys.py *)

Module ConvertAllRefs.
Import Str Re Corpus.

Definition is_lower_az (c : ascii) : bool := between 97 122 c.

(** A match of the header pattern, written with blanks between its
    parts [# \s+ [A-Z]+ - \d+ - ( \d+ [a-z]? ) :], at the start of
    [s]; the result is the group.  Every repetition is followed by a
    character outside its class, so the greedy match is the only one. *)
Definition story_header (s : str) : option str :=
  match s with
  | "#" :: r =>
      match span isspace r with
      | (_ :: _, r1) =>
          match span is_upper_az r1 with
          | (_ :: _, "-" :: r2) =>
              match span is_decimal r2 with
              | (_ :: _, "-" :: r3) =>
                  match span is_decimal r3 with
                  | (d :: ds, ":" :: _) => Some (d :: ds)
                  | (d :: ds, c :: ":" :: _) =>
                      if is_lower_az c then Some ((d :: ds) ++ [c]) else None
                  | _ => None
                  end
              | _ => None
              end
          | _ => None
          end
      | _ => None
      end
  | _ => None
  end.

(** [re.search] of the header pattern with [re.MULTILINE]: the first
    line start at which it matches. *)
Fixpoint search_header (line_start : bool) (s : str) : option str :=
  match s with
  | [] => None
  | c :: t =>
      match (if line_start then story_header s else None) with
      | Some g => Some g
      | None => search_header (Ascii.eqb c "010") t
      end
  end.

Definition extract_jira_key (content : str) : option str :=
  search_jira_key (tail (cells content)).

Definition story_entry (mapping : gmap str str) (sd : StoryDir) : gmap str str :=
  match story_files sd with
  | [] => mapping
  | content :: _ =>
      match search_header true content with
      | None => mapping
      | Some story_num =>
          match extract_jira_key content with
          | None => mapping
          | Some jira => <["S" :: story_num := jira]> (<[story_num := jira]> mapping)
          end
      end
  end.

Definition build_story_jira_map (epics_dir : list EpicDir) : gmap str str :=
  fold_left
    (λ mapping epic_dir,
       match stories_dir epic_dir with
       | None => mapping
       | Some story_dirs => fold_left story_entry story_dirs mapping
       end)
    epics_dir ∅.

(** The conversion of one token of a story field. *)
Definition story_ref (story_map : gmap str str) (p : str) : str :=
  match story_map !! p with
  | Some k => k
  | None =>
      if startswith (py "S") p
      then match story_map !! drop 1 p with Some k => k | None => p end
      else p
  end.

Definition replace_story_field (story_map : gmap str str)
    (m : str * str * str) (st : unit) : str * unit :=
  let '(prefix, refs, suffix) := m in
  let parts := map strip (split "," refs) in
  (prefix ++ join (py ", ") (map (story_ref story_map) parts) ++ py " " ++ suffix, st).

Definition convert_story_refs (content : str) (story_map : gmap str str) : str :=
  let content :=
    (re_sub_field (py "Depends On") (replace_story_field story_map) content tt).1 in
  (re_sub_field (py "Blocks") (replace_story_field story_map) content tt).1.

Definition task_ref (task_map : gmap (str * str) str) (story_dir_name p : str) : str :=
  match task_map !! (story_dir_name, p) with Some k => k | None => p end.

Definition replace_task_field (task_map : gmap (str * str) str) (story_dir_name : str)
    (m : str * str * str) (st : unit) : str * unit :=
  let '(prefix, refs, suffix) := m in
  if eqb (lower (strip refs)) (py "none") || eqb (strip refs) (py "-")
  then (prefix ++ refs ++ suffix, st)
  else
    let parts := map strip (split "," refs) in
    (prefix ++ join (py ", ") (map (task_ref task_map story_dir_name) parts)
       ++ py " " ++ suffix, st).

Definition convert_task_refs (content : str) (task_map : gmap (str * str) str)
    (story_dir_name : str) : str :=
  let content :=
    (re_sub_field (py "Requires") (replace_task_field task_map story_dir_name)
       content tt).1 in
  (re_sub_field (py "Unlocks") (replace_task_field task_map story_dir_name)
     content tt).1.

End ConvertAllRefs.

(** ** The remote issue tracker

    The store of the tracker as the scripts observe it.  [faults] is the
    schedule of the coming calls of a client ([create_issue],
    [set_epic_link], a search): [true] makes the call fail, by an error
    response to one of its requests.  Keys are minted in sequence. *)

Module Remote.

Record Issue := {
  key : str;
  issuetype : str;
  summary : str;
  parent : option str
}.

Record Jira := { issues : list Issue; faults : list bool }.

Definition next_fault (j : Jira) : bool * Jira :=
  match faults j with
  | [] => (false, j)
  | b :: r => (b, {| issues := issues j; faults := r |})
  end.

Definition mint (n : nat) : str := py "ARGUS-" ++ py (pretty n).

(** [POST /issue], with the requests that prepare it. *)
Definition post_issue (j : Jira) (ty summ : str) (par : option str)
    : option str * Jira :=
  let '(fault, j) := next_fault j in
  if fault then (None, j)
  else
    let k := mint (S (length (issues j))) in
    (Some k,
     {| issues := issues j ++ [{| key := k; issuetype := ty; summary := summ; parent := par |}];
        faults := faults j |}).

End Remote.

(** ** scripts/jira-sync-comprehensive.py *)

Module SyncComprehensive.
Import Str Re Remote.

Definition MAX_RETRIES : nat := 3.

(** What one HTTP exchange gives: a response with its status and
    body, a timeout, or another transport exception. *)
Inductive reply :=
  | Status (status : nat) (text : str)
  | TimeoutExc
  | OtherExc.

(** [JiraClient._request].  [server n] is the reply to the request
    number [n]; [sent] counts the requests made so far and [fuel]
    bounds the depth of the recursion.  The result is [None] while
    the call is still recursing when the fuel runs out.  Sleeping is
    not modelled; a 429 reply carries no or an integral [Retry-After].
    The interpreter's own limit on the depth of recursion, at which
    the call ends with a [RecursionError], is not modelled either.

    The recursive calls for a 429 and for a server error stand inside
    the [try]: a [Timeout] that such a call raises is caught by the
    [except] clause of this call ([in_try]).  The recursive call of
    the [except] clause itself stands outside. *)
Fixpoint _request (fuel : nat) (server : nat → reply) (sent retries : nat)
    : option (result str) * nat :=
  match fuel with
  | 0 => (None, sent)
  | S fuel =>
      let except_timeout (sent : nat) :=
        if (retries <? MAX_RETRIES)%nat
        then _request fuel server sent (S retries)
        else (Some (Raise Timeout), sent) in
      let in_try (r : option (result str) * nat) :=
        match r with
        | (Some (Raise Timeout), sent) => except_timeout sent
        | _ => r
        end in
      match server sent with
      | Status status text =>
          if (status =? 429)%nat
          then in_try (_request fuel server (S sent) retries)
          else if (500 <=? status)%nat && (retries <? MAX_RETRIES)%nat
          then in_try (_request fuel server (S sent) (S retries))
          else if (status =? 204)%nat then (Some (Return []), S sent)
          else if (400 <=? status)%nat then (Some (Raise ApiError), S sent)
          else (Some (Return text), S sent)
      | TimeoutExc => except_timeout (S sent)
      | OtherExc => (Some (Raise TransportError), S sent)
      end
  end.

(** [JiraClient.create_issue_link]: every exception of the request
    is caught. *)
Definition create_issue_link (fuel : nat) (server : nat → reply) (sent : nat)
    : option bool * nat :=
  match _request fuel server sent 0 with
  | (Some (Return _), n) => (Some true, n)
  | (Some (Raise _), n) => (Some false, n)
  | (None, n) => (None, n)
  end.

(** The files of the corpus: path to content. *)
Abbreviation FS := (gmap str str).

(** [re.sub] of the pattern, written with blanks,
    [( \| \s* JIRA Key \s* \| ) \s* [^|]* \s* ( \| )] by the first
    group, the key between two blanks, and the second group, over
    the cells behind the first bar.  The value cell may be empty.
    The key is taken literally: it has no backslash. *)
Fixpoint sub_jira_key (jira_key : str) (l : list str) : str :=
  match l with
  | [] => []
  | lab :: l' =>
      match l' with
      | _ :: nxt :: rest =>
          if is_label (py "JIRA Key") lab
          then "|" :: lab ++ "|" :: " " :: jira_key ++ " " :: "|" :: nxt
                 ++ sub_jira_key jira_key rest
          else "|" :: lab ++ sub_jira_key jira_key l'
      | _ => "|" :: lab ++ sub_jira_key jira_key l'
      end
  end.

Definition re_sub_jira_key (jira_key content : str) : str :=
  match cells content with
  | [] => content
  | s0 :: l => s0 ++ sub_jira_key jira_key l
  end.

(** [read_text] raises when the file is missing. *)
Definition update_jira_key_in_file (fs : FS) (file_path jira_key : str)
    : result (FS * bool) :=
  match fs !! file_path with
  | None => Raise FileNotFound
  | Some content =>
      let new_content := re_sub_jira_key jira_key content in
      if bool_decide (new_content ≠ content)
      then Return (<[file_path := new_content]> fs, true)
      else Return (fs, false)
  end.

Record Task := {
  task_id : str; task_title : str; task_file_path : str; task_jira_key : str
}.

Record Story := {
  story_id : str; story_title : str; story_file_path : str;
  story_jira_key : str; story_tasks : list Task
}.

Record Epic := {
  epic_id : str; epic_name : str; epic_file_path : str;
  epic_jira_key : str; epic_stories : list Story
}.

(** [SyncState.data]: the saved keys by local id. *)
Record SyncState := {
  st_epics : gmap str str;
  st_stories : gmap str str;
  st_tasks : gmap str str
}.

Record Stats := {
  epics_created : nat; stories_created : nat; tasks_created : nat;
  skipped : nat; errors : nat
}.

(** The calls of [create_issue] that returned a key, with the key of
    the parent as the loop had it at that moment (empty when it had
    none). *)
Inductive Event :=
  | CreatedEpic (id key : str)
  | CreatedStory (id key epic_key : str)
  | CreatedTask (id key story_key : str).

Record World := {
  jira : Jira; fs : FS; state : SyncState; stats : Stats; log : list Event
}.

(** [a or b] on keys: the first when it is there and not empty. *)
Definition or_key (a : option str) (b : str) : str :=
  match a with
  | Some (c :: s) => c :: s
  | _ => b
  end.

Definition truthy (s : str) : bool := negb (is_nil s).

Definition bump_skipped (w : World) : World :=
  {| jira := jira w; fs := fs w; state := state w; log := log w;
     stats := {| epics_created := epics_created (stats w);
                 stories_created := stories_created (stats w);
                 tasks_created := tasks_created (stats w);
                 skipped := S (skipped (stats w));
                 errors := errors (stats w) |} |}.

Definition bump_errors (w : World) : World :=
  {| jira := jira w; fs := fs w; state := state w; log := log w;
     stats := {| epics_created := epics_created (stats w);
                 stories_created := stories_created (stats w);
                 tasks_created := tasks_created (stats w);
                 skipped := skipped (stats w);
                 errors := S (errors (stats w)) |} |}.

Inductive kind := KEpic | KStory | KTask.

Definition bump_created (k : kind) (w : World) : World :=
  {| jira := jira w; fs := fs w; state := state w; log := log w;
     stats := {| epics_created :=
                   (match k with KEpic => S | _ => id end) (epics_created (stats w));
                 stories_created :=
                   (match k with KStory => S | _ => id end) (stories_created (stats w));
                 tasks_created :=
                   (match k with KTask => S | _ => id end) (tasks_created (stats w));
                 skipped := skipped (stats w);
                 errors := errors (stats w) |} |}.

Definition set_key (k : kind) (local_id jira_key : str) (s : SyncState) : SyncState :=
  match k with
  | KEpic => {| st_epics := <[local_id := jira_key]> (st_epics s);
                st_stories := st_stories s; st_tasks := st_tasks s |}
  | KStory => {| st_epics := st_epics s;
                 st_stories := <[local_id := jira_key]> (st_stories s);
                 st_tasks := st_tasks s |}
  | KTask => {| st_epics := st_epics s; st_stories := st_stories s;
                st_tasks := <[local_id := jira_key]> (st_tasks s) |}
  end.

(** [JiraClient.create_issue]: the type lookup or the request may
    raise; a parent is sent for sub-tasks only. *)
Definition create_issue (j : Jira) (issue_type summ : str) (parent_key : option str)
    : result str * Jira :=
  let par :=
    if bool_decide (lower issue_type ∈ [py "sub-task"; py "subtask"])
    then match parent_key with Some (c :: s) => Some (c :: s) | _ => None end
    else None in
  match post_issue j issue_type (take 255 summ) par with
  | (Some k, j) => (Return k, j)
  | (None, j) => (Raise ApiError, j)
  end.

(** The body of the [try] after a successful [create_issue]: record
    the key, count, and write the key into the local file.  The
    result of [update_jira_key_in_file] is dropped; only an exception
    of it reaches the [except] and counts as an error. *)
Definition created (k : kind) (ev : Event) (local_id file_path jira_key : str)
    (j : Jira) (w : World) : World :=
  let w :=
    bump_created k
      {| jira := j; fs := fs w; state := set_key k local_id jira_key (state w);
         stats := stats w; log := log w ++ [ev] |} in
  match update_jira_key_in_file (fs w) file_path jira_key with
  | Return (fs', _) =>
      {| jira := jira w; fs := fs'; state := state w; stats := stats w; log := log w |}
  | Raise _ => bump_errors w
  end.

Definition with_jira (j : Jira) (w : World) : World :=
  {| jira := j; fs := fs w; state := state w; stats := stats w; log := log w |}.

(** Phase 1, one epic. *)
Definition sync_epic (dry_run resume : bool) (w : World) (epic : Epic) : World * Epic :=
  let existing_key := or_key (st_epics (state w) !! epic_id epic) (epic_jira_key epic) in
  if resume && truthy existing_key then (bump_skipped w, epic)
  else if dry_run then (bump_created KEpic w, epic)
  else
    match create_issue (jira w) (py "Epic") (epic_name epic) None with
    | (Return jira_key, j) =>
        (created KEpic (CreatedEpic (epic_id epic) jira_key)
                 (epic_id epic) (epic_file_path epic) jira_key j w,
         {| epic_id := epic_id epic; epic_name := epic_name epic;
            epic_file_path := epic_file_path epic; epic_jira_key := jira_key;
            epic_stories := epic_stories epic |})
    | (Raise _, j) => (bump_errors (with_jira j w), epic)
    end.

(** [JiraClient.set_epic_link], as the caller sees it: requests that
    may fail, every exception dropped by the caller. *)
Definition set_epic_link (j : Jira) : Jira := (next_fault j).2.

(** Phase 2, one story of an epic whose key the loop holds in
    [epic_jira_key]. *)
Definition sync_story (dry_run resume : bool) (epic_jira_key : str)
    (w : World) (story : Story) : World * Story :=
  let existing_key := or_key (st_stories (state w) !! story_id story) (story_jira_key story) in
  let with_key k :=
    {| story_id := story_id story; story_title := story_title story;
       story_file_path := story_file_path story; story_jira_key := k;
       story_tasks := story_tasks story |} in
  if resume && truthy existing_key then (bump_skipped w, with_key existing_key)
  else if dry_run then (bump_created KStory w, story)
  else
    let summ := "[" :: story_id story ++ py "] " ++ story_title story in
    match create_issue (jira w) (py "Story") summ None with
    | (Return jira_key, j) =>
        let j := if truthy epic_jira_key then set_epic_link j else j in
        (created KStory (CreatedStory (story_id story) jira_key epic_jira_key)
                 (story_id story) (story_file_path story) jira_key j w,
         with_key jira_key)
    | (Raise _, j) => (bump_errors (with_jira j w), story)
    end.

(** Phase 3, one task of a story whose key the loop holds in
    [story_jira_key]. *)
Definition sync_task (dry_run resume : bool) (story_jira_key : str)
    (w : World) (task : Task) : World * Task :=
  let existing_key := or_key (st_tasks (state w) !! task_id task) (task_jira_key task) in
  let with_key k :=
    {| task_id := task_id task; task_title := task_title task;
       task_file_path := task_file_path task; task_jira_key := k |} in
  if resume && truthy existing_key then (bump_skipped w, with_key existing_key)
  else if dry_run then (bump_created KTask w, task)
  else
    let summ := "[" :: task_id task ++ py "] " ++ task_title task in
    match create_issue (jira w) (py "Subtask") summ (Some story_jira_key) with
    | (Return jira_key, j) =>
        (created KTask (CreatedTask (task_id task) jira_key story_jira_key)
                 (task_id task) (task_file_path task) jira_key j w,
         with_key jira_key)
    | (Raise _, j) => (bump_errors (with_jira j w), task)
    end.

(** A [for] loop that updates the objects it walks over. *)
Fixpoint for_each {A : Type} (f : World → A → World * A) (w : World) (l : list A)
    : World * list A :=
  match l with
  | [] => (w, [])
  | x :: r =>
      let '(w, x) := f w x in
      let '(w, r) := for_each f w r in
      (w, x :: r)
  end.

Definition with_stories (epic : Epic) (l : list Story) : Epic :=
  {| epic_id := epic_id epic; epic_name := epic_name epic;
     epic_file_path := epic_file_path epic; epic_jira_key := epic_jira_key epic;
     epic_stories := l |}.

Definition with_tasks (story : Story) (l : list Task) : Story :=
  {| story_id := story_id story; story_title := story_title story;
     story_file_path := story_file_path story; story_jira_key := story_jira_key story;
     story_tasks := l |}.

Definition phase2_epic (dry_run resume : bool) (w : World) (epic : Epic) : World * Epic :=
  let epic_jira_key := or_key (st_epics (state w) !! epic_id epic) (epic_jira_key epic) in
  let '(w, l) := for_each (sync_story dry_run resume epic_jira_key) w (epic_stories epic) in
  (w, with_stories epic l).

Definition phase3_story (dry_run resume : bool) (w : World) (story : Story) : World * Story :=
  let story_jira_key := or_key (st_stories (state w) !! story_id story) (story_jira_key story) in
  if negb (truthy story_jira_key) then (w, story)
  else
    let '(w, l) := for_each (sync_task dry_run resume story_jira_key) w (story_tasks story) in
    (w, with_tasks story l).

Definition phase3_epic (dry_run resume : bool) (w : World) (epic : Epic) : World * Epic :=
  let '(w, l) := for_each (phase3_story dry_run resume) w (epic_stories epic) in
  (w, with_stories epic l).

(** The three creation phases of [sync_to_jira], in its order.  The
    link phase that follows creates no issue and is left out. *)
Definition sync_to_jira (epics : list Epic) (w : World)
    (dry_run resume links_only : bool) : World * list Epic :=
  if links_only then (w, epics)
  else
    let '(w, epics) := for_each (sync_epic dry_run resume) w epics in
    let '(w, epics) := for_each (phase2_epic dry_run resume) w epics in
    for_each (phase3_epic dry_run resume) w epics.

End SyncComprehensive.

(** ** scripts/jira-bulk-sync.py *)

Module BulkSync.
Import Str Re Remote.

Section Tracker.
(** The text search of the tracker: whether [summary ~ "text"] holds. *)
Variable matches : str → str → bool.

Record StoryData := { story_data_id : str; story_data_title : str }.
Record EpicData := { epic_data_id : str; epic_data_title : str }.

(** [JIRASync]: the tracker, [state["items"]] as the key by local
    id, and the three report lists. *)
Record JIRASync := {
  jira : Jira;
  items : gmap str str;
  created : list str;
  skipped : list str;
  errors : list str
}.

Definition with_jira (j : Jira) (s : JIRASync) : JIRASync :=
  {| jira := j; items := items s; created := created s;
     skipped := skipped s; errors := errors s |}.

(** [_search_issue]: the first issue the search returns, [None] on
    an error response or when nothing is found. *)
Definition _search_issue (s : JIRASync) (summ issue_type : str)
    : option Issue * JIRASync :=
  let '(fault, j) := next_fault (jira s) in
  if fault then (None, with_jira j s)
  else (head (filter (λ i, matches summ (summary i) = true
                           ∧ issuetype i = issue_type) (issues j)),
        with_jira j s).

(** [_create_epic] and [_create_story]: the key, or [None] and an
    entry in [errors]; the entry is the message without the text
    of the response. *)
Definition _create (s : JIRASync) (issue_type local_id title : str)
    : option str * JIRASync :=
  match post_issue (jira s) issue_type (local_id ++ py ": " ++ title) None with
  | (Some k, j) => (Some k, with_jira j s)
  | (None, j) =>
      (None,
       {| jira := j; items := items s; created := created s; skipped := skipped s;
          errors := errors s ++ [py "Failed to create " ++ lower issue_type
                                   ++ py " " ++ local_id] |})
  end.

Definition note_created (issue_type local_id k : str) (s : JIRASync) : JIRASync :=
  {| jira := jira s; items := <[local_id := k]> (items s);
     created := created s ++ [local_id ++ py " -> " ++ k ++ py " (" ++ issue_type ++ py ")"];
     skipped := skipped s; errors := errors s |}.

Definition note_skipped (local_id k : str) (s : JIRASync) : JIRASync :=
  {| jira := jira s; items := items s; created := created s;
     skipped := skipped s ++ [local_id ++ py " -> " ++ k ++ py " (exists)"];
     errors := errors s |}.

Record Counts := { n_created : nat; n_skipped : nat; n_errors : nat }.

(** The body of the loop over the stories. *)
Definition sync_story (acc : JIRASync * Counts) (story : StoryData)
    : JIRASync * Counts :=
  let '(s, n) := acc in
  let story_id := story_data_id story in
  match _search_issue s (story_id ++ py ":") (py "Story") with
  | (Some existing_story, s) =>
      (note_skipped story_id (key existing_story) s,
       {| n_created := n_created n; n_skipped := S (n_skipped n);
          n_errors := n_errors n |})
  | (None, s) =>
      match _create s (py "Story") story_id (story_data_title story) with
      | (Some story_key, s) =>
          (note_created (py "Story") story_id story_key s,
           {| n_created := S (n_created n); n_skipped := n_skipped n;
              n_errors := n_errors n |})
      | (None, s) =>
          (s, {| n_created := n_created n; n_skipped := n_skipped n;
                 n_errors := S (n_errors n) |})
      end
  end.

(** [sync_epic]; [stories] is what [discover_stories_for_epic]
    found. *)
Definition sync_epic (s : JIRASync) (epic_data : EpicData)
    (stories : list StoryData) : JIRASync * Counts :=
  let epic_id := epic_data_id epic_data in
  let go s :=
    fold_left sync_story stories
              (s, {| n_created := 0; n_skipped := 0; n_errors := 0 |}) in
  match _search_issue s (epic_id ++ py ":") (py "Epic") with
  | (Some existing_epic, s) => go (note_skipped epic_id (key existing_epic) s)
  | (None, s) =>
      match _create s (py "Epic") epic_id (epic_data_title epic_data) with
      | (Some epic_key, s) => go (note_created (py "Epic") epic_id epic_key s)
      | (None, s) => (s, {| n_created := 0; n_skipped := 0; n_errors := 1 |})
      end
  end.
End Tracker.
End BulkSync.

(** ** scripts/jira-sync-comprehensive.py: the parser *)

Module BMadParser.
Import Str Re.

(** The key that [parse_story_file] and [parse_task_file] read from
    the coordination table: [re.search] of the row pattern, written
    with blanks [\| \s* JIRA Key \s* \| \s* ( [^|]+ ) \s* \|]; the
    group takes the value cell behind its leading whitespace, as in
    [field_groups].  The stripped group is the key when it is not
    empty and shaped like a key, and the key is empty otherwise. *)
Definition parse_jira_key (content : str) : str :=
  match search_field (py "JIRA Key") (tail (cells content)) with
  | Some (_, g, _) =>
      let key := strip g in
      if negb (is_nil key) && match_key key then key else []
  | None => []
  end.

End BMadParser.

(** ** The local corpus with its files

    The tree under [EPICS_DIR] as jira-post-import-fix.py reads it:
    directories only, the story directories and the task files in
    sorted order.  [readme] is [None] when [README.md] is missing,
    [stories_dir] and [tasks_dir] when the directory is missing;
    [story_files] is the list that [glob("story-*.md")] returns and
    [tasks_dir] holds the files of [glob("task-*.md")]. *)

Module Tree.
Record File := { file_name : str; file_content : str }.
Record StoryDir := {
  story_dir_name : str;
  story_files : list File;
  tasks_dir : option (list File)
}.
Record EpicDir := {
  epic_dir_name : str;
  readme : option str;
  stories_dir : option (list StoryDir)
}.
End Tree.

(** ** Headers and names *)

Module Header.
Import Str Re.

(** [re.search(p, s, re.MULTILINE)] for a pattern [p] that begins
    with [^]: the first start of a line at which [p] matches.  A
    line starts at the start of the string and behind a newline. *)
Fixpoint search_line {A : Type} (p : str → option A) (line_start : bool) (s : str)
    : option A :=
  match s with
  | [] => None
  | c :: t =>
      match (if line_start then p s else None) with
      | Some g => Some g
      | None => search_line p (Ascii.eqb c "010") t
      end
  end.

Definition orelse {A : Type} (x y : option A) : option A :=
  match x with Some a => Some a | None => y end.

(** The front of the header patterns, written with blanks
    [# \s+ [A-Z]+ - \d+]: the text that the letters, the dash and
    the digits match, and the rest.  Each repetition is followed
    by a character outside its class, so the greedy match is the
    only one. *)
Definition id_head (s : str) : option (str * str) :=
  match s with
  | "#" :: r =>
      match span isspace r with
      | (_ :: _, r1) =>
          match span is_upper_az r1 with
          | (l :: ls, "-" :: r2) =>
              match span is_decimal r2 with
              | (d :: ds, r3) => Some ((l :: ls) ++ "-" :: d :: ds, r3)
              | _ => None
              end
          | _ => None
          end
      | _ => None
      end
  | _ => None
  end.

(** [- \d+] at the start of [t]. *)
Definition dash_number (t : str) : option (str * str) :=
  match t with
  | "-" :: r =>
      match span is_decimal r with
      | (e :: es, r') => Some ("-" :: e :: es, r')
      | _ => None
      end
  | _ => None
  end.

Definition is_lower_az (c : ascii) : bool := between 97 122 c.

(** [[a-z]? :] at the start of [t], behind the text [id]. *)
Definition story_tail (id t : str) : option str :=
  match t with
  | ":" :: _ => Some id
  | c :: ":" :: _ => if is_lower_az c then Some (id ++ [c]) else None
  | _ => None
  end.

(** [-T \d+ :] at the start of [t], behind the text [id]. *)
Definition task_number (id t : str) : option str :=
  match t with
  | "-" :: "T" :: t1 =>
      match span is_decimal t1 with
      | (n :: ns, ":" :: _) => Some (id ++ "-" :: "T" :: n :: ns)
      | _ => None
      end
  | _ => None
  end.

(** [[a-z]? -T \d+ :] at the start of [t], behind the text [id]. *)
Definition task_tail (id t : str) : option str :=
  match t with
  | c :: t' =>
      if is_lower_az c then orelse (task_number (id ++ [c]) t') (task_number id t)
      else task_number id t
  | [] => None
  end.

(** The group of [# \s+ ( [A-Z]+ - \d+ (?: - \d+ )? [a-z]? ) :]. *)
Definition story_id_header (s : str) : option str :=
  '(id0, r3) ← id_head s;
  orelse ('(g, r5) ← dash_number r3; story_tail (id0 ++ g) r5) (story_tail id0 r3).

(** The group of [# \s+ ( [A-Z]+ - \d+ - \d+ [a-z]? ) :]. *)
Definition story_id_header_2 (s : str) : option str :=
  '(id0, r3) ← id_head s;
  '(g, r5) ← dash_number r3;
  story_tail (id0 ++ g) r5.

(** The group of
    [# \s+ ( [A-Z]+ - \d+ (?: - \d+ )? [a-z]? -T \d+ ) :]. *)
Definition task_id_header (s : str) : option str :=
  '(id0, r3) ← id_head s;
  orelse ('(g, r5) ← dash_number r3; task_tail (id0 ++ g) r5) (task_tail id0 r3).

(** The group of [re.match(r'^(\d+)', s)]. *)
Definition match_digits (s : str) : option str :=
  match span is_decimal s with
  | (d :: ds, _) => Some (d :: ds)
  | _ => None
  end.

(** The group of [re.match(r'task-(\d+)', s)]. *)
Definition match_task_name (s : str) : option str :=
  if startswith (py "task-") s then match_digits (drop 5 s) else None.

(** [s.lstrip("0")] *)
Fixpoint lstrip_zeros (s : str) : str :=
  match s with
  | [] => []
  | c :: t => if Ascii.eqb c "0" then lstrip_zeros t else s
  end.

(** [a or b] on strings. *)
Definition or_str (a b : str) : str := match a with [] => b | _ => a end.

(** [s.split(sep)] for a separator of any length, not empty;
    [skip] counts the characters of a separator still to pass. *)
Fixpoint split_on (sep : str) (skip : nat) (s : str) : list str :=
  match s with
  | [] => [[]]
  | c :: t =>
      match skip with
      | S k => split_on sep k t
      | 0 =>
          if startswith sep s then [] :: split_on sep (length sep - 1) t
          else match split_on sep 0 t with
               | h :: r => (c :: h) :: r
               | [] => [[c]]
               end
      end
  end.

(** [sep in s] *)
Fixpoint contains (sep s : str) : bool :=
  startswith sep s || match s with [] => false | _ :: t => contains sep t end.

End Header.

(** ** scripts/jira-post-import-fix.py: the complete mapping *)

Module CompleteMapping.
Import Str Re PostImportFix Header.

Definition empty_mapping : ReferenceMapping :=
  {| epics := ∅; stories := ∅; stories_by_epic := ∅; tasks := ∅; task_tuples := ∅ |}.

Definition set_epic (k v : str) (m : ReferenceMapping) : ReferenceMapping :=
  {| epics := <[k := v]> (epics m); stories := stories m;
     stories_by_epic := stories_by_epic m; tasks := tasks m;
     task_tuples := task_tuples m |}.

Definition set_story (k v : str) (m : ReferenceMapping) : ReferenceMapping :=
  {| epics := epics m; stories := <[k := v]> (stories m);
     stories_by_epic := stories_by_epic m; tasks := tasks m;
     task_tuples := task_tuples m |}.

Definition set_story_by_epic (k : str * str) (v : str) (m : ReferenceMapping)
    : ReferenceMapping :=
  {| epics := epics m; stories := stories m;
     stories_by_epic := <[k := v]> (stories_by_epic m); tasks := tasks m;
     task_tuples := task_tuples m |}.

Definition set_task (k v : str) (m : ReferenceMapping) : ReferenceMapping :=
  {| epics := epics m; stories := stories m;
     stories_by_epic := stories_by_epic m; tasks := <[k := v]> (tasks m);
     task_tuples := task_tuples m |}.

Definition set_task_tuple (k : str * str) (v : str) (m : ReferenceMapping)
    : ReferenceMapping :=
  {| epics := epics m; stories := stories m;
     stories_by_epic := stories_by_epic m; tasks := tasks m;
     task_tuples := <[k := v]> (task_tuples m) |}.

(** The two short forms of a story number, [n] and [Sn]. *)
Definition set_short_forms (epic_name num jira_key : str) (m : ReferenceMapping)
    : ReferenceMapping :=
  set_story_by_epic (epic_name, "S" :: num) jira_key
    (set_story_by_epic (epic_name, num) jira_key m).

(** The epic part of the loop body. *)
Definition map_epic (epic_dir : Tree.EpicDir) (m : ReferenceMapping) : ReferenceMapping :=
  match Tree.readme epic_dir with
  | None => m
  | Some content =>
      let jira_key := extract_jira_key content in
      if is_nil jira_key then m
      else
        let name := Tree.epic_dir_name epic_dir in
        let m := set_epic name jira_key m in
        if startswith (py "EPIC-") name
        then
          let m := set_epic (drop 5 name) jira_key m in
          if bool_decide ("-" ∈ drop 5 name)
          then set_epic (default [] (head (split "-" (drop 5 name)))) jira_key m
          else m
        else m
  end.

(** The body of the loop over the task files of a story. *)
Definition map_task (story_dir_name : str) (m : ReferenceMapping) (task_file : Tree.File)
    : ReferenceMapping :=
  let content := Tree.file_content task_file in
  let task_jira_key := extract_jira_key content in
  if is_nil task_jira_key then m
  else
    let m :=
      match match_task_name (Tree.file_name task_file) with
      | Some digits =>
          let task_num := or_str (lstrip_zeros digits) (py "1") in
          set_task_tuple (story_dir_name, "T" :: task_num) task_jira_key m
      | None => m
      end in
    match search_line task_id_header true content with
    | Some task_id =>
        let m := set_task task_id task_jira_key m in
        let t_num :=
          if contains (py "-T") task_id
          then List.last (split_on (py "-T") 0 task_id) []
          else [] in
        if is_nil t_num then m
        else set_task_tuple (story_dir_name, "T" :: t_num) task_jira_key m
    | None => m
    end.

(** The body of the loop over the story directories of an epic. *)
Definition map_story (epic_name : str) (m : ReferenceMapping) (story_dir : Tree.StoryDir)
    : ReferenceMapping :=
  match Tree.story_files story_dir with
  | [] => m
  | story_file :: _ =>
      let content := Tree.file_content story_file in
      let jira_key := extract_jira_key content in
      let id_match := search_line story_id_header true content in
      let m := set_story (Tree.story_dir_name story_dir) jira_key m in
      let m :=
        match match_digits (Tree.story_dir_name story_dir) with
        | Some digits =>
            if is_nil jira_key then m
            else set_short_forms epic_name (or_str (lstrip_zeros digits) (py "0"))
                                 jira_key m
        | None => m
        end in
      let m :=
        match id_match with
        | Some story_id =>
            if is_nil jira_key then m
            else
              let m := set_story story_id jira_key m in
              let num := List.last (split "-" story_id) [] in
              set_short_forms epic_name (or_str (lstrip_zeros num) (py "0")) jira_key m
        | None => m
        end in
      match Tree.tasks_dir story_dir with
      | None => m
      | Some task_files =>
          fold_left (map_task (Tree.story_dir_name story_dir)) task_files m
      end
  end.

(** The body of the loop over the epic directories. *)
Definition map_epic_dir (m : ReferenceMapping) (epic_dir : Tree.EpicDir)
    : ReferenceMapping :=
  let m := map_epic epic_dir m in
  match Tree.stories_dir epic_dir with
  | None => m
  | Some story_dirs => fold_left (map_story (Tree.epic_dir_name epic_dir)) story_dirs m
  end.

Definition build_complete_mapping (epic_dirs : list Tree.EpicDir) : ReferenceMapping :=
  fold_left map_epic_dir epic_dirs empty_mapping.

End CompleteMapping.

(** ** scripts/convert-all-refs-to-jira-keys.py: the task map *)

Module TaskMap.
Import Str Re Corpus Header.

(** [-( T \d+ ) :] at the start of [t]: the group. *)
Definition task_num (t : str) : option str :=
  match t with
  | "-" :: "T" :: t1 =>
      match span is_decimal t1 with
      | (n :: ns, ":" :: _) => Some ("T" :: n :: ns)
      | _ => None
      end
  | _ => None
  end.

(** The group of the header pattern, written with blanks
    [# \s+ [A-Z]+ - \d+ - \d+ [a-z]? - ( T \d+ ) :], at the start
    of [s]. *)
Definition task_header (s : str) : option str :=
  '(_, r3) ← id_head s;
  '(_, r5) ← dash_number r3;
  match r5 with
  | c :: t' => if is_lower_az c then orelse (task_num t') (task_num r5) else task_num r5
  | [] => None
  end.

(** The body of the loop over the task files of a story. *)
Definition task_entry (story_dir_name : str) (mapping : gmap (str * str) str)
    (content : str) : gmap (str * str) str :=
  match search_line task_header true content with
  | None => mapping
  | Some task_num =>
      match ConvertAllRefs.extract_jira_key content with
      | None => mapping
      | Some jira => <[(story_dir_name, task_num) := jira]> mapping
      end
  end.

Definition story_tasks (mapping : gmap (str * str) str) (sd : StoryDir)
    : gmap (str * str) str :=
  match tasks_dir sd with
  | None => mapping
  | Some task_files => fold_left (task_entry (story_dir_name sd)) task_files mapping
  end.

Definition build_task_jira_map (epics_dir : list EpicDir) : gmap (str * str) str :=
  fold_left
    (λ mapping epic_dir,
       match stories_dir epic_dir with
       | None => mapping
       | Some story_dirs => fold_left story_tasks story_dirs mapping
       end)
    epics_dir ∅.

End TaskMap.

(** ** scripts/jira-post-import-fix.py: fixing the files *)

Module FixFiles.
Import Str Re PostImportFix Header.

(** The files: path to content. *)
Abbreviation FS := (gmap str str).

Record FixResult := {
  epics_fixed : nat;
  stories_fixed : nat;
  tasks_fixed : nat;
  links_created : nat;
  jira_updated : nat;
  unresolved_refs : list str;
  errors : list str
}.

(** [JiraClient.update_issue]: [True] without a request when the
    client is disabled; otherwise the request of [request], [True]
    when it returns and [False] when it raises.  The issue and its
    fields do not change what the tracker of the model answers, and
    the request is not entered in [calls], which lists the requests
    for links. *)
Definition update_issue (c : JiraClient) : bool * JiraClient :=
  if negb (enabled c) then (true, c)
  else match attempts 3 0 c with
       | (Return _, c) => (true, c)
       | (Raise _, c) => (false, c)
       end.

Inductive kind := KEpic | KStory | KTask.

Definition bump_fixed (k : kind) (r : FixResult) : FixResult :=
  {| epics_fixed := (match k with KEpic => S | _ => id end) (epics_fixed r);
     stories_fixed := (match k with KStory => S | _ => id end) (stories_fixed r);
     tasks_fixed := (match k with KTask => S | _ => id end) (tasks_fixed r);
     links_created := links_created r; jira_updated := jira_updated r;
     unresolved_refs := unresolved_refs r; errors := errors r |}.

Definition bump_updated (r : FixResult) : FixResult :=
  {| epics_fixed := epics_fixed r; stories_fixed := stories_fixed r;
     tasks_fixed := tasks_fixed r; links_created := links_created r;
     jira_updated := S (jira_updated r);
     unresolved_refs := unresolved_refs r; errors := errors r |}.

Definition add_unresolved (l : list str) (r : FixResult) : FixResult :=
  {| epics_fixed := epics_fixed r; stories_fixed := stories_fixed r;
     tasks_fixed := tasks_fixed r; links_created := links_created r;
     jira_updated := jira_updated r;
     unresolved_refs := unresolved_refs r ++ l; errors := errors r |}.

(** What [fix_epic], [fix_story] and [fix_task] do alike once the
    content is read: rewrite the fields, write the file when the
    content differs and this is no dry run, count, report the
    unresolved references as [label: reference], and update the
    issue when the file has a key, the content differs and this is
    no dry run.  The description that [markdown_to_adf] builds from
    the content for this update is not part of the model: the
    conversion is taken to return, and the tracker of the model
    does not read it. *)
Definition fix_file (k : kind) (label : str) (field_names : list str)
    (context : option Context)
    (fs : FS) (file_path content : str) (mapping : ReferenceMapping)
    (client : JiraClient) (res : FixResult) (dry_run : bool)
    : FS * JiraClient * FixResult :=
  let original := content in
  let jira_key := extract_jira_key content in
  let '(content, _, unresolved) :=
    fix_references_in_content content mapping context (Some field_names) in
  let changed := bool_decide (content ≠ original) in
  let fs := if changed && negb dry_run then <[file_path := content]> fs else fs in
  let res := if changed then bump_fixed k res else res in
  let res := add_unresolved (map (λ u, label ++ py " - " ++ u) unresolved) res in
  if negb (is_nil jira_key) && changed && negb dry_run
  then let '(ok, client) := update_issue client in
       (fs, client, if ok then bump_updated res else res)
  else (fs, client, res).

(** [fix_epic]; [readme] is the path of [README.md] in the epic
    directory named [epic_dir_name].  Nothing happens when the file
    is missing. *)
Definition fix_epic (fs : FS) (readme epic_dir_name : str) (mapping : ReferenceMapping)
    (client : JiraClient) (res : FixResult) (dry_run : bool)
    : FS * JiraClient * FixResult :=
  match fs !! readme with
  | None => (fs, client, res)
  | Some content =>
      fix_file KEpic (py "Epic " ++ epic_dir_name) [py "Depends On"; py "Blocks"] None
               fs readme content mapping client res dry_run
  end.

(** The context of a story: the name of its epic when it is given
    and not empty. *)
Definition story_context (epic_name : option str) : option Context :=
  match epic_name with
  | Some (c :: e) => Some {| epic_name := Some (c :: e); story_dir_name := None |}
  | _ => None
  end.

(** [fix_story]; [stem] is [story_file.stem].  [read_text] raises
    when the file is missing. *)
Definition fix_story (fs : FS) (story_file stem : str) (mapping : ReferenceMapping)
    (client : JiraClient) (res : FixResult) (dry_run : bool) (epic_name : option str)
    : result (FS * JiraClient * FixResult) :=
  match fs !! story_file with
  | None => Raise FileNotFound
  | Some content =>
      let story_id := default stem (search_line story_id_header_2 true content) in
      let context := story_context epic_name in
      Return (fix_file KStory (py "Story " ++ story_id) [py "Depends On"; py "Blocks"]
                       context fs story_file content mapping client res dry_run)
  end.

(** [fix_task]; [stem] is [task_file.stem]. *)
Definition fix_task (fs : FS) (task_file stem story_dir_name : str)
    (mapping : ReferenceMapping)
    (client : JiraClient) (res : FixResult) (dry_run : bool) (epic_name : option str)
    : result (FS * JiraClient * FixResult) :=
  match fs !! task_file with
  | None => Raise FileNotFound
  | Some content =>
      let task_id := default stem (search_line task_id_header true content) in
      let context :=
        Some {| epic_name := epic_name; story_dir_name := Some story_dir_name |} in
      Return (fix_file KTask (py "Task " ++ task_id) [py "Requires"; py "Unlocks"]
                       context fs task_file content mapping client res dry_run)
  end.

End FixFiles.

(** ** scripts/jira-post-import-fix.py: validation *)

Module Validate.
Import Str Re PostImportFix Header.

(** [Path(name).stem]: the name up to its last dot, when this dot
    is neither the first nor the last character. *)
Definition stem (name : str) : str :=
  let pieces := split "." name in
  let front := join ["."] (removelast pieces) in
  if bool_decide (1 < length pieces)%nat && negb (is_nil front)
     && negb (is_nil (List.last pieces []))
  then front else name.

(** The body of the loop over the tokens of a field; the state is
    [total], [jira] and [non_jira]. *)
Definition count_ref (label field : str) (acc : nat * nat * list str) (ref : str)
    : nat * nat * list str :=
  let '(total, jira, non_jira) := acc in
  let ref := strip ref in
  if is_jira_key ref then (S total, S jira, non_jira)
  else (S total, jira, non_jira ++ [label ++ py " " ++ field ++ py ": " ++ ref]).

(** One field of one document: the first row only ([re.search]). *)
Definition validate_field (label content : str) (acc : nat * nat * list str)
    (field : str) : nat * nat * list str :=
  match search_field field (tail (cells content)) with
  | None => acc
  | Some (_, g, _) =>
      let refs := strip g in
      if is_none_value refs then acc
      else fold_left (count_ref label field) (split "," refs) acc
  end.

Definition validate_doc (label : str) (fields : list str) (content : str)
    (acc : nat * nat * list str) : nat * nat * list str :=
  fold_left (validate_field label content) fields acc.

Definition validate_task (acc : nat * nat * list str) (task_file : Tree.File)
    : nat * nat * list str :=
  let content := Tree.file_content task_file in
  let task_id :=
    default (stem (Tree.file_name task_file))
            (search_line task_id_header true content) in
  validate_doc (py "Task " ++ task_id) [py "Requires"; py "Unlocks"] content acc.

Definition validate_story_dir (acc : nat * nat * list str) (story_dir : Tree.StoryDir)
    : nat * nat * list str :=
  let acc :=
    match Tree.story_files story_dir with
    | [] => acc
    | story_file :: _ =>
        let content := Tree.file_content story_file in
        let story_id :=
          default (Tree.story_dir_name story_dir)
                  (search_line story_id_header_2 true content) in
        validate_doc (py "Story " ++ story_id) [py "Depends On"; py "Blocks"] content acc
    end in
  match Tree.tasks_dir story_dir with
  | None => acc
  | Some task_files => fold_left validate_task task_files acc
  end.

Definition validate_epic_dir (acc : nat * nat * list str) (epic_dir : Tree.EpicDir)
    : nat * nat * list str :=
  let acc :=
    match Tree.readme epic_dir with
    | None => acc
    | Some content =>
        validate_doc (py "Epic " ++ Tree.epic_dir_name epic_dir)
                     [py "Depends On"; py "Blocks"] content acc
    end in
  match Tree.stories_dir epic_dir with
  | None => acc
  | Some story_dirs => fold_left validate_story_dir story_dirs acc
  end.

(** [validate_all_refs]: [(total, jira, non_jira)]. *)
Definition validate_all_refs (epic_dirs : list Tree.EpicDir) : nat * nat * list str :=
  fold_left validate_epic_dir epic_dirs (0, 0, [])%nat.

End Validate.

(** ** scripts/jira-sync-comprehensive.py: the dependency links *)

Module SyncLinks.
Import Str Re.

(** The fields of [Task], [Story] and [Epic] that the link phase
    of [sync_to_jira] reads. *)
Record Task := {
  task_id : str;
  task_num : nat;
  requires : list str;
  task_jira_key : str
}.

Record Story := {
  story_id : str;
  story_num : nat;
  depends_on : list str;
  story_jira_key : str;
  story_tasks : list Task
}.

Record Epic := { epic_stories : list Story }.

(** The links of the tracker, and the schedule of the coming calls
    of [create_issue_link]: [true] makes the call return [False]
    (the request raised, and the method caught the exception). *)
Record Jira := { links : list (str * str); faults : list bool }.

(** [client.create_issue_link(inward_key, outward_key, "Blocks")] *)
Definition create_issue_link (j : Jira) (inward_key outward_key : str) : bool * Jira :=
  match faults j with
  | [] => (true, {| links := links j ++ [(inward_key, outward_key)]; faults := [] |})
  | true :: r => (false, {| links := links j; faults := r |})
  | false :: r => (true, {| links := links j ++ [(inward_key, outward_key)]; faults := r |})
  end.

(** The tracker, [state.data["links_created"]] and
    [stats["links_created"]]. *)
Record World := {
  jira : Jira;
  links_created : list str;
  n_links : nat
}.

Definition link_id (from_key to_key : str) : str := from_key ++ py "->" ++ to_key.

(** [SyncState.is_link_created] *)
Definition is_link_created (l : list str) (from_key to_key : str) : bool :=
  bool_decide (link_id from_key to_key ∈ l).

(** [SyncState.mark_link_created] *)
Definition mark_link_created (l : list str) (from_key to_key : str) : list str :=
  if bool_decide (link_id from_key to_key ∈ l) then l
  else l ++ [link_id from_key to_key].

(** The innermost block of both loops: the link from [from_key]
    to [to_key] unless the state holds it. *)
Definition link (w : World) (from_key to_key : str) : World :=
  if negb (is_link_created (links_created w) from_key to_key)
  then
    let '(ok, j) := create_issue_link (jira w) from_key to_key in
    if ok
    then {| jira := j;
            links_created := mark_link_created (links_created w) from_key to_key;
            n_links := S (n_links w) |}
    else {| jira := j; links_created := links_created w; n_links := n_links w |}
  else w.

(** [int(s)] for a string of decimal digits. *)
Definition int (s : str) : nat :=
  fold_left (λ n c, 10 * n + (nat_of_ascii c - 48))%nat s 0%nat.

(** The number of [re.match(p + r'(\d+)', ref)] for a one-letter
    prefix [p]: [S(\d+)] and [T(\d+)]. *)
Definition match_ref (p : ascii) (ref : str) : option nat :=
  match ref with
  | c :: r =>
      if Ascii.eqb c p
      then match span is_decimal r with
           | (d :: ds, _) => Some (int (d :: ds))
           | _ => None
           end
      else None
  | [] => None
  end.

Definition truthy (s : str) : bool := negb (is_nil s).

(** [story_num_to_key] of one epic. *)
Definition story_num_to_key (stories : list Story) : gmap nat str :=
  fold_left
    (λ m story,
       if truthy (story_jira_key story)
       then <[story_num story := story_jira_key story]> m else m)
    stories ∅.

(** [task_num_to_key] of one story. *)
Definition task_num_to_key (tasks : list Task) : gmap nat str :=
  fold_left
    (λ m task,
       if truthy (task_jira_key task)
       then <[task_num task := task_jira_key task]> m else m)
    tasks ∅.

(** The loop over the references [refs] of an entity with the key
    [jira_key]. *)
Definition link_refs (p : ascii) (num_to_key : gmap nat str) (jira_key : str)
    (w : World) (refs : list str) : World :=
  fold_left
    (λ w ref,
       match match_ref p ref with
       | Some num =>
           match num_to_key !! num with
           | Some dep_key => if truthy dep_key then link w dep_key jira_key else w
           | None => w
           end
       | None => w
       end)
    refs w.

Definition link_stories (w : World) (epic : Epic) : World :=
  let num_to_key := story_num_to_key (epic_stories epic) in
  fold_left
    (λ w story,
       if negb (truthy (story_jira_key story)) then w
       else link_refs "S" num_to_key (story_jira_key story) w (depends_on story))
    (epic_stories epic) w.

Definition link_tasks (w : World) (story : Story) : World :=
  let num_to_key := task_num_to_key (story_tasks story) in
  fold_left
    (λ w task,
       if negb (truthy (task_jira_key task)) then w
       else link_refs "T" num_to_key (task_jira_key task) w (requires task))
    (story_tasks story) w.

(** Phase 4 of [sync_to_jira], behind the reload of the keys. *)
Definition link_phase (epics : list Epic) (w : World) (dry_run : bool) : World :=
  if dry_run then w
  else
    let w := fold_left link_stories epics w in
    fold_left (λ w epic, fold_left link_tasks (epic_stories epic) w) epics w.

(** The reload of the keys in front of Phase 4: the key of the
    state when it is there and not empty, the key of the object
    otherwise. *)
Definition reload_task (state : SyncComprehensive.SyncState) (task : Task) : Task :=
  {| task_id := task_id task; task_num := task_num task; requires := requires task;
     task_jira_key :=
       SyncComprehensive.or_key (SyncComprehensive.st_tasks state !! task_id task)
                                (task_jira_key task) |}.

Definition reload_story (state : SyncComprehensive.SyncState) (story : Story) : Story :=
  {| story_id := story_id story; story_num := story_num story;
     depends_on := depends_on story;
     story_jira_key :=
       SyncComprehensive.or_key (SyncComprehensive.st_stories state !! story_id story)
                                (story_jira_key story);
     story_tasks := map (reload_task state) (story_tasks story) |}.

Definition reload (state : SyncComprehensive.SyncState) (epics : list Epic) : list Epic :=
  map (λ epic, {| epic_stories := map (reload_story state) (epic_stories epic) |}) epics.

End SyncLinks.

(** * Notions of the statements, and sample documents and trackers *)

Section StringsNotions.
Import Str Re PostImportFix.

(** *** Whitespace and stripping *)

Definition blank (w : str) : Prop := Forall (λ c, isspace c = true) w.

(** A stripped string: empty, or with no whitespace at either end. *)
Definition clean (s : str) : Prop := lstrip s = s ∧ rstrip s = s.

(** The last piece of a split takes what is appended behind. *)
Fixpoint app_last (l : list str) (w : str) : list str :=
  match l with
  | [] => []
  | x :: r => match r with [] => [x ++ w] | _ => x :: app_last r w end
  end.

End StringsNotions.

Section KeysNotions.
Import Str Re PostImportFix.

(** *** Remote keys *)

Definition key_char (c : ascii) : bool :=
  is_upper_az c || Ascii.eqb c "-" || is_decimal c.

(** *** Mapping tables whose values are remote keys *)

Definition key_or_empty (v : str) : Prop := key_shape v = true ∨ v = [].

Definition values_ok (m : ReferenceMapping) : Prop :=
  map_Forall (λ _ v, key_or_empty v) (epics m)
  ∧ map_Forall (λ _ v, key_or_empty v) (stories m)
  ∧ map_Forall (λ _ v, key_or_empty v) (stories_by_epic m)
  ∧ map_Forall (λ _ v, key_or_empty v) (tasks m)
  ∧ map_Forall (λ _ v, key_or_empty v) (task_tuples m).

(** The token that [convert_reference] returns. *)
Definition conv (m : ReferenceMapping) (ctx : option Context) (t : str) : str :=
  (convert_reference t m ctx).1.

End KeysNotions.

Section CellsNotions.
Import Str Re PostImportFix.

(** *** The rewrite of one value cell *)

Definition tokens (cell : str) : list str := map strip (split "," (strip cell)).

(** The whitespace of the cell that the first group takes. *)
Definition cell_lead (cell : str) : str :=
  match lstrip cell with
  | [] => removelast cell
  | _ => leading_space cell
  end.

(** The value cell after the callback: kept when [guard] holds,
    otherwise the converted tokens, joined, behind the leading
    whitespace and in front of one blank. *)
Definition rewrite_with (guard : str → bool) (cv : str → str) (cell : str) : str :=
  if guard cell then cell
  else cell_lead cell ++ join (py ", ") (map cv (tokens cell)) ++ py " ".

Definition none_guard (cell : str) : bool := is_none_value (strip cell).

Definition rewrite_cell (m : ReferenceMapping) (ctx : option Context) : str → str :=
  rewrite_with none_guard (conv m ctx).

Definition task_guard (cell : str) : bool :=
  eqb (lower (strip cell)) (py "none") || eqb (strip cell) (py "-").

Definition rewrite_task_cell (task_map : gmap (str * str) str) (dir : str) : str → str :=
  rewrite_with task_guard (ConvertAllRefs.task_ref task_map dir).

(** What the loop reports for one token. *)
Definition report (F : str) (m : ReferenceMapping) (ctx : option Context)
    (ref : str) : list str :=
  let '(new_ref, was_converted) := convert_reference ref m ctx in
  if was_converted then []
  else if negb (is_jira_key new_ref) && negb (is_none_value new_ref)
       then [F ++ py ": " ++ ref] else [].

Definition cell_state (F : str) (m : ReferenceMapping) (ctx : option Context)
    (cell : str) (st : FixState) : FixState :=
  if none_guard cell then st
  else {| num_fixed :=
            if existsb (λ r, (convert_reference r m ctx).2) (tokens cell)
            then S (num_fixed st) else num_fixed st;
          unresolved := unresolved st ++ flat_map (report F m ctx) (tokens cell) |}.

(** *** Labels *)

(** A field label: stripped, not empty, without comma, and not shaped
    like a remote key. *)
Definition good_label (F : str) : Prop :=
  clean F ∧ F ≠ [] ∧ ("," ∉ F) ∧ key_shape F = false.

End CellsNotions.

Section RowsNotions.
Import Str Re PostImportFix.

(** *** Substitution seen on the cells *)

(** Which cells behind the first bar are value cells of a match. *)
Fixpoint mask (F : str) (l : list str) : list bool :=
  match l with
  | [] => []
  | lab :: l' =>
      match l' with
      | cell :: nxt :: rest =>
          if is_label F lab && negb (is_nil cell)
          then false :: true :: false :: mask F rest
          else false :: mask F l'
      | _ => false :: mask F l'
      end
  end.

Definition apply_mask (rw : str → str) (M : list bool) (l : list str) : list str :=
  zip_with (λ (b : bool) c, if b then rw c else c) M l.

(** The mask over all cells of a document; the text in front of the
    first bar is never part of a match. *)
Definition dmask (F : str) (L : list str) : list bool :=
  match L with [] => [] | _ :: l => false :: mask F l end.

Definition pass (rw : str → str) (L : list str) (F : str) : list str :=
  apply_mask rw (dmask F L) L.

Definition bars (l : list str) : str := concat (map (cons "|") l).

(** The passes with their masks given. *)
Definition masked (rw : str → str) (Ms : list (list bool)) (X : list str) : list str :=
  fold_left (λ X M, apply_mask rw M X) Ms X.

(** Two cells that are the same labels, and both empty or not. *)
Definition kind_eq (names : list str) (c c' : str) : Prop :=
  (∀ G, G ∈ names → is_label G c = is_label G c') ∧ is_nil c = is_nil c'.

End RowsNotions.

Section DocumentsNotions.
Import Str Re PostImportFix.

(** The bytes outside the value cells of the rows of [names]: the
    rewritten content has the same bars, and a cell differs only when
    the cell in front of it is one of the labels. *)
Definition outside_rows_kept (names : list str) (content out : str) : Prop :=
  length (cells out) = length (cells content)
  ∧ ∀ j, cells out !! j = cells content !! j
       ∨ ∃ j' lab G, j = S j' ∧ cells content !! j' = Some lab
           ∧ G ∈ names ∧ is_label G lab = true.

End DocumentsNotions.

Section ResolutionNotions.
Import Str Re PostImportFix.

Definition table_S1 : ReferenceMapping :=
  {| epics := ∅; stories := ∅;
     stories_by_epic := {[ (py "EPIC-X", py "S1") := py "ARGUS-100" ]};
     tasks := ∅; task_tuples := ∅ |}.

Definition ctx_X : option Context :=
  Some {| epic_name := Some (py "EPIC-X"); story_dir_name := None |}.

(** A table with remote keys as values in which the label of one field
    is itself a key of the table. *)
Definition table_label : ReferenceMapping :=
  {| epics := {[ py "Depends On" := py "ARGUS-1" ]} ;
     stories := {[ py "b" := py "ARGUS-2" ]};
     stories_by_epic := ∅; tasks := ∅; task_tuples := ∅ |}.

(** ** Tokens that do not resolve, in a document *)

(** The content that the pass of a field receives: the document after
    the passes of the fields [before] it in the list. *)
Definition content_before (m : ReferenceMapping) (ctx : option Context)
    (before : list str) (content : str) : str :=
  (fold_left (fix_pass m ctx) before
             (content, {| num_fixed := 0; unresolved := [] |})).1.

(** [cell] stands at place [S j] among the cells of [content] and is
    the value cell of a match of the row pattern of the field [F]:
    the second group of the match is taken from it. *)
Definition value_cell (F content : str) (j : nat) (cell : str) : Prop :=
  dmask F (cells content) !! S j = Some true ∧ cells content !! S j = Some cell.


Definition story_doc : str :=
  py "# AUTH-001-2: Login
| Field | Value |
| Depends On | S1 |
| JIRA Key | ARGUS-101 |
Body, with  spaces | and a bar
".

End ResolutionNotions.

Section StoryMapNotions.
Import Str Re PostImportFix.
Import Corpus ConvertAllRefs.

(** ** The global story map of convert-all-refs-to-jira-keys.py *)


Definition story_A1 : str :=
  py "# AUTH-001-1: Login
| JIRA Key | ARGUS-11 |
| Depends On | - |
".

Definition story_A2 : str :=
  py "# AUTH-001-2: Logout
| JIRA Key | ARGUS-12 |
| Depends On | S1 |
".

Definition story_B1 : str :=
  py "# PLAT-002-1: Backup
| JIRA Key | ARGUS-21 |
| Depends On | - |
".

Definition two_epics : list EpicDir :=
  [ {| epic_dir_name := py "EPIC-AUTH-001";
       stories_dir := Some
         [ {| story_dir_name := py "01-login"; story_files := [story_A1]; tasks_dir := None |};
           {| story_dir_name := py "02-logout"; story_files := [story_A2]; tasks_dir := None |} ] |};
    {| epic_dir_name := py "EPIC-PLAT-002";
       stories_dir := Some
         [ {| story_dir_name := py "01-backup"; story_files := [story_B1]; tasks_dir := None |} ] |} ].

End StoryMapNotions.

Section TransportNotions.
Import Str Re.
Import SyncComprehensive.

Definition readme_without_row : str := py "# EPIC-1: Platform
No table here.
".

(** ** Retries of one request *)

Definition always_429 : nat → reply := λ _, Status 429 [].

Definition limited (n : nat) : nat → reply :=
  λ i, if (i <? n)%nat then Status 429 [] else Status 200 (py "{}").

End TransportNotions.

Section LinksNotions.
Import Str Re PostImportFix.

Definition disabled_client : JiraClient :=
  {| enabled := false; server := λ _, Status 200 []; sent := 0; calls := [] |}.

Definition story_with_links : str :=
  py "# AUTH-001-1: Login
| JIRA Key | ARGUS-11 |
| Blocks | ARGUS-12, ARGUS-13, S4 |
".

(** A tracker that lists a link from ARGUS-11 to ARGUS-12. *)
Definition linked_client : JiraClient :=
  {| enabled := true;
     server := λ _, Status 200
       [ {| outwardIssue := Some (py "ARGUS-12"); inwardIssue := None |} ];
     sent := 0; calls := [] |}.

End LinksNotions.

Section CreationNotions.
Import Str Re Remote SyncComprehensive.

(** ** Order of creation in sync_to_jira *)



Definition no_stats : Stats :=
  {| epics_created := 0; stories_created := 0; tasks_created := 0;
     skipped := 0; errors := 0 |}.

Definition empty_state : SyncState :=
  {| st_epics := ∅; st_stories := ∅; st_tasks := ∅ |}.

Definition task_1 : Task :=
  {| task_id := py "AUTH-001-1-T1"; task_title := py "Form";
     task_file_path := py "task-01.md"; task_jira_key := [] |}.

Definition story_1 : Story :=
  {| story_id := py "AUTH-001-1"; story_title := py "Login";
     story_file_path := py "story-01.md"; story_jira_key := [];
     story_tasks := [task_1] |}.

Definition epic_1 : Epic :=
  {| epic_id := py "EPIC-AUTH-001"; epic_name := py "EPIC-AUTH-001: Auth";
     epic_file_path := py "README.md"; epic_jira_key := [];
     epic_stories := [story_1] |}.

Definition files_1 : FS :=
  {[ py "README.md" := py "# EPIC-AUTH-001: Auth
| JIRA Key | |
";
     py "story-01.md" := py "# AUTH-001-1: Login
| JIRA Key | |
";
     py "task-01.md" := py "# AUTH-001-1-T1: Form
| JIRA Key | |
" ]}.

(** A fresh world whose tracker fails the requests marked [true]. *)
Definition world_1 (faults : list bool) : World :=
  {| jira := {| issues := []; faults := faults |}; fs := files_1;
     state := empty_state; stats := no_stats; log := [] |}.

End CreationNotions.

Section RerunNotions.
Import Str Re Remote.

(** ** Creating an issue once *)

(** The tracker has an issue of the kind that the search for the id finds. *)
Definition has (matches : str → str → bool) (ty local_id : str) (j : Jira) : Prop :=
  ∃ i, i ∈ issues j ∧ matches (local_id ++ py ":") (summary i) = true
       ∧ issuetype i = ty.

Definition zero : BulkSync.Counts :=
  {| BulkSync.n_created := 0; BulkSync.n_skipped := 0; BulkSync.n_errors := 0 |}.

End RerunNotions.

Section OnceNotions.
Import Str Re Remote.
Import SyncComprehensive.

Definition bulk_0 : BulkSync.JIRASync :=
  {| BulkSync.jira := {| issues := []; faults := [] |}; BulkSync.items := ∅;
     BulkSync.created := []; BulkSync.skipped := []; BulkSync.errors := [] |}.

Definition epic_data_3 : BulkSync.EpicData :=
  {| BulkSync.epic_data_id := py "EPIC-3"; BulkSync.epic_data_title := py "Risk" |}.

Definition stories_3 : list BulkSync.StoryData :=
  [ {| BulkSync.story_data_id := py "RISK-001"; BulkSync.story_data_title := py "Score" |};
    {| BulkSync.story_data_id := py "RISK-002"; BulkSync.story_data_title := py "Report" |} ].

Definition epic_0 : Epic :=
  {| epic_id := py "EPIC-AUTH-001"; epic_name := py "EPIC-AUTH-001: Auth";
     epic_file_path := py "README.md"; epic_jira_key := [];
     epic_stories := [] |}.

End OnceNotions.

Section RetriesNotions.
Import Str Re Remote SyncComprehensive.

(** ** The requests of one call of [_request] without rate limiting *)

(** The replies that make one call send the most requests: every
    frame gets a server error, and the deepest frames a timeout. *)
Definition worst_replies (i : nat) : reply :=
  if bool_decide (i ∈ [0; 1; 2; 5; 8; 9; 12]%nat) then Status 500 [] else TimeoutExc.

End RetriesNotions.

Section DryRunNotions.
Import Str Re Remote SyncComprehensive.

(** ** What a run of [sync_to_jira] touches and counts *)

(** The number of issues that the summary of a run reports as
    created. *)
Definition created_total (s : Stats) : nat :=
  (epics_created s + stories_created s + tasks_created s)%nat.

(** What a dry run may change: the counters of created and skipped
    entities. *)
Definition same_but_counts (w w' : World) : Prop :=
  jira w' = jira w ∧ fs w' = fs w ∧ state w' = state w ∧ log w' = log w
  ∧ errors (stats w') = errors (stats w).

(** *** Issues created and issues counted *)

Definition counted (w0 w : World) : Prop :=
  (length (issues (jira w)) + created_total (stats w0)
   = length (issues (jira w0)) + created_total (stats w))%nat.

End DryRunNotions.

Section BulkNotions.
Import Str Re Remote.

(** ** The counts of [sync_epic] of jira-bulk-sync.py *)

(** The sizes that one step of the loop over the stories moves: the
    tracker's issues, the three report lists, and the three counts. *)
Definition bulk_sizes (acc : BulkSync.JIRASync * BulkSync.Counts) : list nat :=
  [ length (issues (BulkSync.jira acc.1)); length (BulkSync.created acc.1);
    length (BulkSync.skipped acc.1); length (BulkSync.errors acc.1);
    BulkSync.n_created acc.2; BulkSync.n_skipped acc.2; BulkSync.n_errors acc.2 ].

End BulkNotions.

Section KeyRowNotions.
Import Str Re.

(** ** Reading the key of a document *)

(** The cells behind the first bar hold a row of the key that
    [update_jira_key_in_file] rewrites: a label cell [JIRA Key] with a
    value cell and a closing bar behind it. *)
Fixpoint has_key_row (l : list str) : bool :=
  match l with
  | [] => false
  | lab :: l' =>
      match l' with
      | _ :: _ :: _ => is_label (py "JIRA Key") lab || has_key_row l'
      | _ => false
      end
  end.

(** The substitution of [update_jira_key_in_file] on the cells. *)
Fixpoint sub_cells (jira_key : str) (l : list str) : list str :=
  match l with
  | [] => []
  | lab :: l' =>
      match l' with
      | _ :: nxt :: rest =>
          if is_label (py "JIRA Key") lab
          then lab :: (" " :: jira_key ++ [" "]) :: nxt :: sub_cells jira_key rest
          else lab :: sub_cells jira_key l'
      | _ => lab :: sub_cells jira_key l'
      end
  end.

Definition readme_with_row : str := py "# EPIC-1: Platform
| Field | Value |
| JIRA Key | - |
".

End KeyRowNotions.

Section MappingNotions.
Import Str Re PostImportFix Header CompleteMapping.

(** ** The complete mapping of jira-post-import-fix.py *)

(** [k] is the key of the first story file of a story directory of
    an epic directory named [e]. *)
Definition story_key_of (epic_dirs : list Tree.EpicDir) (e k : str) : Prop :=
  ∃ epic_dir story_dirs story_dir story_file,
    epic_dir ∈ epic_dirs ∧ Tree.epic_dir_name epic_dir = e
    ∧ Tree.stories_dir epic_dir = Some story_dirs ∧ story_dir ∈ story_dirs
    ∧ head (Tree.story_files story_dir) = Some story_file
    ∧ extract_jira_key (Tree.file_content story_file) = k ∧ k ≠ [].

(** [k] is the key of a task file of a story directory named [d]. *)
Definition task_key_of (epic_dirs : list Tree.EpicDir) (d k : str) : Prop :=
  ∃ epic_dir story_dirs story_dir task_files task_file,
    epic_dir ∈ epic_dirs
    ∧ Tree.stories_dir epic_dir = Some story_dirs ∧ story_dir ∈ story_dirs
    ∧ Tree.story_dir_name story_dir = d
    ∧ Tree.tasks_dir story_dir = Some task_files ∧ task_file ∈ task_files
    ∧ extract_jira_key (Tree.file_content task_file) = k ∧ k ≠ [].

Definition scoped (epic_dirs : list Tree.EpicDir) (m : ReferenceMapping) : Prop :=
  (∀ e r k, stories_by_epic m !! (e, r) = Some k → story_key_of epic_dirs e k)
  ∧ (∀ d r k, task_tuples m !! (d, r) = Some k → task_key_of epic_dirs d k).

(** *** The values of the tables *)

(** Only the table of the stories may hold an empty value. *)
Definition keys_only (m : ReferenceMapping) : Prop :=
  map_Forall (λ _ v, key_shape v = true) (epics m)
  ∧ map_Forall (λ _ v, key_or_empty v) (stories m)
  ∧ map_Forall (λ _ v, key_shape v = true) (stories_by_epic m)
  ∧ map_Forall (λ _ v, key_shape v = true) (tasks m)
  ∧ map_Forall (λ _ v, key_shape v = true) (task_tuples m).

(** An epic directory whose number is also the number of its first
    story. *)
Definition platform_epic : Tree.EpicDir :=
  {| Tree.epic_dir_name := py "EPIC-1-PLATFORM";
     Tree.readme := Some (py "# EPIC-1: Platform
| JIRA Key | ARGUS-1 |
");
     Tree.stories_dir := Some
       [ {| Tree.story_dir_name := py "01-backup";
            Tree.story_files :=
              [ {| Tree.file_name := py "story-01-backup.md";
                   Tree.file_content := py "# PLAT-001: Backup
| JIRA Key | ARGUS-2 |
" |} ];
            Tree.tasks_dir := Some
              [ {| Tree.file_name := py "task-01-cron.md";
                   Tree.file_content := py "# PLAT-001-T1: Cron
| JIRA Key | ARGUS-3 |
" |} ] |} ] |}.

Definition platform_ctx : option Context :=
  Some {| epic_name := Some (py "EPIC-1-PLATFORM"); story_dir_name := Some (py "01-backup") |}.

(** A story of the platform epic that refers to its first story, by
    its short form and by its id, and to the first task of the story
    of the context.  The id is shaped like a remote key and stays. *)
Definition platform_story : str := py "# PLAT-002: Restore
| JIRA Key | ARGUS-4 |
| Depends On | S1, PLAT-001 |
| Requires | T1 |
".

End MappingNotions.

Section ConvertedRefsNotions.
Import Str Re PostImportFix.

(** ** The maps of convert-all-refs-to-jira-keys.py *)

(** The rewrite of one value cell by [convert_story_refs]: no cell is
    kept as it is. *)
Definition rewrite_story_cell (story_map : gmap str str) : str → str :=
  rewrite_with (λ _, false) (ConvertAllRefs.story_ref story_map).

(** [k] is the key of a task file in a story directory named [d]. *)
Definition task_file_key_of (epics_dir : list Corpus.EpicDir) (d k : str) : Prop :=
  ∃ epic_dir story_dirs story_dir task_files content,
    epic_dir ∈ epics_dir ∧ Corpus.stories_dir epic_dir = Some story_dirs
    ∧ story_dir ∈ story_dirs ∧ Corpus.story_dir_name story_dir = d
    ∧ Corpus.tasks_dir story_dir = Some task_files ∧ content ∈ task_files
    ∧ ConvertAllRefs.extract_jira_key content = Some k.

Definition task_doc : str := py "# AUTH-001-1-T2: Form
| Requires | T1 |
| JIRA Key | ARGUS-8 |
".

End ConvertedRefsNotions.

Section FixesNotions.
Import Str Re PostImportFix Header FixFiles.

(** ** What fixing a file touches *)

(** What one of [fix_epic], [fix_story] and [fix_task] may do to the
    files, the client and the counts, when it rewrites the content of
    the file at [file_path] to [fixed]. *)
Definition fix_effects (file_path content fixed : str) (dry_run : bool)
    (fs : FS) (client : JiraClient) (res : FixResult)
    (out : FS * JiraClient * FixResult) : Prop :=
  (∀ p, p ≠ file_path → out.1.1 !! p = fs !! p)
  ∧ (dry_run = true → out.1.1 = fs ∧ out.1.2 = client)
  ∧ (fixed = content →
     out.1.1 = fs ∧ out.1.2 = client
     ∧ epics_fixed out.2 = epics_fixed res ∧ stories_fixed out.2 = stories_fixed res
     ∧ tasks_fixed out.2 = tasks_fixed res ∧ jira_updated out.2 = jira_updated res)
  ∧ (fixed ≠ content → dry_run = false → out.1.1 !! file_path = Some fixed)
  ∧ (fixed ≠ content →
     (epics_fixed out.2 + stories_fixed out.2 + tasks_fixed out.2
      = S (epics_fixed res + stories_fixed res + tasks_fixed res))%nat)
  ∧ (extract_jira_key content = [] → out.1.2 = client)
  ∧ (sent client ≤ sent out.1.2 ≤ sent client + 3)%nat.

Definition story_fs : FS := {[ py "story-02.md" := story_doc ]}.

Definition no_result : FixResult :=
  {| epics_fixed := 0; stories_fixed := 0; tasks_fixed := 0; links_created := 0;
     jira_updated := 0; unresolved_refs := []; errors := [] |}.

End FixesNotions.

Section ValidationNotions.
Import Str Re PostImportFix Header Validate.

(** ** The counts of the validation *)

(** Every reference counted is counted once as a key or once as no
    key. *)
Definition balanced (acc : nat * nat * list str) : Prop :=
  (acc.1.1 = acc.1.2 + length acc.2)%nat.

(** The tokens of a field that the validation reads: those of its
    first row, unless the row holds a none value. *)
Definition field_tokens (content field : str) : list str :=
  match search_field field (tail (cells content)) with
  | None => []
  | Some (_, g, _) =>
      if is_none_value (strip g) then [] else map strip (split "," (strip g))
  end.

Definition validated_tokens (fields : list str) (content : str) : list str :=
  flat_map (field_tokens content) fields.

End ValidationNotions.

Section LinkPhaseNotions.
Import Str Re SyncLinks.

(** ** The link phase of [sync_to_jira] *)

(** The pairs [(from_key, to_key)] that the loops reach, in their
    order. *)
Definition ref_pairs (p : ascii) (num_to_key : gmap nat str) (jira_key : str)
    (refs : list str) : list (str * str) :=
  flat_map
    (λ ref,
       match match_ref p ref with
       | Some num =>
           match num_to_key !! num with
           | Some dep_key => if truthy dep_key then [(dep_key, jira_key)] else []
           | None => []
           end
       | None => []
       end) refs.

Definition story_pairs (epic : Epic) : list (str * str) :=
  flat_map
    (λ story,
       if negb (truthy (story_jira_key story)) then []
       else ref_pairs "S" (story_num_to_key (epic_stories epic)) (story_jira_key story)
                      (depends_on story))
    (epic_stories epic).

Definition task_pairs (story : Story) : list (str * str) :=
  flat_map
    (λ task,
       if negb (truthy (task_jira_key task)) then []
       else ref_pairs "T" (task_num_to_key (story_tasks story)) (task_jira_key task)
                      (requires task))
    (story_tasks story).

Definition candidates (epics : list Epic) : list (str * str) :=
  flat_map story_pairs epics
  ++ flat_map (λ epic, flat_map task_pairs (epic_stories epic)) epics.

Definition link_pair (w : World) (p : str * str) : World := link w p.1 p.2.

(** A link between two stories of one epic, or between two tasks of
    one story, both with a key. *)
Definition in_scope (epics : list Epic) (p : str * str) : Prop :=
  p.1 ≠ [] ∧ p.2 ≠ []
  ∧ ((∃ epic story story', epic ∈ epics
        ∧ story ∈ epic_stories epic ∧ story' ∈ epic_stories epic
        ∧ story_jira_key story = p.1 ∧ story_jira_key story' = p.2
        ∧ ∃ ref, ref ∈ depends_on story' ∧ match_ref "S" ref = Some (story_num story))
     ∨ (∃ epic story task task', epic ∈ epics ∧ story ∈ epic_stories epic
          ∧ task ∈ story_tasks story ∧ task' ∈ story_tasks story
          ∧ task_jira_key task = p.1 ∧ task_jira_key task' = p.2
          ∧ ∃ ref, ref ∈ requires task' ∧ match_ref "T" ref = Some (task_num task))).

(** *** Links are created once *)

Definition link_ids (created : list (str * str)) : list str :=
  map (λ p, link_id p.1 p.2) created.

(** What a run of the link phase from [w0] has done when it is in
    [w]: the links [created], in the tracker, in the state and in the
    count. *)
Definition linked (w0 w : World) (created : list (str * str)) : Prop :=
  links (jira w) = links (jira w0) ++ created
  ∧ links_created w = links_created w0 ++ link_ids created
  ∧ n_links w = (n_links w0 + length created)%nat
  ∧ NoDup (links_created w).

(** *** Running the link phase again *)

Definition settled (w : World) (p : str * str) : Prop :=
  link_id p.1 p.2 ∈ links_created w.

Definition login_story : Story :=
  {| story_id := py "AUTH-001-1"; story_num := 1; depends_on := [];
     story_jira_key := py "ARGUS-11";
     story_tasks :=
       [ {| task_id := py "AUTH-001-1-T1"; task_num := 1; requires := [];
            task_jira_key := py "ARGUS-13" |};
         {| task_id := py "AUTH-001-1-T2"; task_num := 2; requires := [py "T1"; py "T01"];
            task_jira_key := py "ARGUS-14" |} ] |}.

Definition logout_story : Story :=
  {| story_id := py "AUTH-001-2"; story_num := 2; depends_on := [py "S1"; py "S3"; py "1"];
     story_jira_key := py "ARGUS-12"; story_tasks := [] |}.

Definition auth_epic : Epic := {| epic_stories := [login_story; logout_story] |}.

Definition fresh_links : World :=
  {| jira := {| links := []; faults := [] |}; links_created := []; n_links := 0 |}.

End LinkPhaseNotions.

Section MissingKeyNotions.
Import Str Re PostImportFix Header CompleteMapping.

(** An epic whose second story has no key yet. *)
Definition billing_epic : Tree.EpicDir :=
  {| Tree.epic_dir_name := py "EPIC-BILL-002";
     Tree.readme := None;
     Tree.stories_dir := Some
       [ {| Tree.story_dir_name := py "01-invoice";
            Tree.story_files :=
              [ {| Tree.file_name := py "story-01-invoice.md";
                   Tree.file_content := py "# BILL-002-1: Invoice
| JIRA Key | ARGUS-30 |
| Blocks | 02-refund |
" |} ];
            Tree.tasks_dir := None |};
         {| Tree.story_dir_name := py "02-refund";
            Tree.story_files :=
              [ {| Tree.file_name := py "story-02-refund.md";
                   Tree.file_content := py "# BILL-002-2: Refund
| JIRA Key | - |
" |} ];
            Tree.tasks_dir := None |} ] |}.

End MissingKeyNotions.

Section ReadersNotions.
Import Str Re.

(** The first row of the key holds no key, and a later one does. *)
Definition two_key_rows : str := py "| JIRA Key | TBD |
| JIRA Key | ARGUS-9 |
".

End ReadersNotions.

Section ReconversionNotions.
Import Str Re PostImportFix.

(** ** Converting a converted document *)

(** The rewrite of a value cell of a match: the pattern [[^|]+] takes
    no empty cell. *)
Definition rewrite_filled (guard : str → bool) (cv : str → str) (cell : str) : str :=
  if is_nil cell then cell else rewrite_with guard cv cell.

(** A short form of a story or of a task, as the header patterns give
    it: it holds a digit and no dash. *)
Definition short_form (p : str) : Prop :=
  (∃ c, c ∈ p ∧ is_decimal c = true) ∧ "-" ∉ p.

Definition story_map_short (story_map : gmap str str) : Prop :=
  ∀ p k, story_map !! p = Some k → short_form p ∧ key_shape k = true.

Definition task_map_short (task_map : gmap (str * str) str) : Prop :=
  ∀ d p k, task_map !! (d, p) = Some k → short_form p ∧ key_shape k = true.

End ReconversionNotions.

(** * Properties *)

Section Strings.
Import Str Re PostImportFix.

Lemma lstrip_leading s : leading_space s ++ lstrip s = s.
Proof.
  induction s as [|c t IH]; simpl; [done|].
  destruct (isspace c); simpl; [by f_equal|done].
Qed.

Lemma leading_space_blank s : blank (leading_space s).
Proof.
  induction s as [|c t IH]; simpl; [constructor|].
  destruct (isspace c) eqn:E; by constructor.
Qed.

Lemma lstrip_blank_app w s : blank w → lstrip (w ++ s) = lstrip s.
Proof. induction 1 as [|c w Hc _ IH]; simpl; [done|]. by rewrite Hc. Qed.

Lemma leading_space_blank_app w s :
  blank w → leading_space (w ++ s) = w ++ leading_space s.
Proof. induction 1 as [|c w Hc _ IH]; simpl; [done|]. rewrite Hc. by f_equal. Qed.

Lemma lstrip_idemp s : lstrip (lstrip s) = lstrip s.
Proof.
  induction s as [|c t IH]; simpl; [done|].
  destruct (isspace c) eqn:E; [done|]. simpl. by rewrite E.
Qed.

Lemma lstrip_blank w : blank w → lstrip w = [].
Proof. intros H. rewrite <- (app_nil_r w). by rewrite lstrip_blank_app. Qed.

Lemma lstrip_nil_blank s : lstrip s = [] → blank s.
Proof.
  induction s as [|c t IH]; simpl; [constructor|].
  destruct (isspace c) eqn:E; [|done]. intros H. constructor; [done|by apply IH].
Qed.

Lemma lstrip_app_ne s t : lstrip s ≠ [] → lstrip (s ++ t) = lstrip s ++ t.
Proof.
  induction s as [|c s IH]; simpl; [done|].
  destruct (isspace c); [exact IH|done].
Qed.

Lemma rstrip_blank w : blank w → rstrip w = [].
Proof. induction 1 as [|c w Hc _ IH]; simpl; [done|]. by rewrite IH, Hc. Qed.

Lemma rstrip_app_blank s w : blank w → rstrip (s ++ w) = rstrip s.
Proof.
  intros Hw. induction s as [|c s IH]; simpl.
  - by apply rstrip_blank.
  - by rewrite IH.
Qed.

Lemma rstrip_nil_blank s : rstrip s = [] → blank s.
Proof.
  induction s as [|c t IH]; simpl; [constructor|].
  destruct (rstrip t) eqn:E; [|done].
  destruct (isspace c) eqn:Ec; [|done]. intros _. constructor; [done|by apply IH].
Qed.

Lemma rstrip_trailing s : ∃ w, blank w ∧ s = rstrip s ++ w.
Proof.
  induction s as [|c t (w & Hw & IH)]; simpl.
  - exists []. split; [constructor|done].
  - destruct (rstrip t) as [|d r] eqn:E.
    + destruct (isspace c) eqn:Ec.
      * exists (c :: t). split; [|done]. constructor; [done|].
        by apply rstrip_nil_blank.
      * exists w. split; [done|]. simpl. f_equal. by rewrite IH at 1.
    + exists w. split; [done|]. simpl. f_equal. exact IH.
Qed.

Lemma rstrip_idemp s : rstrip (rstrip s) = rstrip s.
Proof.
  destruct (rstrip_trailing s) as (w & Hw & E).
  rewrite E at 2. by rewrite rstrip_app_blank.
Qed.

Lemma rstrip_cons_ne c s : rstrip s ≠ [] → rstrip (c :: s) = c :: rstrip s.
Proof. simpl. by destruct (rstrip s). Qed.

Lemma rstrip_head c s : isspace c = false → ∃ r, rstrip (c :: s) = c :: r.
Proof. intros H. simpl. destruct (rstrip s); rewrite ?H; eauto. Qed.

(** Stripping the right end leaves a non-blank left end alone. *)
Lemma lstrip_rstrip_fix s : lstrip s = s → lstrip (rstrip s) = rstrip s.
Proof.
  destruct s as [|c t]; [done|]. simpl.
  destruct (isspace c) eqn:E.
  - intros H. exfalso.
    assert (length (lstrip t) ≤ length t).
    { clear. induction t as [|d t IH]; simpl; [lia|]. destruct (isspace d); simpl; lia. }
    rewrite H in H0. simpl in H0. lia.
  - intros _. destruct (rstrip t); simpl; by rewrite E.
Qed.

Lemma strip_clean s : clean (strip s).
Proof.
  split; unfold strip.
  - apply lstrip_rstrip_fix, lstrip_idemp.
  - apply rstrip_idemp.
Qed.

Lemma clean_strip s : clean s → strip s = s.
Proof. intros [H1 H2]. unfold strip. by rewrite H1. Qed.

Lemma strip_idemp s : strip (strip s) = strip s.
Proof. apply clean_strip, strip_clean. Qed.

Lemma strip_blank_l w s : blank w → strip (w ++ s) = strip s.
Proof. intros H. unfold strip. by rewrite lstrip_blank_app. Qed.

Lemma strip_blank_r s w : blank w → strip (s ++ w) = strip s.
Proof.
  intros H. unfold strip. destruct (lstrip s) eqn:E.
  - apply lstrip_nil_blank in E.
    rewrite lstrip_blank; [done|]. by apply Forall_app.
  - rewrite lstrip_app_ne by (by rewrite E). rewrite E. by apply rstrip_app_blank.
Qed.

Lemma strip_blank w : blank w → strip w = [].
Proof. intros H. unfold strip. by rewrite lstrip_blank. Qed.

Lemma strip_nil_blank s : strip s = [] → blank s.
Proof.
  unfold strip. intros H. apply rstrip_nil_blank in H.
  rewrite <- (lstrip_leading s). apply Forall_app. split; [apply leading_space_blank|done].
Qed.

Lemma strip_lstrip s : strip (lstrip s) = strip s.
Proof. unfold strip. by rewrite lstrip_idemp. Qed.

(** Every string is its stripped core between two blank margins. *)
Lemma strip_decompose s :
  ∃ w, blank w ∧ s = leading_space s ++ strip s ++ w.
Proof.
  destruct (rstrip_trailing (lstrip s)) as (w & Hw & E).
  exists w. split; [done|]. unfold strip. rewrite <- E. by rewrite lstrip_leading.
Qed.

Lemma clean_nil : clean [].
Proof. done. Qed.

Lemma clean_head c s : clean (c :: s) → isspace c = false.
Proof.
  intros [H _]. simpl in H. destruct (isspace c) eqn:E; [|done]. exfalso.
  assert (length (lstrip s) ≤ length s).
  { clear. induction s as [|d t IH]; simpl; [lia|]. destruct (isspace d); simpl; lia. }
  rewrite H in H0. simpl in H0. lia.
Qed.

Lemma leading_space_clean s : clean s → leading_space s = [].
Proof.
  destruct s as [|c t]; [done|]. intros H. simpl. by rewrite (clean_head _ _ H).
Qed.

(** Strings without whitespace are clean. *)
Lemma nospace_clean s : Forall (λ c, isspace c = false) s → clean s.
Proof.
  intros H. split.
  - destruct H as [|c t Hc _]; simpl; [done|]. by rewrite Hc.
  - induction H as [|c t Hc _ IH]; simpl; [done|]. rewrite IH.
    destruct t; by rewrite ?Hc.
Qed.

(** *** Splitting and joining *)

Lemma ascii_eqb_refl' c : Ascii.eqb c c = true.
Proof. apply Ascii.eqb_refl. Qed.

Lemma ascii_eqb_false c d : c ≠ d → Ascii.eqb c d = false.
Proof. intros H. by apply Ascii.eqb_neq. Qed.

Lemma split_nonempty sep s : split sep s ≠ [].
Proof.
  destruct s as [|c t]; simpl; [done|].
  destruct (Ascii.eqb c sep); [done|]. by destruct (split sep t).
Qed.

Lemma split_cons_ne sep c t :
  c ≠ sep → ∃ h r, split sep t = h :: r ∧ split sep (c :: t) = (c :: h) :: r.
Proof.
  intros H. simpl. rewrite (ascii_eqb_false _ _ H).
  destruct (split sep t) as [|h r] eqn:E; [by destruct (split_nonempty sep t)|].
  eauto.
Qed.

Lemma split_nosep sep s : sep ∉ s → split sep s = [s].
Proof.
  induction s as [|c t IH]; [done|]. intros H.
  apply not_elem_of_cons in H as [H1 H2].
  destruct (split_cons_ne sep c t) as (h & r & E1 & E2); [done|].
  rewrite E2. rewrite (IH H2) in E1. by inversion E1.
Qed.

Lemma split_app_nosep sep w s :
  sep ∉ w →
  split sep (w ++ s) =
  match split sep s with h :: r => (w ++ h) :: r | [] => [] end.
Proof.
  induction w as [|c w IH]; intros H; simpl app.
  - by destruct (split sep s).
  - apply not_elem_of_cons in H as [H1 H2].
    destruct (split_cons_ne sep c (w ++ s)) as (h & r & E1 & E2); [done|].
    rewrite E2. rewrite (IH H2) in E1.
    destruct (split sep s); [done|]. by inversion E1.
Qed.

Lemma split_app_sep sep a b :
  sep ∉ a → split sep (a ++ sep :: b) = a :: split sep b.
Proof.
  intros H. rewrite split_app_nosep by done. simpl.
  rewrite ascii_eqb_refl'. by rewrite app_nil_r.
Qed.

Lemma split_app_last sep s w :
  sep ∉ w → split sep (s ++ w) = app_last (split sep s) w.
Proof.
  intros H. induction s as [|c t IH]; simpl app.
  - by rewrite split_nosep.
  - simpl split. destruct (Ascii.eqb c sep).
    + rewrite IH. simpl.
      destruct (split sep t) eqn:E; [by destruct (split_nonempty sep t)|done].
    + rewrite IH. destruct (split sep t) as [|h r] eqn:E;
        [by destruct (split_nonempty sep t)|].
      simpl. by destruct r.
Qed.

Lemma join_split sep s : join [sep] (split sep s) = s.
Proof.
  induction s as [|c t IH]; [done|]. simpl split.
  destruct (Ascii.eqb c sep) eqn:E.
  - apply Ascii.eqb_eq in E as ->.
    simpl. destruct (split sep t) eqn:E'; [by destruct (split_nonempty sep t)|].
    by rewrite IH.
  - destruct (split sep t) as [|h r] eqn:E'; [by destruct (split_nonempty sep t)|].
    rewrite <- IH. simpl. by destruct r.
Qed.

Lemma split_join sep l :
  l ≠ [] → Forall (λ x, sep ∉ x) l → split sep (join [sep] l) = l.
Proof.
  intros Hne H. induction H as [|x r Hx Hr IH]; [done|].
  simpl. destruct r as [|y r'].
  - by apply split_nosep.
  - simpl app. rewrite split_app_sep by done. f_equal. by apply IH.
Qed.

Lemma split_pieces sep s : Forall (λ x, sep ∉ x) (split sep s).
Proof.
  induction s as [|c t IH]; simpl.
  - constructor; [|constructor]. apply not_elem_of_nil.
  - destruct (Ascii.eqb c sep) eqn:E.
    + constructor; [apply not_elem_of_nil|done].
    + destruct (split sep t) as [|h r]; [repeat constructor|].
      * intros H. apply list_elem_of_singleton in H. subst.
        by rewrite ascii_eqb_refl' in E.
      * inversion IH; subst. constructor; [|done].
        intros H. apply elem_of_cons in H as [->|H]; [|done].
        by rewrite ascii_eqb_refl' in E.
Qed.

(** Pieces of a string without a given character do not have it. *)
Lemma split_pieces_notin sep d s : d ∉ s → Forall (λ x, d ∉ x) (split sep s).
Proof.
  induction s as [|c t IH]; simpl; intros H.
  - constructor; [|constructor]. apply not_elem_of_nil.
  - apply not_elem_of_cons in H as [H1 H2]. specialize (IH H2).
    destruct (Ascii.eqb c sep).
    + constructor; [apply not_elem_of_nil|done].
    + destruct (split sep t) as [|h r].
      * repeat constructor. intros H. by apply list_elem_of_singleton in H.
      * inversion IH; subst. constructor; [|done].
        intros H. by apply elem_of_cons in H as [?|?].
Qed.

Lemma blank_notin w c : isspace c = false → blank w → c ∉ w.
Proof.
  intros Hc Hw Hin. unfold blank in Hw. rewrite Forall_forall in Hw.
  specialize (Hw _ Hin). congruence.
Qed.

Lemma map_strip_app_last l w :
  blank w → map strip (app_last l w) = map strip l.
Proof.
  intros Hw. induction l as [|x r IH]; [done|]. simpl.
  destruct r as [|y r'].
  - simpl. by rewrite strip_blank_r.
  - simpl in *. by rewrite IH.
Qed.

(** Stripping the field first does not change the stripped tokens. *)
Lemma tokens_strip sep s :
  isspace sep = false →
  map strip (split sep (strip s)) = map strip (split sep s).
Proof.
  intros Hsep. destruct (strip_decompose s) as (w & Hw & E).
  rewrite E at 2.
  rewrite split_app_nosep by (apply blank_notin; [done|apply leading_space_blank]).
  rewrite split_app_last by (by apply blank_notin).
  destruct (split sep (strip s)) as [|h r] eqn:Es;
    [by destruct (split_nonempty sep (strip s))|].
  assert (∀ l, match app_last l w with h0 :: r0 => (leading_space s ++ h0) :: r0 | [] => [] end
               = app_last (match l with h0 :: r0 => (leading_space s ++ h0) :: r0 | [] => [] end) w) as Hc.
  { intros [|a [|b l]]; simpl; by rewrite <- ?app_assoc. }
  rewrite Hc, map_strip_app_last by done.
  simpl. by rewrite strip_blank_l by apply leading_space_blank.
Qed.

(** Splitting a comma-and-space join of comma-free tokens. *)
Lemma split_join_comma ts :
  Forall (λ x, "," ∉ x) ts →
  split "," (join (py ", ") ts) =
  match ts with [] => [[]] | t :: r => t :: map (cons " ") r end.
Proof.
  induction 1 as [|x r Hx Hr IH]; [done|].
  simpl join. destruct r as [|y r'].
  - by apply split_nosep.
  - change (py ", " ++ ?z) with ("," :: " " :: z).
    rewrite split_app_sep by done. f_equal.
    change (" " :: ?z) with ([" "] ++ z) at 1.
    rewrite split_app_nosep.
    2:{ intros H. by apply list_elem_of_singleton in H. }
    change (py ", ") with [","; " "] in IH. by rewrite IH.
Qed.

Lemma join_notin sep d l :
  d ∉ sep → Forall (λ x, d ∉ x) l → d ∉ join sep l.
Proof.
  intros Hs H. induction H as [|x r Hx Hr IH]; simpl; [apply not_elem_of_nil|].
  destruct r; [done|]. rewrite !not_elem_of_app. auto.
Qed.

End Strings.

Section Keys.
Import Str Re PostImportFix.

Lemma span_spec p s a b :
  span p s = (a, b) → s = a ++ b ∧ Forall (λ c, p c = true) a.
Proof.
  revert a b. induction s as [|c t IH]; simpl; intros a b H.
  - inversion H. by split.
  - destruct (p c) eqn:E.
    + destruct (span p t) as [a' b'] eqn:E'. injection H as <- <-.
      destruct (IH a' b' eq_refl) as [-> HF]. split; [done|by constructor].
    + inversion H. by split.
Qed.

Lemma key_shape_chars v : key_shape v = true → Forall (λ c, key_char c = true) v.
Proof.
  unfold key_shape. destruct (span is_upper_az v) as [u r] eqn:Eu.
  destruct u as [|u0 u]; [done|]. destruct r as [|c d]; [done|].
  destruct (Ascii.eqb_spec c "-") as [->|]; [|by destruct c as [[] [] [] [] [] [] [] []]].
  destruct (span is_decimal d) as [ds r'] eqn:Ed.
  destruct ds as [|d0 ds]; [done|]. destruct r'; [|done]. intros _.
  apply span_spec in Eu as [-> Hu]. apply span_spec in Ed as [-> Hd].
  rewrite app_nil_r. apply Forall_app. split.
  - eapply Forall_impl; [exact Hu|]. intros c Hc. unfold key_char. by rewrite Hc.
  - constructor; [done|]. eapply Forall_impl; [exact Hd|].
    intros c Hc. unfold key_char. rewrite Hc. by rewrite !orb_true_r.
Qed.

Lemma key_char_nospace c : key_char c = true → isspace c = false.
Proof. destruct c as [[] [] [] [] [] [] [] []]; by vm_compute. Qed.

Lemma key_char_not_comma c : key_char c = true → c ≠ ",".
Proof. destruct c as [[] [] [] [] [] [] [] []]; by vm_compute. Qed.

Lemma key_char_not_bar c : key_char c = true → c ≠ "|".
Proof. destruct c as [[] [] [] [] [] [] [] []]; by vm_compute. Qed.

Lemma key_shape_clean v : key_shape v = true → clean v.
Proof.
  intros H. apply nospace_clean. eapply Forall_impl; [by apply key_shape_chars|].
  apply key_char_nospace.
Qed.

Lemma key_shape_notin v d : key_char d = false → key_shape v = true → d ∉ v.
Proof.
  intros Hd H Hin. apply key_shape_chars in H. rewrite Forall_forall in H.
  specialize (H _ Hin). congruence.
Qed.

Lemma key_shape_match v : key_shape v = true → match_key v = true.
Proof.
  unfold key_shape, match_key. destruct (span is_upper_az v) as [[|? ?] [|c d]]; try done.
  destruct c as [[] [] [] [] [] [] [] []]; try done.
  by destruct (span is_decimal d) as [[|? ?] [|? ?]].
Qed.

Lemma key_shape_is_jira_key v : key_shape v = true → is_jira_key v = true.
Proof.
  intros H. unfold is_jira_key. rewrite clean_strip by (by apply key_shape_clean).
  by apply key_shape_match.
Qed.

Section Conversion.
Context (m : ReferenceMapping) (ctx : option Context).

Lemma first_hit_in l k : first_hit l = Some k → Some k ∈ l.
Proof.
  induction l as [|[x|] l IH]; simpl; [done| |].
  - intros [= ->]. apply elem_of_cons. by left.
  - intros H. apply elem_of_cons. right. by apply IH.
Qed.

Lemma epic_lookup_value ref k :
  values_ok m → epic_lookup ref m = Some k → key_or_empty k.
Proof.
  intros (He & _). unfold epic_lookup.
  destruct (epics m !! ref) eqn:E1.
  - intros [= <-]. exact (He _ _ E1).
  - destruct (startswith _ _); [|done]. intros E2. exact (He _ _ E2).
Qed.

Lemma story_in_epic_value ref k :
  values_ok m → story_in_epic ref m ctx = Some k → key_or_empty k.
Proof.
  intros (_ & _ & Hse & _). unfold story_in_epic.
  destruct (ctx ≫= epic_name) as [[|c e]|]; [done| |done].
  destruct (startswith (py "S") ref && isalnum (drop 1 ref)).
  - destruct (stories_by_epic m !! (c :: e, ref)) eqn:E1.
    { intros [= <-]. exact (Hse _ _ E1). }
    destruct (stories_by_epic m !! (c :: e, drop 1 ref)) eqn:E2.
    { intros [= <-]. exact (Hse _ _ E2). }
    destruct (_ || _); [|done].
    destruct (stories_by_epic m !! (c :: e, "S" :: ref)) eqn:E3; [|done].
    intros [= <-]. exact (Hse _ _ E3).
  - destruct (_ || _); [|done].
    destruct (stories_by_epic m !! (c :: e, ref)) eqn:E1.
    { intros [= <-]. exact (Hse _ _ E1). }
    intros E3. exact (Hse _ _ E3).
Qed.

Lemma task_in_story_value ref k :
  values_ok m → task_in_story ref m ctx = Some k → key_or_empty k.
Proof.
  intros (_ & _ & _ & _ & Htt). unfold task_in_story.
  destruct (ctx ≫= story_dir_name); [|done]. intros E. exact (Htt _ _ E).
Qed.

Lemma lookups_value ref k :
  values_ok m → first_hit (lookups ref m ctx) = Some k → key_or_empty k.
Proof.
  intros Hm H. apply first_hit_in in H. unfold lookups in H.
  rewrite !elem_of_cons, elem_of_nil in H.
  destruct H as [H|[H|[H|[H|[H|[]]]]]]; symmetry in H.
  - by eapply epic_lookup_value.
  - destruct Hm as (_ & Hs & _). exact (Hs _ _ H).
  - by eapply story_in_epic_value.
  - destruct Hm as (_ & _ & _ & Ht & _). exact (Ht _ _ H).
  - by eapply task_in_story_value.
Qed.

Lemma convert_reference_strip t :
  convert_reference (strip t) m ctx = convert_reference t m ctx.
Proof. unfold convert_reference. by rewrite strip_idemp. Qed.

Lemma conv_cases t :
  conv m ctx t = strip t ∨ first_hit (lookups (strip t) m ctx) = Some (conv m ctx t).
Proof.
  unfold conv, convert_reference.
  destruct (is_jira_key (strip t)); [by left|].
  destruct (is_none_value (strip t)); [by left|].
  destruct (first_hit _); [by right|by left].
Qed.

Lemma conv_value v : key_or_empty v → convert_reference v m ctx = (v, false).
Proof.
  intros [H| ->]; [|done]. unfold convert_reference.
  rewrite (clean_strip v) by (by apply key_shape_clean).
  by rewrite key_shape_is_jira_key.
Qed.

Lemma conv_idemp t : values_ok m → conv m ctx (conv m ctx t) = conv m ctx t.
Proof.
  intros Hm. destruct (conv_cases t) as [E|E].
  - rewrite E. unfold conv. by rewrite convert_reference_strip.
  - unfold conv at 1. by rewrite (conv_value _ (lookups_value _ _ Hm E)).
Qed.

Lemma key_or_empty_clean v : key_or_empty v → clean v.
Proof. intros [H| ->]; [by apply key_shape_clean|done]. Qed.

Lemma conv_clean t : values_ok m → clean (conv m ctx t).
Proof.
  intros Hm. destruct (conv_cases t) as [E|E].
  - rewrite E. apply strip_clean.
  - eapply key_or_empty_clean, lookups_value; eauto.
Qed.
End Conversion.

End Keys.

Section Cells.
Import Str Re PostImportFix.

Lemma removelast_drop_last (s : str) :
  s ≠ [] → removelast s ++ drop (length s - 1) s = s.
Proof.
  induction s as [|c t IH]; [done|]. intros _. destruct t as [|d t']; [done|].
  change (removelast (c :: d :: t')) with (c :: removelast (d :: t')).
  replace (length (c :: d :: t') - 1) with (S (length (d :: t') - 1)) by (simpl; lia).
  simpl drop. simpl app. f_equal. by apply IH.
Qed.

Lemma blank_drop n (w : str) : blank w → blank (drop n w).
Proof. intros H. by apply Forall_drop. Qed.

Lemma blank_removelast (w : str) : blank w → blank (removelast w).
Proof.
  induction 1 as [|c w Hc Hw IH]; [constructor|].
  destruct w; [constructor|]. change (blank (c :: removelast (a :: w))).
  by constructor.
Qed.

Lemma cell_lead_blank cell : blank (cell_lead cell).
Proof.
  unfold cell_lead. destruct (lstrip cell) eqn:E.
  - by apply blank_removelast, lstrip_nil_blank.
  - apply leading_space_blank.
Qed.

Lemma elem_of_removelast (c : ascii) s : c ∈ removelast s → c ∈ s.
Proof.
  induction s as [|d t IH]; [done|].
  destruct t as [|e t']; [simpl; by intros ?%elem_of_nil|].
  change (removelast (d :: e :: t')) with (d :: removelast (e :: t')).
  rewrite !elem_of_cons. intros [->|H]; [by left|]. right.
  apply elem_of_cons. by apply IH.
Qed.

Lemma elem_of_lstrip c s : c ∈ lstrip s → c ∈ s.
Proof.
  intros H. rewrite <- (lstrip_leading s). apply elem_of_app. by right.
Qed.

Lemma elem_of_rstrip c s : c ∈ rstrip s → c ∈ s.
Proof.
  intros H. destruct (rstrip_trailing s) as (w & _ & E). rewrite E.
  apply elem_of_app. by left.
Qed.

Lemma elem_of_strip c s : c ∈ strip s → c ∈ s.
Proof. intros H. by apply elem_of_lstrip, elem_of_rstrip. Qed.

Lemma elem_of_leading_space c s : c ∈ leading_space s → c ∈ s.
Proof.
  intros H. rewrite <- (lstrip_leading s). apply elem_of_app. by left.
Qed.

Lemma elem_of_cell_lead c s : c ∈ cell_lead s → c ∈ s.
Proof.
  unfold cell_lead. destruct (lstrip s).
  - apply elem_of_removelast.
  - apply elem_of_leading_space.
Qed.

(** The groups of a match give the lead, and the tokens of the cell. *)
Lemma field_groups_spec lab cell :
  cell ≠ [] →
  ∃ g, field_groups lab cell = ("|" :: lab ++ "|" :: cell_lead cell, g, ["|"])
       ∧ cell_lead cell ++ g = cell ∧ strip g = strip cell.
Proof.
  intros Hne. unfold field_groups, cell_lead.
  destruct (lstrip cell) as [|b body] eqn:E.
  - exists (drop (length cell - 1) cell). split; [done|].
    split; [by apply removelast_drop_last|].
    apply lstrip_nil_blank in E.
    rewrite (strip_blank cell) by done. by apply strip_blank, blank_drop.
  - exists (b :: body). split; [done|]. rewrite <- E.
    split; [apply lstrip_leading|apply strip_lstrip].
Qed.

Lemma tokens_of_group g cell :
  strip g = strip cell → map strip (split "," g) = tokens cell.
Proof.
  intros H. unfold tokens. rewrite <- H. symmetry. by apply tokens_strip.
Qed.

Section Cell.
Context (m : ReferenceMapping) (ctx : option Context).

Lemma convert_step_eq F c a u r :
  convert_step F m ctx (c, a, u) r =
  (c ++ [conv m ctx r], a || (convert_reference r m ctx).2,
   u ++ report F m ctx r).
Proof.
  unfold convert_step, report, conv.
  destruct (convert_reference r m ctx) as [n w]. simpl.
  destruct w; simpl.
  - by rewrite app_nil_r, orb_true_r.
  - rewrite orb_false_r.
    destruct (negb (is_jira_key n) && negb (is_none_value n)); [done|].
    by rewrite app_nil_r.
Qed.

Lemma fold_convert_step F refs c a u :
  fold_left (convert_step F m ctx) refs (c, a, u) =
  (c ++ map (conv m ctx) refs,
   a || existsb (λ r, (convert_reference r m ctx).2) refs,
   u ++ flat_map (report F m ctx) refs).
Proof.
  revert c a u. induction refs as [|r refs IH]; intros c a u.
  - simpl. by rewrite !app_nil_r, orb_false_r.
  - cbn [fold_left]. rewrite convert_step_eq, IH. simpl.
    by rewrite <- !app_assoc, orb_assoc.
Qed.

(** The callback on the groups of a match, in terms of the cell. *)
Lemma replace_refs_groups F lab cell st :
  cell ≠ [] →
  replace_refs F m ctx (field_groups lab cell) st =
  ("|" :: lab ++ "|" :: rewrite_cell m ctx cell ++ ["|"],
   cell_state F m ctx cell st).
Proof.
  intros Hne. destruct (field_groups_spec lab cell Hne) as (g & -> & Hg & Hs).
  unfold replace_refs, rewrite_cell, rewrite_with, cell_state, none_guard.
  rewrite Hs. destruct (is_none_value (strip cell)) eqn:E.
  - f_equal. rewrite <- Hg at 2.
    by repeat (rewrite <- ?app_assoc; simpl; try f_equal).
  - rewrite <- Hs, tokens_strip by done. rewrite (tokens_of_group g cell Hs).
    rewrite fold_convert_step. simpl. f_equal.
    by repeat (rewrite <- ?app_assoc; simpl; try f_equal).
Qed.
End Cell.

Lemma replace_task_field_groups tm dir lab cell st :
  cell ≠ [] →
  ConvertAllRefs.replace_task_field tm dir (field_groups lab cell) st =
  ("|" :: lab ++ "|" :: rewrite_task_cell tm dir cell ++ ["|"], st).
Proof.
  intros Hne. destruct (field_groups_spec lab cell Hne) as (g & -> & Hg & Hs).
  unfold ConvertAllRefs.replace_task_field, rewrite_task_cell, rewrite_with, task_guard.
  rewrite Hs. destruct (_ || _) eqn:E.
  - f_equal. rewrite <- Hg at 2.
    by repeat (rewrite <- ?app_assoc; simpl; try f_equal).
  - rewrite (tokens_of_group g cell Hs). f_equal.
    by repeat (rewrite <- ?app_assoc; simpl; try f_equal).
Qed.

Lemma tokens_notin d cell : d ∉ cell → Forall (λ x, d ∉ x) (tokens cell).
Proof.
  intros H. unfold tokens. apply Forall_map.
  eapply Forall_impl.
  - apply (split_pieces_notin "," d (strip cell)).
    intros Hin. by apply H, elem_of_strip.
  - intros x Hx Hin. by apply Hx, elem_of_strip.
Qed.

Lemma tokens_nocomma cell : Forall (λ x, "," ∉ x) (tokens cell).
Proof.
  unfold tokens. apply Forall_map. eapply Forall_impl; [apply split_pieces|].
  intros x Hx Hin. by apply Hx, elem_of_strip.
Qed.

Lemma tokens_clean cell : Forall clean (tokens cell).
Proof. unfold tokens. apply Forall_map, Forall_forall. intros x _. apply strip_clean. Qed.

Lemma tokens_nonempty cell : tokens cell ≠ [].
Proof.
  unfold tokens. destruct (split "," (strip cell)) eqn:E; [|done].
  by destruct (split_nonempty "," (strip cell)).
Qed.

Lemma split_single sep s x : split sep s = [x] → s = x.
Proof. intros H. rewrite <- (join_split sep s). by rewrite H. Qed.

Lemma join_two_comma t u r : "," ∈ join (py ", ") (t :: u :: r).
Proof.
  change (join (py ", ") (t :: u :: r)) with (t ++ "," :: " " :: join (py ", ") (u :: r)).
  apply elem_of_app. right. apply elem_of_cons. by left.
Qed.

Lemma notin_strip_inv d s : isspace d = false → d ∉ strip s → d ∉ s.
Proof.
  intros Hd H. destruct (strip_decompose s) as (w & Hw & E). rewrite E.
  rewrite !not_elem_of_app. split; [|split]; [|done|].
  - apply blank_notin; [done|apply leading_space_blank].
  - by apply blank_notin.
Qed.

Lemma blank_one : blank (py " ").
Proof. by repeat constructor. Qed.

(** Rewrites whose token conversion keeps a stripped token or gives a
    remote key (or nothing). *)
Section Rewrite.
Context (guard : str → bool) (cv : str → str).
Hypothesis Hcv : ∀ t, clean t → cv t = t ∨ key_or_empty (cv t).

Lemma cv_notin d t : key_char d = false → clean t → d ∉ t → d ∉ cv t.
Proof.
  intros Hd Hc Ht. destruct (Hcv t Hc) as [E|[E|E]].
  - by rewrite E.
  - by apply key_shape_notin.
  - rewrite E. apply not_elem_of_nil.
Qed.

Lemma converted_notin d cell :
  key_char d = false → Forall (λ x, d ∉ x) (tokens cell) →
  Forall (λ x, d ∉ x) (map cv (tokens cell)).
Proof.
  intros Hd H. apply Forall_map.
  pose proof (tokens_clean cell) as Hc.
  induction H as [|x l Hx _ IH]; [constructor|].
  inversion Hc; subst. constructor; [by apply cv_notin|by apply IH].
Qed.

(** A rewritten cell has no bar when the cell had none. *)
Lemma rewrite_with_nobar cell :
  "|" ∉ cell → "|" ∉ rewrite_with guard cv cell.
Proof.
  intros H. unfold rewrite_with. destruct (guard cell); [done|].
  rewrite !not_elem_of_app. split; [|split].
  - intros Hin. by apply H, elem_of_cell_lead.
  - apply join_notin.
    + intros Hc. by repeat (apply elem_of_cons in Hc as [Hc|Hc]; [done|]);
        apply elem_of_nil in Hc.
    + apply converted_notin; [done|]. by apply tokens_notin.
  - intros Hc. by apply list_elem_of_singleton in Hc.
Qed.

Lemma strip_rewritten cell J :
  strip (cell_lead cell ++ J ++ py " ") = strip J.
Proof.
  rewrite strip_blank_l by apply cell_lead_blank.
  by rewrite strip_blank_r by apply blank_one.
Qed.

(** A cell that is a label after the rewrite was that label before. *)
Lemma rewrite_with_label_inv F cell :
  good_label F →
  is_label F (rewrite_with guard cv cell) = true → is_label F cell = true.
Proof.
  intros (HFc & HFne & HFn & HFk). unfold is_label, eqb. rewrite !bool_decide_eq_true.
  unfold rewrite_with. destruct (guard cell); [done|].
  rewrite strip_rewritten. intros HF.
  assert (Hn : "," ∉ join (py ", ") (map cv (tokens cell))).
  { apply notin_strip_inv; [done|]. by rewrite HF. }
  unfold tokens in *.
  destruct (split "," (strip cell)) as [|x [|y r]] eqn:Es.
  - by destruct (split_nonempty "," (strip cell)).
  - apply split_single in Es. simpl in HF.
    assert (Hx : strip x = x) by (rewrite <- Es; apply strip_idemp).
    rewrite Hx in HF.
    destruct (Hcv x) as [Ec|Ec].
    + rewrite <- Es. apply strip_clean.
    + rewrite Ec, Hx in HF. by rewrite Es.
    + assert (clean (cv x)) as Hcl by (by apply key_or_empty_clean).
      rewrite (clean_strip _ Hcl) in HF. rewrite HF in Ec.
      destruct Ec; congruence.
  - exfalso. apply Hn. apply join_two_comma.
Qed.
End Rewrite.

(** Splitting a join of clean comma-free tokens gives the tokens back. *)
Lemma tokens_join ts :
  ts ≠ [] → Forall clean ts → Forall (λ x, "," ∉ x) ts →
  map strip (split "," (join (py ", ") ts)) = ts.
Proof.
  intros Hne Hc Hn. rewrite split_join_comma by done.
  destruct ts as [|t r]; [done|]. simpl. f_equal.
  - apply clean_strip. by inversion Hc.
  - inversion Hc as [|? ? _ Hr]; subst. clear -Hr.
    induction Hr as [|x r Hx _ IH]; [done|]. simpl. f_equal; [|done].
    change (" " :: x) with ([" "] ++ x).
    rewrite strip_blank_l by (by repeat constructor). by apply clean_strip.
Qed.

Lemma join_leading ts x :
  Forall clean ts → join (py ", ") ts ≠ [] →
  leading_space (join (py ", ") ts ++ x) = [].
Proof.
  intros Hc. destruct ts as [|t r]; [done|]. simpl.
  inversion Hc as [|? ? Ht _]; subst.
  destruct t as [|c t].
  - destruct r; [done|]. done.
  - intros _. pose proof (clean_head _ _ Ht) as Hs.
    destruct r; simpl; by rewrite Hs.
Qed.

Lemma cell_lead_nonblank cell : lstrip cell ≠ [] → cell_lead cell = leading_space cell.
Proof. unfold cell_lead. by destruct (lstrip cell). Qed.

Section Idempotent.
Context (guard : str → bool) (cv : str → str).
Hypothesis Hblank : ∀ cell, blank cell → guard cell = true.
Hypothesis Hcv_idem : ∀ t, cv (cv t) = cv t.
Hypothesis Hcv_clean : ∀ t, clean (cv t).
Hypothesis Hcv_comma : ∀ t, "," ∉ t → "," ∉ cv t.

Lemma guard_false_nonblank cell : guard cell = false → lstrip cell ≠ [].
Proof.
  intros Hg E. apply lstrip_nil_blank in E. rewrite Hblank in Hg; done.
Qed.

Lemma converted_clean cell : Forall clean (map cv (tokens cell)).
Proof. apply Forall_map, Forall_forall. intros x _. apply Hcv_clean. Qed.

Lemma converted_nocomma cell : Forall (λ x, "," ∉ x) (map cv (tokens cell)).
Proof.
  apply Forall_map. eapply Forall_impl; [apply tokens_nocomma|]. apply Hcv_comma.
Qed.

Lemma converted_idemp cell :
  map cv (map cv (tokens cell)) = map cv (tokens cell).
Proof.
  rewrite <- list_fmap_compose. apply list_fmap_ext. intros i x _. simpl.
  apply Hcv_idem.
Qed.

(** Rewriting a rewritten cell changes nothing. *)
Lemma rewrite_with_idemp cell :
  rewrite_with guard cv (rewrite_with guard cv cell) = rewrite_with guard cv cell.
Proof.
  destruct (guard cell) eqn:E.
  { assert (R : rewrite_with guard cv cell = cell)
      by (unfold rewrite_with; by rewrite E).
    by rewrite !R. }
  pose (ts := map cv (tokens cell)).
  pose (lead := leading_space cell).
  assert (R : rewrite_with guard cv cell = lead ++ join (py ", ") ts ++ py " ").
  { unfold rewrite_with. rewrite E.
    by rewrite cell_lead_nonblank by (by apply guard_false_nonblank). }
  rewrite R.
  assert (Hl : blank lead) by apply leading_space_blank.
  assert (Hts : ts ≠ []).
  { unfold ts. pose proof (tokens_nonempty cell). by destruct (tokens cell). }
  unfold rewrite_with.
  destruct (guard (lead ++ join (py ", ") ts ++ py " ")) eqn:E'; [done|].
  assert (Hj : join (py ", ") ts ≠ []).
  { intros Hj. rewrite Hj in E'. rewrite Hblank in E'; [done|].
    apply Forall_app. split; [done|apply blank_one]. }
  rewrite cell_lead_nonblank by (by apply guard_false_nonblank).
  rewrite leading_space_blank_app by done.
  rewrite join_leading by (done || apply converted_clean).
  rewrite app_nil_r. f_equal. f_equal. f_equal.
  unfold tokens. rewrite strip_blank_l, strip_blank_r by (done || apply blank_one).
  rewrite tokens_strip by done.
  rewrite tokens_join by
    (done || apply converted_clean || apply converted_nocomma).
  apply converted_idemp.
Qed.

Lemma rewrite_with_nil cell :
  is_nil (rewrite_with guard cv cell) = is_nil cell.
Proof.
  unfold rewrite_with. destruct (guard cell) eqn:E; [done|].
  destruct cell as [|c0 cell]; [rewrite Hblank in E; [done|constructor]|].
  destruct (cell_lead (c0 :: cell)); [|done].
  by destruct (join _ _).
Qed.

(** A label cell stays that label when the label itself does not convert. *)
Lemma rewrite_with_label F cell :
  good_label F → cv F = F →
  is_label F cell = true → is_label F (rewrite_with guard cv cell) = true.
Proof.
  intros (HFc & HFne & HFn & HFk) Hconv. unfold is_label, eqb.
  rewrite !bool_decide_eq_true. intros HF.
  unfold rewrite_with. destruct (guard cell) eqn:E; [done|].
  rewrite strip_rewritten.
  unfold tokens. rewrite HF, split_nosep by done. simpl.
  rewrite (clean_strip F) by done. rewrite Hconv. by apply clean_strip.
Qed.
End Idempotent.

End Cells.

Section Rows.
Import Str Re PostImportFix.

(** Induction following the recursion of the substitution. *)
Lemma row_ind (P : list str → Prop) :
  P [] →
  (∀ a, P [a]) →
  (∀ a b, P [b] → P [a; b]) →
  (∀ lab cell nxt rest, P rest → P (cell :: nxt :: rest) → P (lab :: cell :: nxt :: rest)) →
  ∀ l, P l.
Proof.
  intros H0 H1 H2 H3 l.
  assert (∀ n l, length l ≤ n → P l) as H; [|by apply (H (length l))].
  clear l. induction n as [|n IH]; intros l Hl.
  - destruct l; [done|simpl in Hl; lia].
  - destruct l as [|a [|b [|c r]]]; auto.
    apply H3; apply IH; simpl in *; lia.
Qed.

Lemma mask_length F l : length (mask F l) = length l.
Proof.
  induction l as [|a|a b IH|lab cell nxt rest IH1 IH2] using row_ind; try done.
  change (mask F (lab :: cell :: nxt :: rest)) with
    (if is_label F lab && negb (is_nil cell)
     then false :: true :: false :: mask F rest
     else false :: mask F (cell :: nxt :: rest)).
  destruct (_ && _); simpl length in *; lia.
Qed.

Lemma dmask_length F L : length (dmask F L) = length L.
Proof. destruct L; [done|]. simpl. by rewrite mask_length. Qed.

Lemma join_bars s0 l : join ["|"] (s0 :: l) = s0 ++ bars l.
Proof.
  revert s0. induction l as [|x l IH]; intros s0; simpl.
  - by rewrite app_nil_r.
  - unfold bars. simpl. f_equal. f_equal. apply IH.
Qed.

Section Sub.
Context {S : Type} (F : str) (repl : str * str * str → S → str * S)
        (rw : str → str).
Hypothesis Hrepl : ∀ lab cell st, cell ≠ [] →
  (repl (field_groups lab cell) st).1 = "|" :: lab ++ "|" :: rw cell ++ ["|"].

Lemma sub_field_cells l st :
  (sub_field F repl l st).1 = bars (apply_mask rw (mask F l) l).
Proof.
  revert st.
  induction l as [|a|a b IH|lab cell nxt rest IH1 IH2] using row_ind; intros st.
  - done.
  - unfold bars. simpl. by repeat (rewrite <- ?app_assoc, ?app_nil_r; simpl; try f_equal).
  - unfold bars. simpl. by repeat (rewrite <- ?app_assoc, ?app_nil_r; simpl; try f_equal).
  - change (sub_field F repl (lab :: cell :: nxt :: rest) st) with
      (if is_label F lab && negb (is_nil cell)
       then let '(out, st1) := repl (field_groups lab cell) st in
            let '(tl, st2) := sub_field F repl rest st1 in
            (out ++ nxt ++ tl, st2)
       else let '(tl, st1) := sub_field F repl (cell :: nxt :: rest) st in
            ("|" :: lab ++ tl, st1)).
    change (mask F (lab :: cell :: nxt :: rest)) with
      (if is_label F lab && negb (is_nil cell)
       then false :: true :: false :: mask F rest
       else false :: mask F (cell :: nxt :: rest)).
    destruct (is_label F lab && negb (is_nil cell)) eqn:E.
    + apply andb_true_iff in E as [_ E].
      assert (cell ≠ []) as Hc by (by destruct cell).
      specialize (Hrepl lab cell st Hc).
      destruct (repl (field_groups lab cell) st) as [out st1]. simpl in Hrepl.
      specialize (IH1 st1). destruct (sub_field F repl rest st1) as [tl st2].
      simpl in IH1. simpl. rewrite Hrepl, IH1. unfold bars. simpl.
      by repeat (rewrite <- ?app_assoc; simpl; try f_equal).
    + specialize (IH2 st).
      destruct (sub_field F repl (cell :: nxt :: rest) st) as [tl st1].
      simpl in IH2. simpl. rewrite IH2. unfold bars. simpl. done.
Qed.

Lemma apply_mask_length M l : length M = length l → length (apply_mask rw M l) = length l.
Proof. intros H. unfold apply_mask. rewrite length_zip_with. lia. Qed.

Hypothesis Hbar : ∀ c, "|" ∉ c → "|" ∉ rw c.

Lemma apply_mask_nobar M l :
  Forall (λ x, "|" ∉ x) l → Forall (λ x, "|" ∉ x) (apply_mask rw M l).
Proof.
  intros H. revert M. induction H as [|x l Hx _ IH]; intros [|b M]; try constructor.
  - destruct b; auto.
  - apply IH.
Qed.

(** One substitution pass, on the cells of the document. *)
Lemma re_sub_field_cells content st :
  cells (re_sub_field F repl content st).1 = pass rw (cells content) F.
Proof.
  unfold re_sub_field, pass, dmask. pose proof (split_pieces "|" content) as Hp.
  fold (cells content) in Hp.
  destruct (cells content) as [|s0 l] eqn:E.
  { by destruct (split_nonempty "|" content). }
  pose proof (sub_field_cells l st) as Hs.
  destruct (sub_field F repl l st) as [out st']. simpl in *. subst out.
  rewrite <- join_bars. unfold cells. rewrite split_join; [done|done|].
  inversion Hp; subst. constructor; [done|]. by apply apply_mask_nobar.
Qed.
End Sub.

(** A value cell of a match stands behind a label cell. *)
Lemma mask_true F l j :
  mask F l !! j = Some true →
  ∃ j' lab, j = S j' ∧ l !! j' = Some lab ∧ is_label F lab = true.
Proof.
  revert j.
  induction l as [|a|a b IH|lab cell nxt rest IH1 IH2] using row_ind; intros j.
  - done.
  - by destruct j as [|[|j]].
  - by destruct j as [|[|[|j]]].
  - change (mask F (lab :: cell :: nxt :: rest)) with
      (if is_label F lab && negb (is_nil cell)
       then false :: true :: false :: mask F rest
       else false :: mask F (cell :: nxt :: rest)).
    destruct (is_label F lab && negb (is_nil cell)) eqn:E.
    + apply andb_true_iff in E as [E _].
      destruct j as [|[|[|j]]]; simpl; try done.
      * intros _. by exists 0, lab.
      * intros H. destruct (IH1 _ H) as (j' & lab' & -> & Hl & HF).
        by exists (S (S (S j'))), lab'.
    + destruct j as [|j]; simpl; [done|].
      intros H. destruct (IH2 _ H) as (j' & lab' & -> & Hl & HF).
      by exists (S j'), lab'.
Qed.

Lemma dmask_true F L j :
  dmask F L !! j = Some true →
  ∃ j' lab, j = S j' ∧ L !! j' = Some lab ∧ is_label F lab = true.
Proof.
  destruct L as [|s0 l]; [done|]. destruct j as [|j]; [done|]. simpl.
  intros H. destruct (mask_true _ _ _ H) as (j' & lab & -> & Hl & HF).
  by exists (S j'), lab.
Qed.

Section Masks.
Context (rw : str → str).

Lemma apply_mask_lookup M L j :
  apply_mask rw M L !! j =
  (b ← M !! j; c ← L !! j; Some (if b : bool then rw c else c)).
Proof. unfold apply_mask. apply lookup_zip_with. Qed.

Lemma pass_length L F : length (pass rw L F) = length L.
Proof. unfold pass. apply apply_mask_length, dmask_length. Qed.

(** A pass leaves a cell alone or rewrites a cell behind a label. *)
Lemma pass_lookup L F j :
  pass rw L F !! j = L !! j
  ∨ ∃ c j' lab, j = S j' ∧ L !! j = Some c ∧ L !! j' = Some lab
      ∧ is_label F lab = true ∧ pass rw L F !! j = Some (rw c).
Proof.
  unfold pass. rewrite apply_mask_lookup.
  destruct (dmask F L !! j) as [b|] eqn:Eb; simpl.
  - destruct (L !! j) as [c|] eqn:Ec; simpl; [|by left].
    destruct b; [|by left]. right.
    destruct (dmask_true _ _ _ Eb) as (j' & lab & -> & Hl & HF).
    by exists c, j', lab.
  - left. apply lookup_ge_None_1 in Eb. rewrite dmask_length in Eb.
    symmetry. by apply lookup_ge_None_2.
Qed.

Lemma apply_mask_comm M M' X :
  length M = length X → length M' = length X →
  apply_mask rw M (apply_mask rw M' X) = apply_mask rw M' (apply_mask rw M X).
Proof.
  revert M M'. induction X as [|c X IH]; intros [|b M] [|b' M'] H H'; try done.
  simpl in *. f_equal; [by destruct b, b'|]. apply IH; lia.
Qed.

Lemma apply_mask_idemp M X :
  (∀ c, rw (rw c) = rw c) →
  apply_mask rw M (apply_mask rw M X) = apply_mask rw M X.
Proof.
  intros Hi. revert M. induction X as [|c X IH]; intros [|b M]; try done.
  simpl. f_equal; [destruct b; auto|apply IH].
Qed.


Lemma masked_comm M Ms X :
  length M = length X → Forall (λ M', length M' = length X) Ms →
  apply_mask rw M (masked rw Ms X) = masked rw Ms (apply_mask rw M X).
Proof.
  intros HM H. revert X HM H. induction Ms as [|M' Ms IH]; intros X HM H; [done|].
  inversion H as [|? ? HM' HMs]; subst. simpl.
  rewrite IH.
  - by rewrite apply_mask_comm.
  - by rewrite apply_mask_length.
  - rewrite apply_mask_length by done. done.
Qed.

Lemma masked_idemp Ms X :
  (∀ c, rw (rw c) = rw c) →
  Forall (λ M, length M = length X) Ms →
  masked rw Ms (masked rw Ms X) = masked rw Ms X.
Proof.
  intros Hi H. revert X H. induction Ms as [|M Ms IH]; intros X H; [done|].
  inversion H as [|? ? HM HMs]; subst. simpl.
  assert (HMs' : Forall (λ M', length M' = length (apply_mask rw M X)) Ms)
    by (by rewrite apply_mask_length).
  rewrite masked_comm by (by rewrite ?apply_mask_length).
  rewrite apply_mask_idemp by done. by apply IH.
Qed.
End Masks.

Section Kind.
Context (rw : str → str) (names : list str).

Lemma mask_kind F l l' : F ∈ names → Forall2 (kind_eq names) l l' → mask F l = mask F l'.
Proof.
  intros HF. revert l'.
  induction l as [|a|a b IH|lab cell nxt rest IH1 IH2] using row_ind; intros l' H.
  - by inversion H.
  - inversion H as [|? a' ? ? _ H']; subst. by inversion H'.
  - inversion H as [|? a' ? ? _ H']; subst.
    inversion H' as [|? b' ? ? _ H'']; subst. by inversion H''.
  - inversion H as [|? lab' ? ? [Hl _] H']; subst.
    inversion H' as [|? cell' ? ? [_ Hc] H'']; subst.
    inversion H'' as [|? nxt' ? rest' Hn Hr]; subst.
    change (mask F (lab :: cell :: nxt :: rest)) with
      (if is_label F lab && negb (is_nil cell)
       then false :: true :: false :: mask F rest
       else false :: mask F (cell :: nxt :: rest)).
    change (mask F (lab' :: cell' :: nxt' :: rest')) with
      (if is_label F lab' && negb (is_nil cell')
       then false :: true :: false :: mask F rest'
       else false :: mask F (cell' :: nxt' :: rest')).
    rewrite <- (Hl F HF), <- Hc.
    destruct (_ && _).
    + f_equal. f_equal. f_equal. by apply IH1.
    + f_equal. by apply IH2.
Qed.

Lemma dmask_kind F L L' : F ∈ names → Forall2 (kind_eq names) L L' → dmask F L = dmask F L'.
Proof.
  intros HF H. destruct H as [|s0 s0' l l' _ H]; [done|]. simpl. f_equal.
  by apply mask_kind.
Qed.

Hypothesis Hkind : ∀ G c, G ∈ names → is_label G (rw c) = is_label G c.
Hypothesis Hnil : ∀ c, is_nil (rw c) = is_nil c.

Lemma kind_apply_mask M L X :
  length M = length X →
  Forall2 (kind_eq names) L X → Forall2 (kind_eq names) L (apply_mask rw M X).
Proof.
  intros HM H. revert M HM. induction H as [|c x L X [Hc Hn] _ IH]; intros [|b M] HM;
    try done.
  simpl in *. constructor; [|apply IH; lia].
  destruct b; [|done]. split.
  - intros G HG. rewrite Hkind by done. by apply Hc.
  - by rewrite Hnil.
Qed.

Lemma kind_refl L : Forall2 (kind_eq names) L L.
Proof. induction L; constructor; [done|done]. Qed.

(** With label cells kept as they are, every pass uses the masks of
    the document it started from. *)
Lemma passes_masked ns L X :
  ns ⊆ names → Forall2 (kind_eq names) L X →
  fold_left (pass rw) ns X = masked rw (map (λ F, dmask F L) ns) X
  ∧ Forall2 (kind_eq names) L (fold_left (pass rw) ns X).
Proof.
  revert X. induction ns as [|F ns IH]; intros X Hns H; [done|].
  assert (F ∈ names) as HF by (apply Hns; by left).
  assert (ns ⊆ names) as Hns' by (intros x Hx; apply Hns; by right).
  simpl. assert (pass rw X F = apply_mask rw (dmask F L) X) as ->.
  { unfold pass. f_equal. symmetry. by apply dmask_kind. }
  apply IH; [done|]. apply kind_apply_mask; [|done].
  rewrite dmask_length. by apply Forall2_length in H.
Qed.

Hypothesis Hidem : ∀ c, rw (rw c) = rw c.

(** Running all passes a second time changes nothing. *)
Lemma passes_idemp ns L :
  ns ⊆ names →
  fold_left (pass rw) ns (fold_left (pass rw) ns L) = fold_left (pass rw) ns L.
Proof.
  intros Hns.
  destruct (passes_masked ns L L Hns (kind_refl L)) as [E1 K1].
  destruct (passes_masked ns L _ Hns K1) as [E2 _].
  rewrite E2, E1. apply masked_idemp; [done|].
  apply Forall_map, Forall_forall. intros F _. simpl. apply dmask_length.
Qed.
End Kind.

Section Frame.
Context (rw : str → str) (names : list str).
Hypothesis Hinv : ∀ G c, G ∈ names → is_label G (rw c) = true → is_label G c = true.

(** Passes change only cells that stand behind a label cell of the
    document they started from. *)
Lemma passes_frame ns L X :
  ns ⊆ names →
  length X = length L →
  (∀ j c G, G ∈ names → X !! j = Some c → is_label G c = true →
     ∃ c0, L !! j = Some c0 ∧ is_label G c0 = true) →
  (∀ j, X !! j = L !! j
     ∨ ∃ j' lab G, j = S j' ∧ L !! j' = Some lab ∧ G ∈ names ∧ is_label G lab = true) →
  let P := fold_left (pass rw) ns X in
  length P = length L
  ∧ ∀ j, P !! j = L !! j
     ∨ ∃ j' lab G, j = S j' ∧ L !! j' = Some lab ∧ G ∈ names ∧ is_label G lab = true.
Proof.
  revert X. induction ns as [|F ns IH]; intros X Hns Hlen I2 I3; [done|].
  assert (F ∈ names) as HF by (apply Hns; by left).
  assert (ns ⊆ names) as Hns' by (intros x Hx; apply Hns; by right).
  simpl. apply IH; [done| | |].
  - by rewrite pass_length.
  - intros j c G HG Hj Hc.
    destruct (pass_lookup rw X F j) as [E|(c' & j' & lab & -> & Ec & El & Hl & E)].
    + rewrite E in Hj. eauto.
    + rewrite E in Hj. injection Hj as <-. apply Hinv in Hc; [|done]. eauto.
  - intros j.
    destruct (pass_lookup rw X F j) as [E|(c' & j' & lab & -> & Ec & El & Hl & E)].
    + rewrite E. apply I3.
    + right. destruct (I2 _ _ _ HF El Hl) as (c0 & E0 & H0). by exists j', c0, F.
Qed.
End Frame.

End Rows.

Section Documents.
Import Str Re PostImportFix.

Lemma default_labels_good : Forall good_label default_field_names.
Proof.
  repeat constructor; try done;
    intros H; by repeat (apply elem_of_cons in H as [H|H]; [done|]);
      apply elem_of_nil in H.
Qed.

Lemma task_labels_good : Forall good_label [py "Requires"; py "Unlocks"].
Proof.
  repeat constructor; try done;
    intros H; by repeat (apply elem_of_cons in H as [H|H]; [done|]);
      apply elem_of_nil in H.
Qed.

Lemma cells_inj a b : cells a = cells b → a = b.
Proof.
  intros H. rewrite <- (join_split "|" a), <- (join_split "|" b).
  unfold cells in H. by rewrite H.
Qed.

Lemma none_guard_blank cell : blank cell → none_guard cell = true.
Proof. intros H. unfold none_guard. by rewrite strip_blank. Qed.

Section Resolver.
Context (m : ReferenceMapping) (ctx : option Context).
Hypothesis Hm : values_ok m.

Lemma conv_keeps_or_key t : clean t → conv m ctx t = t ∨ key_or_empty (conv m ctx t).
Proof.
  intros Hc. destruct (conv_cases m ctx t) as [E|E].
  - left. by rewrite E, clean_strip.
  - right. by eapply lookups_value.
Qed.

Lemma conv_comma t : "," ∉ t → "," ∉ conv m ctx t.
Proof.
  intros Ht. destruct (conv_cases m ctx t) as [E|E].
  - rewrite E. intros H. by apply Ht, elem_of_strip.
  - destruct (lookups_value _ _ _ _ Hm E) as [Hk|Hk].
    + by apply key_shape_notin.
    + rewrite Hk. apply not_elem_of_nil.
Qed.

Lemma rewrite_cell_nobar cell : "|" ∉ cell → "|" ∉ rewrite_cell m ctx cell.
Proof. apply rewrite_with_nobar, conv_keeps_or_key. Qed.

Lemma fold_fix_pass_cells ns content st :
  cells (fold_left (fix_pass m ctx) ns (content, st)).1 =
  fold_left (pass (rewrite_cell m ctx)) ns (cells content).
Proof.
  revert content st. induction ns as [|F ns IH]; intros content st; [done|].
  simpl. unfold fix_pass at 2. simpl.
  destruct (re_sub_field F (replace_refs F m ctx) content st) as [c' st'] eqn:E.
  rewrite IH. f_equal.
  change c' with (c', st').1. rewrite <- E.
  apply re_sub_field_cells.
  - intros lab cell st0 Hne. by rewrite replace_refs_groups.
  - apply rewrite_cell_nobar.
Qed.

Lemma fix_content_cells content names :
  cells (fix_references_in_content content m ctx names).1.1 =
  fold_left (pass (rewrite_cell m ctx)) (default default_field_names names)
            (cells content).
Proof.
  unfold fix_references_in_content.
  rewrite <- (fold_fix_pass_cells _ content {| num_fixed := 0; unresolved := [] |}).
  by destruct (fold_left _ _ _).
Qed.

Lemma subseteq_good names F :
  names ⊆ default_field_names → F ∈ names → good_label F.
Proof.
  intros Hs HF. pose proof default_labels_good as H.
  rewrite Forall_forall in H. by apply H, Hs.
Qed.

Lemma fix_frame content names :
  default default_field_names names ⊆ default_field_names →
  outside_rows_kept (default default_field_names names) content
    (fix_references_in_content content m ctx names).1.1.
Proof.
  intros Hs. unfold outside_rows_kept. rewrite fix_content_cells.
  apply (passes_frame (rewrite_cell m ctx) (default default_field_names names)).
  - intros G c HG. apply rewrite_with_label_inv; [apply conv_keeps_or_key|].
    by eapply subseteq_good.
  - done.
  - done.
  - intros j c G _ Hj Hc. eauto.
  - intros j. by left.
Qed.

Lemma unconverted_fixed F :
  clean F → (convert_reference F m ctx).2 = false → conv m ctx F = F.
Proof.
  intros Hc. unfold conv, convert_reference. rewrite (clean_strip F Hc).
  destruct (is_jira_key F); [done|]. destruct (is_none_value F); [done|].
  by destruct (first_hit _).
Qed.

Lemma fix_idempotent content names :
  default default_field_names names ⊆ default_field_names →
  (∀ F, F ∈ default default_field_names names → (convert_reference F m ctx).2 = false) →
  (fix_references_in_content
     (fix_references_in_content content m ctx names).1.1 m ctx names).1.1
  = (fix_references_in_content content m ctx names).1.1.
Proof.
  intros Hs Hl. apply cells_inj. rewrite !fix_content_cells.
  apply (passes_idemp (rewrite_cell m ctx) (default default_field_names names)).
  - intros G c HG. pose proof (subseteq_good _ _ Hs HG) as Hg.
    apply eq_true_iff_eq. split.
    + apply rewrite_with_label_inv; [apply conv_keeps_or_key|done].
    + apply rewrite_with_label; [done|].
      apply unconverted_fixed; [apply Hg|by apply Hl].
  - apply rewrite_with_nil, none_guard_blank.
  - apply rewrite_with_idemp.
    + apply none_guard_blank.
    + intros t. by apply conv_idemp.
    + intros t. by apply conv_clean.
    + apply conv_comma.
  - done.
Qed.
End Resolver.

(** *** convert_task_refs on the cells *)

Section TaskRefs.
Import ConvertAllRefs.
Context (tm : gmap (str * str) str) (dir : str).
Hypothesis Htm : map_Forall (λ _ v, key_or_empty v) tm.

Lemma task_ref_keeps_or_key t : clean t → task_ref tm dir t = t ∨ key_or_empty (task_ref tm dir t).
Proof.
  intros _. unfold task_ref. destruct (tm !! (dir, t)) eqn:E; [|by left].
  right. exact (Htm _ _ E).
Qed.


End TaskRefs.

(** *** Tokens that do not resolve *)

Lemma lower_comma s : "," ∈ s → "," ∈ lower s.
Proof.
  intros H. unfold lower. change "," with (lower_char ","). by apply list_elem_of_fmap_2.
Qed.

Lemma none_value_nocomma s : is_none_value s = true → "," ∉ s.
Proof.
  unfold is_none_value. rewrite bool_decide_eq_true. intros H Hc.
  apply lower_comma in Hc. unfold none_values in H.
  repeat (apply elem_of_cons in H as [H|H];
          [rewrite H in Hc;
           by repeat (apply elem_of_cons in Hc as [Hc|Hc]; [done|]);
             apply elem_of_nil in Hc|]).
  by apply elem_of_nil in H.
Qed.

(** A field that has a token which is no none value is no none value. *)
Lemma token_not_none refs_str i tok :
  map strip (split "," (strip refs_str)) !! i = Some tok →
  is_none_value tok = false → is_none_value (strip refs_str) = false.
Proof.
  intros Hi Ht. destruct (is_none_value (strip refs_str)) eqn:E; [|done].
  rewrite split_nosep in Hi by (by apply none_value_nocomma).
  destruct i as [|i]; [|done]. simpl in Hi. rewrite strip_idemp in Hi.
  injection Hi as <-. congruence.
Qed.

End Documents.

Section Resolution.
Import Str Re PostImportFix.

(** ** Reference resolution *)

(** C3 as the code has it: on a mapping table whose values are remote
    keys (or empty) and in which no field label is itself converted,
    rewriting the rewritten content again gives the same content; and a
    token that is shaped like a remote key is returned stripped and
    unconverted, whatever the table. *)
Theorem resolution_idempotent content m ctx field_names :
  values_ok m →
  default default_field_names field_names ⊆ default_field_names →
  (∀ F, F ∈ default default_field_names field_names →
        (convert_reference F m ctx).2 = false) →
  (fix_references_in_content
     (fix_references_in_content content m ctx field_names).1.1
     m ctx field_names).1.1
  = (fix_references_in_content content m ctx field_names).1.1
  ∧ ∀ ref m' ctx', is_jira_key ref = true →
      convert_reference ref m' ctx' = (strip ref, false).
Proof.
  intros Hm Hs Hl. split.
  - by apply fix_idempotent.
  - intros ref m' ctx' H. unfold convert_reference.
    unfold is_jira_key in *. by rewrite strip_idemp, H.
Qed.

Lemma table_S1_ok : values_ok table_S1.
Proof.
  repeat split; try apply map_Forall_empty.
  apply map_Forall_singleton. by left.
Qed.

Lemma resolution_idempotent_witness :
  (fix_references_in_content (py "| Depends On | S1 |") table_S1 ctx_X None).1.1
    = py "| Depends On | ARGUS-100 |"
  ∧ (fix_references_in_content (py "| Depends On | ARGUS-100 |") table_S1 ctx_X None).1.1
    = py "| Depends On | ARGUS-100 |".
Proof.
  pose proof (resolution_idempotent (py "| Depends On | S1 |") table_S1 ctx_X None
                table_S1_ok) as H.
  assert (E : (fix_references_in_content (py "| Depends On | S1 |") table_S1 ctx_X None).1.1
              = py "| Depends On | ARGUS-100 |") by (by vm_compute).
  rewrite E in H. split; [done|]. apply H.
  - done.
  - intros F HF. simpl in HF.
    repeat (apply elem_of_cons in HF as [->|HF]; [by vm_compute|]).
    by apply elem_of_nil in HF.
Defined.

(** C3 as stated fails: the second run changes the content again. *)
Lemma resolution_not_idempotent :
  let content := py "| Blocks | Depends On | a | Depends On | b |" in
  let once := (fix_references_in_content content table_label None None).1.1 in
  let twice := (fix_references_in_content once table_label None None).1.1 in
  values_ok table_label
  ∧ once = py "| Blocks | ARGUS-1 | a | Depends On | b |"
  ∧ twice = py "| Blocks | ARGUS-1 | a | Depends On | ARGUS-2 |"
  ∧ twice ≠ once.
Proof.
  split; [|by vm_compute].
  repeat split; try apply map_Forall_empty; apply map_Forall_singleton; by left.
Qed.

Section Unresolved.
Context (m : ReferenceMapping) (ctx : option Context).

Lemma token_clean cell i tok : tokens cell !! i = Some tok → clean tok.
Proof.
intros Hi. pose proof (tokens_clean cell) as H. rewrite Forall_lookup in H. by eapply H.
Qed.

Lemma conv_unresolved tok :
clean tok → is_jira_key tok = false → is_none_value tok = false →
first_hit (lookups tok m ctx) = None →
convert_reference tok m ctx = (tok, false).
Proof.
intros Hc Hk Hn Hl. unfold convert_reference. rewrite (clean_strip tok Hc).
by rewrite Hk, Hn, Hl.
Qed.

(** *** What the callback reports *)

Lemma cell_state_mono F cell st u :
u ∈ unresolved st → u ∈ unresolved (cell_state F m ctx cell st).
Proof.
unfold cell_state. destruct (none_guard cell); [done|]. simpl.
intros H. apply elem_of_app. by left.
Qed.

Lemma cell_state_reports F cell st i tok :
tokens cell !! i = Some tok →
is_jira_key tok = false → is_none_value tok = false →
first_hit (lookups tok m ctx) = None →
(F ++ py ": " ++ tok) ∈ unresolved (cell_state F m ctx cell st).
Proof.
intros Hi Hk Hn Hl.
pose proof (conv_unresolved tok (token_clean _ _ _ Hi) Hk Hn Hl) as Hc.
unfold cell_state, none_guard. rewrite (token_not_none cell i tok Hi Hn). simpl.
apply elem_of_app. right. apply list_elem_of_In, in_flat_map.
exists tok. split; apply list_elem_of_In.
- by eapply list_elem_of_lookup_2.
- unfold report. rewrite Hc. simpl. rewrite Hk, Hn. simpl.
  by apply list_elem_of_singleton.
Qed.

(** One substitution: nothing is taken from the list, and every
  unresolved token of a value cell of a match is entered. *)
Lemma sub_field_unresolved F l st :
(∀ u, u ∈ unresolved st →
      u ∈ unresolved (sub_field F (replace_refs F m ctx) l st).2)
∧ (∀ p cell i tok,
     mask F l !! p = Some true → l !! p = Some cell →
     tokens cell !! i = Some tok →
     is_jira_key tok = false → is_none_value tok = false →
     first_hit (lookups tok m ctx) = None →
     (F ++ py ": " ++ tok) ∈ unresolved (sub_field F (replace_refs F m ctx) l st).2).
Proof.
revert st.
induction l as [|a|a b IH|lab cell nxt rest IH1 IH2] using row_ind; intros st.
- split; [done|]. intros p ? ? ? H. by destruct p.
- split; [done|]. intros p ? ? ? H. by destruct p as [|[|p]].
- split; [done|]. intros p ? ? ? H. by destruct p as [|[|[|p]]].
- change (sub_field F (replace_refs F m ctx) (lab :: cell :: nxt :: rest) st) with
    (if is_label F lab && negb (is_nil cell)
     then let '(out, st1) := replace_refs F m ctx (field_groups lab cell) st in
          let '(tl, st2) := sub_field F (replace_refs F m ctx) rest st1 in
          (out ++ nxt ++ tl, st2)
     else let '(tl, st1) := sub_field F (replace_refs F m ctx) (cell :: nxt :: rest) st in
          ("|" :: lab ++ tl, st1)).
  change (mask F (lab :: cell :: nxt :: rest)) with
    (if is_label F lab && negb (is_nil cell)
     then false :: true :: false :: mask F rest
     else false :: mask F (cell :: nxt :: rest)).
  destruct (is_label F lab && negb (is_nil cell)) eqn:E.
  + apply andb_true_iff in E as [_ E].
    assert (cell ≠ []) as Hc by (by destruct cell).
    rewrite (replace_refs_groups m ctx F lab cell st Hc).
    destruct (IH1 (cell_state F m ctx cell st)) as [M R].
    destruct (sub_field F (replace_refs F m ctx) rest (cell_state F m ctx cell st))
      as [tl st2]. simpl in M, R. simpl. split.
    * intros u Hu. by apply M, cell_state_mono.
    * intros p c i tok Hp Hl Hi Hk Hn Hh. destruct p as [|[|[|p]]]; try done.
      -- simpl in Hl. injection Hl as <-. apply M. by eapply cell_state_reports.
      -- by apply (R p c i tok).
  + destruct (IH2 st) as [M R].
    destruct (sub_field F (replace_refs F m ctx) (cell :: nxt :: rest) st) as [tl st1].
    simpl in M, R. simpl. split; [done|].
    intros p c i tok Hp Hl Hi Hk Hn Hh. destruct p as [|p]; [done|].
    by apply (R p c i tok).
Qed.

Lemma re_sub_field_mono F content st u :
u ∈ unresolved st →
u ∈ unresolved (re_sub_field F (replace_refs F m ctx) content st).2.
Proof.
unfold re_sub_field. destruct (cells content) as [|s0 l]; [done|].
destruct (sub_field_unresolved F l st) as [M _].
destruct (sub_field F (replace_refs F m ctx) l st) as [out st']. apply M.
Qed.

Lemma re_sub_field_reports F content st j cell i tok :
value_cell F content j cell →
tokens cell !! i = Some tok →
is_jira_key tok = false → is_none_value tok = false →
first_hit (lookups tok m ctx) = None →
(F ++ py ": " ++ tok) ∈ unresolved (re_sub_field F (replace_refs F m ctx) content st).2.
Proof.
intros [Hm Hc]. unfold re_sub_field. destruct (cells content) as [|s0 l]; [done|].
simpl in Hm, Hc. destruct (sub_field_unresolved F l st) as [_ R].
destruct (sub_field F (replace_refs F m ctx) l st) as [out st'].
intros Hi Hk Hn Hl. by apply (R j cell i tok).
Qed.

Lemma fix_passes_mono ns acc u :
u ∈ unresolved acc.2 → u ∈ unresolved (fold_left (fix_pass m ctx) ns acc).2.
Proof.
revert acc. induction ns as [|F ns IH]; intros acc Hu; [done|]. simpl.
apply IH. unfold fix_pass. by apply re_sub_field_mono.
Qed.

(** *** What the rewrite keeps *)

Hypothesis Hm : values_ok m.

(** The tokens of a rewritten cell are the converted tokens. *)
Lemma tokens_rewrite_cell cell :
none_guard cell = false →
tokens (rewrite_cell m ctx cell) = map (conv m ctx) (tokens cell).
Proof.
intros Hg. unfold rewrite_cell, rewrite_with. rewrite Hg.
unfold tokens at 1. rewrite strip_rewritten, tokens_strip by done.
apply tokens_join.
- pose proof (tokens_nonempty cell). by destruct (tokens cell).
- apply converted_clean. intros t. by apply conv_clean.
- apply converted_nocomma. by apply conv_comma.
Qed.

Lemma kept_by_rewrite cell i tok :
tokens cell !! i = Some tok → conv m ctx tok = tok →
tokens (rewrite_cell m ctx cell) !! i = Some tok.
Proof.
intros Hi Hc. destruct (none_guard cell) eqn:Hg.
- unfold rewrite_cell, rewrite_with. by rewrite Hg.
- rewrite tokens_rewrite_cell by done. by rewrite list_lookup_fmap, Hi; simpl; rewrite Hc.
Qed.

(** A token that converts to itself stays at its place in its cell,
  whatever passes run over the document. *)
Lemma kept_by_passes ns X j c i tok :
X !! j = Some c → tokens c !! i = Some tok → conv m ctx tok = tok →
∃ c', fold_left (pass (rewrite_cell m ctx)) ns X !! j = Some c'
      ∧ tokens c' !! i = Some tok.
Proof.
revert X c. induction ns as [|F ns IH]; intros X c Hj Hi Hc; [by exists c|].
simpl.
destruct (pass_lookup (rewrite_cell m ctx) X F j)
  as [E|(c0 & j' & lab & -> & Ec & _ & _ & E)].
- apply (IH _ c); [by rewrite E|done|done].
- rewrite Hj in Ec. injection Ec as <-.
  apply (IH _ (rewrite_cell m ctx c)); [done| |done]. by apply kept_by_rewrite.
Qed.

Lemma fix_pass_cells F content st :
cells (fix_pass m ctx (content, st) F).1 = pass (rewrite_cell m ctx) (cells content) F.
Proof.
unfold fix_pass. simpl. apply re_sub_field_cells.
- intros lab cell st0 Hne. by rewrite replace_refs_groups.
- by apply rewrite_cell_nobar.
Qed.

(** *** The passes of a document *)

Lemma fix_result content field_names :
fix_references_in_content content m ctx field_names
= let acc := fold_left (fix_pass m ctx) (default default_field_names field_names)
                       (content, {| num_fixed := 0; unresolved := [] |}) in
  (acc.1, num_fixed acc.2, unresolved acc.2).
Proof. unfold fix_references_in_content. by destruct (fold_left _ _ _). Qed.

Lemma passes_split before F after content st :
fold_left (fix_pass m ctx) (before ++ F :: after) (content, st)
= fold_left (fix_pass m ctx) after
    (fix_pass m ctx (fold_left (fix_pass m ctx) before (content, st)) F).
Proof. by rewrite fold_left_app. Qed.

(** The token is reported by the pass of its field, and stays in the
  list. *)
Lemma reported_at_pass content before F after j cell i tok :
value_cell F (content_before m ctx before content) j cell →
tokens cell !! i = Some tok →
is_jira_key tok = false → is_none_value tok = false →
first_hit (lookups tok m ctx) = None →
(F ++ py ": " ++ tok)
∈ unresolved (fold_left (fix_pass m ctx) (before ++ F :: after)
                (content, {| num_fixed := 0; unresolved := [] |})).2.
Proof.
intros Hv Hi Hk Hn Hl. rewrite passes_split. apply fix_passes_mono.
unfold fix_pass. simpl. by eapply re_sub_field_reports.
Qed.

(** The token stays in its cell in the pass of its field and in the
  passes behind it. *)
Lemma kept_at_pass content before F after j cell i tok :
value_cell F (content_before m ctx before content) j cell →
tokens cell !! i = Some tok → conv m ctx tok = tok →
∃ cell',
  cells (fold_left (fix_pass m ctx) (before ++ F :: after)
           (content, {| num_fixed := 0; unresolved := [] |})).1 !! S j = Some cell'
  ∧ tokens cell' !! i = Some tok.
Proof.
intros [Hmask Hcell] Hi Hc. rewrite passes_split. unfold content_before in *.
destruct (fold_left (fix_pass m ctx) before _) as [seen st1]. simpl in Hmask, Hcell.
pose proof (fix_pass_cells F seen st1) as Hp.
destruct (fix_pass m ctx (seen, st1) F) as [c2 st2]. simpl in Hp.
rewrite (fold_fix_pass_cells m ctx Hm), Hp.
apply (kept_by_passes after _ (S j) (rewrite_cell m ctx cell)).
- unfold pass. by rewrite apply_mask_lookup, Hmask, Hcell.
- by apply kept_by_rewrite.
- done.
Qed.

(** When no field name is converted by the tables, the passes in
  front of the pass of a field leave its rows where they are in
  the document. *)
Lemma rows_before content before F j cell i tok :
F :: before ⊆ default_field_names →
(∀ G, G ∈ F :: before → (convert_reference G m ctx).2 = false) →
value_cell F content j cell →
tokens cell !! i = Some tok → conv m ctx tok = tok →
∃ cell', value_cell F (content_before m ctx before content) j cell'
         ∧ tokens cell' !! i = Some tok.
Proof.
intros Hs Hl [Hmask Hcell] Hi Hc. unfold content_before, value_cell.
rewrite (fold_fix_pass_cells m ctx Hm).
destruct (passes_masked (rewrite_cell m ctx) (F :: before)) with
  (ns := before) (L := cells content) (X := cells content) as [_ K].
- intros G c HG. pose proof (subseteq_good _ _ Hs HG) as Hg.
  apply eq_true_iff_eq. split.
  + apply rewrite_with_label_inv; [by apply conv_keeps_or_key|done].
  + apply rewrite_with_label; [done|].
    apply unconverted_fixed; [apply Hg|by apply Hl].
- apply rewrite_with_nil, none_guard_blank.
- intros G HG. by right.
- apply kind_refl.
- rewrite <- (dmask_kind (F :: before) F _ _ ltac:(by left) K), Hmask.
  destruct (kept_by_passes before (cells content) (S j) cell i tok Hcell Hi Hc)
    as (c' & Hc' & Ht).
  by exists c'.
Qed.

End Unresolved.


(** The rows of the document itself.  A pass can rewrite the label
    cell of a row of a later field, when this label stands as a value
    behind the label of an earlier field and the tables convert it;
    the later pass then finds no row, and looks no token of it up.
    When no name of the list is converted by the tables this does not
    happen: every token that does not resolve, of every row that the
    pattern of a field of the list matches in the document, is kept
    at its place and reported. *)
Lemma unresolved_token_of_document content m ctx field_names F j cell i tok :
  values_ok m →
  default default_field_names field_names ⊆ default_field_names →
  (∀ G, G ∈ default default_field_names field_names →
        (convert_reference G m ctx).2 = false) →
  F ∈ default default_field_names field_names →
  value_cell F content j cell →
  tokens cell !! i = Some tok →
  is_jira_key tok = false →
  is_none_value tok = false →
  first_hit (lookups tok m ctx) = None →
  let out := fix_references_in_content content m ctx field_names in
  (∃ cell', cells out.1.1 !! S j = Some cell' ∧ tokens cell' !! i = Some tok)
  ∧ (F ++ py ": " ++ tok) ∈ out.2.
Proof.
  intros Hm Hs Hu HF Hv Hi Hk Hn Hl out.
  pose proof (conv_unresolved m ctx tok (token_clean _ _ _ Hi) Hk Hn Hl) as Hc.
  assert (conv m ctx tok = tok) as Hconv by (unfold conv; by rewrite Hc).
  apply list_elem_of_split in HF as (before & after & Hnames).
  assert (F :: before ⊆ default default_field_names field_names) as Hin.
  { rewrite Hnames. intros G HG. apply elem_of_cons in HG as [->|HG].
    - apply elem_of_app. right. by left.
    - apply elem_of_app. by left. }
  destruct (rows_before m ctx Hm content before F j cell i tok) as (c' & Hv' & Hi');
    try done.
  { intros G HG. by apply Hs, Hin. }
  { intros G HG. by apply Hu, Hin. }
  unfold out. rewrite fix_result, Hnames. cbv zeta. simpl. split.
  - by apply (kept_at_pass m ctx Hm content before F after j c' i tok).
  - by apply (reported_at_pass m ctx content before F after j c' i tok).
Qed.


(** The none values pass through [replace_refs]: the match is
    returned as it is and nothing is reported. *)
Lemma none_field_unchanged F m ctx prefix refs_str suffix st :
  is_none_value (strip refs_str) = true →
  replace_refs F m ctx (prefix, refs_str, suffix) st = (prefix ++ refs_str ++ suffix, st).
Proof. intros H. unfold replace_refs. by rewrite H. Qed.

(** C8 at its failing input: [convert_story_refs] has no test for the
    none values; a field that holds only [-] in a padded cell loses its
    padding, while [fix_references_in_content] and [convert_task_refs]
    return the same content. *)
Theorem convert_story_refs_rewrites_none_field :
  let content := py "| Depends On | -   |" in
  ConvertAllRefs.convert_story_refs content ∅ = py "| Depends On | - |"
  ∧ ConvertAllRefs.convert_story_refs content ∅ ≠ content
  ∧ (fix_references_in_content content table_S1 ctx_X None).1.1 = content
  ∧ ConvertAllRefs.convert_task_refs (py "| Requires | -   |") ∅ (py "01-a")
    = py "| Requires | -   |".
Proof. by vm_compute. Qed.



Example story_doc_resolved :
  (fix_references_in_content story_doc table_S1 ctx_X None).1.1 =
  py "# AUTH-001-2: Login
| Field | Value |
| Depends On | ARGUS-100 |
| JIRA Key | ARGUS-101 |
Body, with  spaces | and a bar
".
Proof. by vm_compute. Qed.

End Resolution.

Section StoryMap.
Import Str Re PostImportFix.
Import Corpus ConvertAllRefs.

(** C1 at its failing input: both epics have a story 1; the map is
    keyed by the bare number, the second epic overwrites the first,
    and the reference [S1] in the first epic becomes the key of the
    story of the second. *)
Theorem story_map_conflates_epics :
  let story_map := build_story_jira_map two_epics in
  extract_jira_key story_A1 = Some (py "ARGUS-11")
  ∧ extract_jira_key story_B1 = Some (py "ARGUS-21")
  ∧ story_map !! py "1" = Some (py "ARGUS-21")
  ∧ story_map !! py "S1" = Some (py "ARGUS-21")
  ∧ convert_story_refs story_A2 story_map =
    py "# AUTH-001-2: Logout
| JIRA Key | ARGUS-12 |
| Depends On | ARGUS-21 |
".
Proof. by vm_compute. Qed.

End StoryMap.

Section Transport.
Import Str Re.
Import SyncComprehensive.

(** ** Writing a minted key into a document *)


Lemma sub_jira_key_no_row k l :
  Forall (λ lab, is_label (py "JIRA Key") lab = false) l →
  sub_jira_key k l = bars l.
Proof.
  induction l as [|a|a b IH|lab cell nxt rest IH1 IH2] using row_ind; intros H.
  - done.
  - unfold bars. simpl. by rewrite !app_nil_r.
  - unfold bars. simpl. by rewrite !app_nil_r.
  - inversion H as [|? ? Hl H']; subst.
    change (sub_jira_key k (lab :: cell :: nxt :: rest)) with
      (if is_label (py "JIRA Key") lab
       then "|" :: lab ++ "|" :: " " :: k ++ " " :: "|" :: nxt ++ sub_jira_key k rest
       else "|" :: lab ++ sub_jira_key k (cell :: nxt :: rest)).
    rewrite Hl, IH2 by done. done.
Qed.

Lemma re_sub_jira_key_no_row k content :
  Forall (λ lab, is_label (py "JIRA Key") lab = false) (cells content) →
  re_sub_jira_key k content = content.
Proof.
  intros H. unfold re_sub_jira_key.
  destruct (cells content) as [|s0 l] eqn:E; [done|].
  inversion H; subst. rewrite sub_jira_key_no_row by done.
  rewrite <- join_bars, <- E. apply join_split.
Qed.

(** C9: on an existing file, and for a key without a backslash (the
    key is part of the replacement template of [re.sub], which takes
    such a key literally), [update_jira_key_in_file] does not raise;
    it returns [True] exactly when it wrote a content that differs,
    and touches no other file; a file without a cell [JIRA Key] stays
    as it is and the result is [False]; and the caller's error count
    does not depend on the result. *)
Theorem update_jira_key_result (fs : FS) file_path jira_key content :
  fs !! file_path = Some content →
  "092" ∉ jira_key →
  (∃ fs' b,
      update_jira_key_in_file fs file_path jira_key = Return (fs', b)
      ∧ (b = true ↔ fs' !! file_path ≠ Some content)
      ∧ (b = false → fs' = fs)
      ∧ ∀ p, p ≠ file_path → fs' !! p = fs !! p)
  ∧ (Forall (λ lab, is_label (py "JIRA Key") lab = false) (cells content) →
     update_jira_key_in_file fs file_path jira_key = Return (fs, false))
  ∧ ∀ k ev local_id j w,
      SyncComprehensive.fs w = fs →
      errors (stats (created k ev local_id file_path jira_key j w)) = errors (stats w).
Proof.
  intros Hf _. split; [|split].
  - unfold update_jira_key_in_file. rewrite Hf.
    case_bool_decide as Hne.
    + eexists _, true. split; [done|]. split; [|split].
      * rewrite lookup_insert_eq. split; [intros _; congruence|done].
      * done.
      * intros p Hp. by rewrite lookup_insert_ne.
    + eexists _, false. split; [done|]. split; [|split].
      * split; [done|]. intros H. by destruct H.
      * done.
      * done.
  - intros H. unfold update_jira_key_in_file. rewrite Hf.
    rewrite re_sub_jira_key_no_row by done. by rewrite bool_decide_false by auto.
  - intros k ev local_id j w <-. unfold created.
    assert (SyncComprehensive.fs
              (bump_created k {| jira := j; fs := SyncComprehensive.fs w;
                                 state := set_key k local_id jira_key (state w);
                                 stats := stats w; log := log w ++ [ev] |})
            = SyncComprehensive.fs w) as -> by done.
    unfold update_jira_key_in_file. rewrite Hf.
    case_bool_decide; by destruct k.
Qed.

Lemma update_jira_key_result_witness :
  update_jira_key_in_file {[ py "README.md" := readme_without_row ]}
      (py "README.md") (py "ARGUS-7")
    = Return ({[ py "README.md" := readme_without_row ]}, false).
Proof.
  destruct (update_jira_key_result {[ py "README.md" := readme_without_row ]}
              (py "README.md") (py "ARGUS-7") readme_without_row) as (_ & H & _).
  - by vm_compute.
  - by apply (bool_decide_unpack _).
  - apply H. by repeat constructor.
Defined.

Example update_jira_key_rows :
  re_sub_jira_key (py "A-1") (py "| JIRA Key || x | JIRA Key | y |")
    = py "| JIRA Key | A-1 | x | JIRA Key | A-1 |"
  ∧ re_sub_jira_key (py "A-1") (py "a | JIRA Key | old | JIRA Key | z |
| JIRA Key |")
    = py "a | JIRA Key | A-1 | JIRA Key | z |
| JIRA Key |".
Proof. by vm_compute. Qed.

Lemma request_limited_from fuel n sent retries :
  (sent ≤ n)%nat → (n - sent < fuel)%nat →
  _request fuel (limited n) sent retries = (Some (Return (py "{}")), S n).
Proof.
  revert sent. induction fuel as [|fuel IH]; intros sent Hs Hf; [lia|].
  cbn [_request]. unfold limited at 1.
  destruct (Nat.ltb_spec sent n) as [Hlt|Hge].
  - cbn [Nat.eqb]. replace (429 =? 429)%nat with true by done.
    rewrite IH by lia. done.
  - assert (sent = n) as -> by lia. done.
Qed.

(** C5 at its failing input: a reply 429 does not count as a retry.
    Against a tracker that limits the rate [n] times and then answers,
    one call sends [n + 1] requests, for every [n]; against one that
    always answers 429 the call never returns. *)
Theorem rate_limit_retries_unbounded :
  (∀ n, _request (S n) (limited n) 0 0 = (Some (Return (py "{}")), S n))
  ∧ (∀ fuel, _request fuel always_429 0 0 = (None, fuel))
  ∧ (MAX_RETRIES < (_request 101 (limited 100) 0 0).2)%nat.
Proof.
  split; [|split].
  - intros n. apply request_limited_from; lia.
  - intros fuel.
    assert (∀ sent r, _request fuel always_429 sent r = (None, (sent + fuel)%nat)) as H.
    { induction fuel as [|fuel IH]; intros sent r.
      - simpl. f_equal. lia.
      - cbn [_request]. unfold always_429 at 1.
        replace (429 =? 429)%nat with true by done. rewrite IH. f_equal. lia. }
    apply H.
  - rewrite request_limited_from by lia. unfold MAX_RETRIES. simpl. lia.
Qed.

(** Server errors and timeouts are counted, but a timeout raised by a
    retry that started inside the [try] is caught again by the caller:
    one call can send more than [MAX_RETRIES + 1] requests. *)
Example nested_retries :
  let server := λ i : nat,
    if (i <? 3)%nat then Status 500 [] else TimeoutExc in
  _request 20 server 0 0 = (Some (Raise Timeout), 10).
Proof. by vm_compute. Qed.

Example nested_retries_2 :
  _request 20 (λ i : nat, match i with 0 => Status 500 [] | _ => TimeoutExc end) 0 0
  = (Some (Raise Timeout), 7).
Proof. by vm_compute. Qed.

End Transport.

Section Links.
Import Str Re PostImportFix.

(** ** Dependency links *)

Lemma attempts_client n a c :
  enabled (attempts n a c).2 = enabled c
  ∧ server (attempts n a c).2 = server c
  ∧ calls (attempts n a c).2 = calls c.
Proof.
  revert a c. induction n as [|n IH]; intros a c; [done|]. simpl.
  destruct (server c (sent c)) as [st links| |]; [| |done].
  - destruct (st <? 400)%nat; [done|]. destruct (st =? 429)%nat; [|done].
    destruct (IH (S a) (exchanged c)) as (-> & -> & ->). done.
  - destruct (a <? 2)%nat; [|done].
    destruct (IH (S a) (exchanged c)) as (-> & -> & ->). done.
Qed.

Lemma request_client c what :
  enabled c = true →
  enabled (request c what).2 = true
  ∧ server (request c what).2 = server c
  ∧ calls (request c what).2 = calls c ++ [what].
Proof.
  intros He. unfold request. rewrite He. cbn [negb].
  destruct (attempts_client 3 0 (called what c)) as (-> & -> & ->). done.
Qed.

Lemma create_link_client c f t :
  enabled c = true →
  enabled (create_link c f t).2 = true
  ∧ calls (create_link c f t).2 = calls c ++ [PostLink f t].
Proof.
  intros He. unfold create_link. rewrite He. cbn [negb].
  destruct (request_client c (PostLink f t) He) as (H1 & _ & H2).
  by destruct (request c (PostLink f t)) as [[?|?] c'].
Qed.

Lemma create_link_returns c f t : ∃ b, (create_link c f t).1 = Return b.
Proof.
  unfold create_link. destruct (negb (enabled c)); [by exists true|].
  destruct (request c (PostLink f t)) as [[?|?] c']; eauto.
Qed.

Lemma get_existing_links_client c k :
  enabled c = true →
  ∃ existing, (get_existing_links c k).1 = Return existing
    ∧ enabled (get_existing_links c k).2 = true
    ∧ calls (get_existing_links c k).2 = calls c ++ [GetLinks k].
Proof.
  intros He. unfold get_existing_links. rewrite He. cbn [negb].
  destruct (request_client c (GetLinks k) He) as (H1 & _ & H2).
  destruct (request c (GetLinks k)) as [[[links|]|?] c']; eauto.
Qed.

Lemma link_ref_step src existing st ref :
  enabled st.1 = true →
  enabled (link_ref src existing false st ref).1 = true
  ∧ (calls (link_ref src existing false st ref).1 = calls st.1
     ∨ calls (link_ref src existing false st ref).1
         = calls st.1 ++ [PostLink src (strip ref)]
       ∧ is_jira_key (strip ref) = true ∧ strip ref ∉ existing).
Proof.
  intros He. unfold link_ref.
  destruct (is_jira_key (strip ref)) eqn:Ek; [|by auto].
  case_bool_decide as Hin; [|by auto]. cbn [andb negb].
  destruct (create_link_client st.1 src (strip ref) He) as (He' & Hc).
  destruct (create_link st.1 src (strip ref)) as [[[|]|?] c']; simpl in *; auto.
Qed.

(** The loop over the tokens only posts links to keys that are not
    among the fetched ones. *)
Lemma link_refs_calls src existing refs st :
  enabled st.1 = true →
  ∃ targets,
    enabled (fold_left (link_ref src existing false) refs st).1 = true
    ∧ calls (fold_left (link_ref src existing false) refs st).1
      = calls st.1 ++ map (PostLink src) targets
    ∧ Forall (λ t, is_jira_key t = true ∧ t ∉ existing) targets.
Proof.
  revert st. induction refs as [|ref refs IH]; intros st He.
  - exists []. simpl. by rewrite app_nil_r.
  - cbn [fold_left].
    destruct (link_ref_step src existing st ref He) as (He' & Hc).
    destruct (IH _ He') as (targets & H1 & H2 & H3).
    destruct Hc as [Hc|(Hc & Hk & Hin)].
    + exists targets. by rewrite H2, Hc.
    + exists (strip ref :: targets). rewrite H2, Hc, <- app_assoc.
      split; [done|]. split; [done|]. by constructor.
Qed.

(** The links of one file: one fetch of the links of the source, then
    posts to keys that were not fetched. *)
Lemma link_entity_calls field content c n :
  enabled c = true → extract_jira_key content ≠ [] →
  ∃ existing targets,
    (get_existing_links c (extract_jira_key content)).1 = Return existing
    ∧ calls (link_entity field content false (c, n)).1
      = calls c ++ GetLinks (extract_jira_key content)
                   :: map (PostLink (extract_jira_key content)) targets
    ∧ Forall (λ t, is_jira_key t = true ∧ t ∉ existing) targets.
Proof.
  intros He Hsrc. unfold link_entity.
  destruct (extract_jira_key content) as [|k0 k] eqn:Ek; [done|].
  cbn [negb fst snd].
  destruct (get_existing_links_client c (k0 :: k) He) as (existing & Hg & He' & Hc).
  destruct (get_existing_links c (k0 :: k)) as [[ex|?] c'] eqn:Eg; [|done].
  simpl in Hg, He', Hc. injection Hg as ->. exists existing.
  destruct (search_field field (tail (cells content))) as [[[p g] sfx]|].
  - case_bool_decide.
    + exists []. simpl. by rewrite Hc.
    + destruct (link_refs_calls (k0 :: k) existing (split "," (strip g)) (c', n) He')
        as (targets & _ & H2 & H3).
      exists targets. rewrite H2. simpl. rewrite Hc, <- app_assoc. done.
  - exists []. simpl. by rewrite Hc.
Qed.

(** C6 as stated fails: with a disabled client [create_link] answers
    [True] and has sent nothing. *)
Lemma create_link_disabled_reports_true :
  create_link disabled_client (py "ARGUS-1") (py "ARGUS-2")
    = (Return true, disabled_client)
  ∧ calls (create_link disabled_client (py "ARGUS-1") (py "ARGUS-2")).2 = [].
Proof. done. Qed.

(** C6 as the code has it: [create_link] never raises; with an enabled
    client it returns [False] when the request raises and [True] when
    the request returns a response; with a disabled client it sends
    nothing and returns [True]; and for one file [create_missing_links]
    fetches the links of the source once, before any post, and posts
    only to key-shaped targets that were not among the fetched. *)
Theorem link_creation_create_or_skip :
  (∀ c f t, ∃ b, (create_link c f t).1 = Return b)
  ∧ (∀ c f t e, enabled c = true →
       (request c (PostLink f t)).1 = Raise e → (create_link c f t).1 = Return false)
  ∧ (∀ c f t body, enabled c = true →
       (request c (PostLink f t)).1 = Return (Some body) →
       (create_link c f t).1 = Return true)
  ∧ (∀ c f t, enabled c = false → create_link c f t = (Return true, c))
  ∧ (∀ field content c n,
       enabled c = true → extract_jira_key content ≠ [] →
       ∃ existing targets,
         (get_existing_links c (extract_jira_key content)).1 = Return existing
         ∧ calls (link_entity field content false (c, n)).1
           = calls c ++ GetLinks (extract_jira_key content)
                        :: map (PostLink (extract_jira_key content)) targets
         ∧ Forall (λ t, is_jira_key t = true ∧ t ∉ existing) targets).
Proof.
  split; [apply create_link_returns|]. split; [|split; [|split]].
  - intros c f t e He H. unfold create_link. rewrite He. cbn [negb].
    destruct (request c (PostLink f t)) as [[?|?] c']; by simpl in *.
  - intros c f t body He H. unfold create_link. rewrite He. cbn [negb].
    destruct (request c (PostLink f t)) as [[?|?] c']; by simpl in *.
  - intros c f t He. unfold create_link. by rewrite He.
  - apply link_entity_calls.
Qed.

Lemma link_creation_create_or_skip_witness :
  ∃ existing targets,
    (get_existing_links linked_client (extract_jira_key story_with_links)).1
      = Return existing
    ∧ calls (link_entity (py "Blocks") story_with_links false (linked_client, 0)).1
      = calls linked_client ++ GetLinks (extract_jira_key story_with_links)
          :: map (PostLink (extract_jira_key story_with_links)) targets
    ∧ Forall (λ t, is_jira_key t = true ∧ t ∉ existing) targets.
Proof.
  destruct link_creation_create_or_skip as (_ & _ & _ & _ & H).
  apply (H (py "Blocks") story_with_links linked_client 0); by vm_compute.
Defined.

Example link_entity_skips_existing :
  calls (link_entity (py "Blocks") story_with_links false (linked_client, 0)).1
    = [GetLinks (py "ARGUS-11"); PostLink (py "ARGUS-11") (py "ARGUS-13")]
  ∧ (link_entity (py "Blocks") story_with_links false (linked_client, 0)).2 = 1.
Proof. by vm_compute. Qed.

(** Three replies 429 end the loop of [request] without a result:
    [create_link] then answers [True] although no link was made. *)
Example create_link_after_rate_limit :
  let c := {| enabled := true; server := λ _, Status 429 []; sent := 0; calls := [] |} in
  (request c (PostLink (py "ARGUS-1") (py "ARGUS-2"))).1 = Return None
  ∧ (create_link c (py "ARGUS-1") (py "ARGUS-2")).1 = Return true
  ∧ sent (create_link c (py "ARGUS-1") (py "ARGUS-2")).2 = 3.
Proof. by vm_compute. Qed.

End Links.

Section Creation.
Import Str Re Remote SyncComprehensive.


Lemma for_each_inv {A} (P : World → Prop) (f : World → A → World * A) l w :
  (∀ w x, P w → P (f w x).1) → P w → P (for_each f w l).1.
Proof.
  intros Hf. revert w. induction l as [|x l IH]; intros w Hw; [done|].
  simpl. specialize (Hf w x Hw). destruct (f w x) as [w1 x1]. simpl in Hf.
  specialize (IH w1 Hf). by destruct (for_each f w1 l).
Qed.









Example sync_run_1 :
  log (sync_to_jira [epic_1] (world_1 []) false false false).1
  = [ CreatedEpic (py "EPIC-AUTH-001") (py "ARGUS-1");
      CreatedStory (py "AUTH-001-1") (py "ARGUS-2") (py "ARGUS-1");
      CreatedTask (py "AUTH-001-1-T1") (py "ARGUS-3") (py "ARGUS-2") ]
  ∧ fs (sync_to_jira [epic_1] (world_1 []) false false false).1 !! py "task-01.md"
    = Some (py "# AUTH-001-1-T1: Form
| JIRA Key | ARGUS-3 |
").
Proof. by vm_compute. Qed.


End Creation.

Section Rerun.
Import Str Re Remote.

Section BulkRerun.
Import BulkSync.
Context (matches : str → str → bool).
(** The text search finds an issue by the front of its summary. *)
Hypothesis Hmatch : ∀ local_id title,
  matches (local_id ++ py ":") (local_id ++ py ": " ++ title) = true.

Lemma with_jira_same s : with_jira (jira s) s = s.
Proof. by destruct s. Qed.

Lemma next_fault_none j : faults j = [] → next_fault j = (false, j).
Proof. intros H. unfold next_fault. by rewrite H. Qed.

Lemma head_filter_elem (P : Issue → Prop) `{∀ x, Decision (P x)} l x :
  x ∈ l → P x → ∃ y, head (filter P l) = Some y.
Proof.
  intros Hin HP. assert (x ∈ filter P l) as Hf by (by apply list_elem_of_filter).
  destruct (filter P l); [by apply elem_of_nil in Hf|eauto].
Qed.

Lemma search_found s ty local_id :
  faults (jira s) = [] → has matches ty local_id (jira s) →
  ∃ i, _search_issue matches s (local_id ++ py ":") ty = (Some i, s).
Proof.
  intros Hf (i & Hi & Hm & Ht). unfold _search_issue.
  rewrite next_fault_none by done. rewrite with_jira_same. cbv beta iota.
  destruct (head_filter_elem
              (λ i, matches (local_id ++ py ":") (summary i) = true ∧ issuetype i = ty)
              (issues (jira s)) i Hi (conj Hm Ht)) as (y & ->).
  eauto.
Qed.

Lemma search_reliable s summ ty :
  faults (jira s) = [] →
  ∃ o, _search_issue matches s summ ty = (o, s).
Proof.
  intros Hf. unfold _search_issue. rewrite next_fault_none by done.
  rewrite with_jira_same. eauto.
Qed.

Lemma create_reliable s ty local_id title :
  faults (jira s) = [] →
  ∃ k s', _create s ty local_id title = (Some k, s')
    ∧ faults (jira s') = []
    ∧ issues (jira s')
      = issues (jira s) ++ [{| key := k; issuetype := ty;
                               summary := local_id ++ py ": " ++ title;
                               parent := None |}]
    ∧ items s' = items s.
Proof.
  intros Hf. unfold _create, post_issue. rewrite next_fault_none by done.
  eexists _, _. split; [done|]. simpl. by rewrite Hf.
Qed.

Lemma has_mono ty local_id j j' extra :
  issues j' = issues j ++ extra → has matches ty local_id j → has matches ty local_id j'.
Proof.
  intros E (i & Hi & H). exists i. split; [|done]. rewrite E.
  apply elem_of_app. by left.
Qed.

(** What a pass over one story leaves behind on a reliable tracker. *)
Lemma sync_story_first acc story :
  faults (jira acc.1) = [] →
  faults (jira (sync_story matches acc story).1) = []
  ∧ (∃ extra, issues (jira (sync_story matches acc story).1)
              = issues (jira acc.1) ++ extra)
  ∧ has matches (py "Story") (story_data_id story) (jira (sync_story matches acc story).1).
Proof.
  destruct acc as [s n]. cbn [fst]. intros Hf. unfold sync_story.
  destruct (search_reliable s (story_data_id story ++ py ":") (py "Story") Hf)
    as (o & Hs).
  pose proof Hs as Hs'. rewrite Hs. destruct o as [i|].
  - simpl. split; [done|]. split; [exists []; by rewrite app_nil_r|].
    unfold _search_issue in Hs'. rewrite next_fault_none in Hs' by done.
    injection Hs' as Hh _.
    apply head_Some_elem_of, list_elem_of_filter in Hh as [[Hm Ht] Hi].
    by exists i.
  - destruct (create_reliable s (py "Story") (story_data_id story)
                (story_data_title story) Hf) as (k & s' & -> & Hf' & Hi & _).
    simpl. split; [done|]. split; [eauto|].
    exists {| key := k; issuetype := py "Story";
              summary := story_data_id story ++ py ": " ++ story_data_title story;
              parent := None |}.
    split; [|split]; [| |done].
    + rewrite Hi. apply elem_of_app. right. by apply list_elem_of_singleton.
    + apply Hmatch.
Qed.

Lemma sync_stories_first stories acc :
  faults (jira acc.1) = [] →
  faults (jira (fold_left (sync_story matches) stories acc).1) = []
  ∧ (∃ extra, issues (jira (fold_left (sync_story matches) stories acc).1)
              = issues (jira acc.1) ++ extra)
  ∧ ∀ story, story ∈ stories →
      has matches (py "Story") (story_data_id story)
          (jira (fold_left (sync_story matches) stories acc).1).
Proof.
  revert acc. induction stories as [|st stories IH]; intros acc Hf.
  - simpl. split; [done|]. split; [exists []; by rewrite app_nil_r|].
    intros story H. by apply elem_of_nil in H.
  - cbn [fold_left]. destruct (sync_story_first acc st Hf) as (Hf1 & (e1 & He1) & Hh1).
    destruct (IH _ Hf1) as (Hf2 & (e2 & He2) & Hh2).
    split; [done|]. split.
    + exists (e1 ++ e2). by rewrite He2, He1, app_assoc.
    + intros story Hin. apply elem_of_cons in Hin as [->|Hin]; [|by apply Hh2].
      by eapply has_mono.
Qed.

(** A pass over stories that the tracker already has creates none. *)
Lemma sync_stories_again stories acc :
  faults (jira acc.1) = [] →
  (∀ story, story ∈ stories → has matches (py "Story") (story_data_id story) (jira acc.1)) →
  jira (fold_left (sync_story matches) stories acc).1 = jira acc.1.
Proof.
  revert acc. induction stories as [|st stories IH]; intros acc Hf Hh; [done|].
  cbn [fold_left].
  assert (jira (sync_story matches acc st).1 = jira acc.1) as E.
  { destruct acc as [s n]. cbn [fst] in *. unfold sync_story.
    destruct (search_found s (py "Story") (story_data_id st) Hf) as (i & ->); [|done].
    apply Hh. by left. }
  rewrite IH; [done|by rewrite E|].
  intros story Hin. rewrite E. apply Hh. by right.
Qed.

Lemma sync_epic_first s epic_data stories :
  faults (jira s) = [] →
  faults (jira (sync_epic matches s epic_data stories).1) = []
  ∧ has matches (py "Epic") (epic_data_id epic_data) (jira (sync_epic matches s epic_data stories).1)
  ∧ ∀ story, story ∈ stories →
      has matches (py "Story") (story_data_id story)
          (jira (sync_epic matches s epic_data stories).1).
Proof.
  intros Hf. unfold sync_epic.
  destruct (search_reliable s (epic_data_id epic_data ++ py ":") (py "Epic") Hf)
    as (o & Hs).
  pose proof Hs as Hs'. rewrite Hs. destruct o as [i|].
  - destruct (sync_stories_first stories
                (note_skipped (epic_data_id epic_data) (key i) s, zero) Hf)
      as (Hf' & (e & He) & Hh).
    split; [done|]. split; [|done].
    unfold _search_issue in Hs'. rewrite next_fault_none in Hs' by done.
    injection Hs' as Hh' _.
    apply head_Some_elem_of, list_elem_of_filter in Hh' as [[Hm Ht] Hi].
    eapply has_mono; [exact He|]. by exists i.
  - destruct (create_reliable s (py "Epic") (epic_data_id epic_data)
                (epic_data_title epic_data) Hf) as (k & s1 & -> & Hf1 & Hi & _).
    destruct (sync_stories_first stories
                (note_created (py "Epic") (epic_data_id epic_data) k s1, zero) Hf1)
      as (Hf' & (e & He) & Hh).
    split; [done|]. split; [|done].
    eapply has_mono; [exact He|]. simpl.
    exists {| key := k; issuetype := py "Epic";
              summary := epic_data_id epic_data ++ py ": " ++ epic_data_title epic_data;
              parent := None |}.
    split; [|split]; [| |done].
    + rewrite Hi. apply elem_of_app. right. by apply list_elem_of_singleton.
    + apply Hmatch.
Qed.

Lemma sync_epic_again s epic_data stories :
  faults (jira s) = [] →
  has matches (py "Epic") (epic_data_id epic_data) (jira s) →
  (∀ story, story ∈ stories → has matches (py "Story") (story_data_id story) (jira s)) →
  jira (sync_epic matches s epic_data stories).1 = jira s.
Proof.
  intros Hf He Hh. unfold sync_epic.
  destruct (search_found s (py "Epic") (epic_data_id epic_data) Hf He) as (i & ->).
  by rewrite sync_stories_again.
Qed.

(** On a tracker that answers every request, a second run of
    [sync_epic] creates nothing. *)
Lemma sync_epic_rerun s epic_data stories :
  faults (jira s) = [] →
  jira (sync_epic matches (sync_epic matches s epic_data stories).1
          epic_data stories).1
  = jira (sync_epic matches s epic_data stories).1.
Proof.
  intros Hf.
  destruct (sync_epic_first s epic_data stories Hf) as (Hf1 & He & Hh).
  by apply sync_epic_again.
Qed.

(** When the search returns an issue, its key is taken and no
    create request is sent. *)
Lemma sync_story_reuses s n story i s' :
  _search_issue matches s (story_data_id story ++ py ":") (py "Story") = (Some i, s') →
  issues (jira (sync_story matches (s, n) story).1) = issues (jira s)
  ∧ items (sync_story matches (s, n) story).1 = items s.
Proof.
  intros H. unfold sync_story. rewrite H. simpl.
  unfold _search_issue, next_fault in H.
  destruct (faults (jira s)) as [|[|] r]; simplify_eq; by destruct s.
Qed.
End BulkRerun.

End Rerun.

Section Once.
Import Str Re Remote.
Import SyncComprehensive.

(** With [resume], an entity that has a key is skipped: no request is
    sent for it. *)
Lemma resume_skips dry_run w :
  (∀ epic,
     truthy (or_key (st_epics (state w) !! epic_id epic) (epic_jira_key epic)) = true →
     jira (sync_epic dry_run true w epic).1 = jira w)
  ∧ (∀ epic_key story,
       truthy (or_key (st_stories (state w) !! story_id story) (story_jira_key story)) = true →
       jira (sync_story dry_run true epic_key w story).1 = jira w)
  ∧ (∀ story_key task,
       truthy (or_key (st_tasks (state w) !! task_id task) (task_jira_key task)) = true →
       jira (sync_task dry_run true story_key w task).1 = jira w).
Proof.
  split; [|split].
  - intros epic H. unfold sync_epic. by rewrite H.
  - intros ek story H. unfold sync_story. by rewrite H.
  - intros sk task H. unfold sync_task. by rewrite H.
Qed.

(** C2 as the code has it.  [sync_epic] of jira-bulk-sync.py searches
    before it creates: a story that the search returns is not created,
    and on a tracker that answers every request and finds an issue by
    the front of its summary a second run creates nothing.
    [sync_to_jira] of jira-sync-comprehensive.py does not search: with
    [resume] it sends no request for an entity that has a key. *)
Theorem creation_once_when_found_or_resumed (matches : str → str → bool) :
  (∀ local_id title,
     matches (local_id ++ py ":") (local_id ++ py ": " ++ title) = true) →
  (∀ s n story i s',
     BulkSync._search_issue matches s (BulkSync.story_data_id story ++ py ":") (py "Story")
       = (Some i, s') →
     issues (BulkSync.jira (BulkSync.sync_story matches (s, n) story).1)
       = issues (BulkSync.jira s)
     ∧ BulkSync.items (BulkSync.sync_story matches (s, n) story).1 = BulkSync.items s)
  ∧ (∀ s epic_data stories,
       faults (BulkSync.jira s) = [] →
       BulkSync.jira
         (BulkSync.sync_epic matches (BulkSync.sync_epic matches s epic_data stories).1
            epic_data stories).1
       = BulkSync.jira (BulkSync.sync_epic matches s epic_data stories).1)
  ∧ (∀ dry_run w epic,
       truthy (or_key (st_epics (state w) !! epic_id epic) (epic_jira_key epic)) = true →
       jira (sync_epic dry_run true w epic).1 = jira w)
  ∧ (∀ dry_run w epic_key story,
       truthy (or_key (st_stories (state w) !! story_id story) (story_jira_key story)) = true →
       jira (sync_story dry_run true epic_key w story).1 = jira w)
  ∧ (∀ dry_run w story_key task,
       truthy (or_key (st_tasks (state w) !! task_id task) (task_jira_key task)) = true →
       jira (sync_task dry_run true story_key w task).1 = jira w).
Proof.
  intros Hmatch. split; [|split; [|split; [|split]]].
  - intros s n story i s'. apply sync_story_reuses.
  - intros s epic_data stories. by apply sync_epic_rerun.
  - intros dry_run w. apply (resume_skips dry_run w).
  - intros dry_run w. apply (resume_skips dry_run w).
  - intros dry_run w. apply (resume_skips dry_run w).
Qed.

Lemma startswith_app a b c : startswith (a ++ b) (a ++ c) = startswith b c.
Proof. induction a as [|x a IH]; [done|]. simpl. by rewrite Ascii.eqb_refl. Qed.

Lemma startswith_refl_app a c : startswith a (a ++ c) = true.
Proof. induction a as [|x a IH]; [done|]. simpl. by rewrite Ascii.eqb_refl. Qed.

Lemma creation_once_when_found_or_resumed_witness :
  BulkSync.jira
    (BulkSync.sync_epic startswith (BulkSync.sync_epic startswith bulk_0 epic_data_3 stories_3).1
       epic_data_3 stories_3).1
  = BulkSync.jira (BulkSync.sync_epic startswith bulk_0 epic_data_3 stories_3).1.
Proof.
  destruct (creation_once_when_found_or_resumed startswith) as (_ & H & _).
  - intros local_id title.
    change (py ": " ++ title) with (py ":" ++ " " :: title).
    rewrite startswith_app. done.
  - by apply H.
Defined.

Example bulk_two_runs :
  map key (issues (BulkSync.jira (BulkSync.sync_epic startswith bulk_0 epic_data_3 stories_3).1))
  = [py "ARGUS-1"; py "ARGUS-2"; py "ARGUS-3"]
  ∧ map key (issues (BulkSync.jira
      (BulkSync.sync_epic startswith
         (BulkSync.sync_epic startswith bulk_0 epic_data_3 stories_3).1
         epic_data_3 stories_3).1))
  = [py "ARGUS-1"; py "ARGUS-2"; py "ARGUS-3"].
Proof. by vm_compute. Qed.

(** C2 as stated fails: two runs of [sync_to_jira] without [resume]
    create two issues for the same epic, with two keys, although the
    second run starts from the state and the epic of the first, which
    hold the first key. *)
Lemma two_runs_two_keys :
  let run1 := sync_to_jira [epic_0] (world_1 []) false false false in
  let run2 := sync_to_jira run1.2 run1.1 false false false in
  map epic_jira_key run1.2 = [py "ARGUS-1"]
  ∧ log run2.1 = [ CreatedEpic (py "EPIC-AUTH-001") (py "ARGUS-1");
                 CreatedEpic (py "EPIC-AUTH-001") (py "ARGUS-2") ]
  ∧ map summary (issues (jira run2.1))
    = [py "EPIC-AUTH-001: Auth"; py "EPIC-AUTH-001: Auth"]
  ∧ st_epics (state run1.1) !! py "EPIC-AUTH-001" = Some (py "ARGUS-1")
  ∧ st_epics (state run2.1) !! py "EPIC-AUTH-001" = Some (py "ARGUS-2").
Proof. by vm_compute. Qed.

End Once.

Section Exchanges.
Import Str Re PostImportFix.

(** ** The requests of one call of the post-import client *)

Lemma attempts_sent n a c :
  (sent c ≤ sent (attempts n a c).2 ≤ sent c + n)%nat.
Proof.
  revert a c. induction n as [|n IH]; intros a c; simpl; [lia|].
  destruct (server c (sent c)) as [status links| |].
  - destruct (status <? 400)%nat; [simpl; lia|].
    destruct (status =? 429)%nat; [|simpl; lia].
    specialize (IH (S a) (exchanged c)). simpl in IH. lia.
  - destruct (a <? 2)%nat; [|simpl; lia].
    specialize (IH (S a) (exchanged c)). simpl in IH. lia.
  - simpl. lia.
Qed.

(** X1: [JiraClient.request] of jira-post-import-fix.py makes at most
    three exchanges with the tracker, and none when the client is
    disabled; three timeouts in a row end in the exception [Timeout],
    and three replies 429 in a row end the loop without a [return]:
    the call gives [None] and raises nothing. *)
Theorem request_at_most_three_exchanges c what :
  (sent c ≤ sent (request c what).2 ≤ sent c + 3)%nat
  ∧ (enabled c = false → request c what = (Return (Some []), c))
  ∧ (enabled c = true →
     (∀ i, (i < 3)%nat → server c (sent c + i) = TimeoutExc) →
     (request c what).1 = Raise Timeout
     ∧ sent (request c what).2 = (sent c + 3)%nat)
  ∧ (enabled c = true →
     (∀ i, (i < 3)%nat → ∃ links, server c (sent c + i) = Status 429 links) →
     (request c what).1 = Return None
     ∧ sent (request c what).2 = (sent c + 3)%nat).
Proof.
  split; [|split; [|split]].
  - unfold request. destruct (enabled c); simpl; [|lia].
    pose proof (attempts_sent 3 0 (called what c)) as H. simpl in H. lia.
  - intros He. unfold request. by rewrite He.
  - intros He H. unfold request. rewrite He. cbn [negb].
    pose proof (H 0 ltac:(lia)) as H0. pose proof (H 1 ltac:(lia)) as H1.
    pose proof (H 2 ltac:(lia)) as H2.
    replace (sent c + 0)%nat with (sent c) in H0 by lia.
    replace (sent c + 1)%nat with (S (sent c)) in H1 by lia.
    replace (sent c + 2)%nat with (S (S (sent c))) in H2 by lia.
    simpl. rewrite H0. simpl. rewrite H1. simpl. rewrite H2. simpl.
    split; [done|lia].
  - intros He H. unfold request. rewrite He. cbn [negb].
    destruct (H 0 ltac:(lia)) as [l0 H0]. destruct (H 1 ltac:(lia)) as [l1 H1].
    destruct (H 2 ltac:(lia)) as [l2 H2].
    replace (sent c + 0)%nat with (sent c) in H0 by lia.
    replace (sent c + 1)%nat with (S (sent c)) in H1 by lia.
    replace (sent c + 2)%nat with (S (S (sent c))) in H2 by lia.
    simpl. rewrite H0. simpl. rewrite H1. simpl. rewrite H2. simpl.
    split; [done|lia].
Qed.

End Exchanges.

Section Retries.
Import Str Re Remote SyncComprehensive.

Lemma request_depth server :
  (∀ n text, server n ≠ Status 429 text) →
  ∀ d retries fuel sent,
    (3 ≤ retries + d)%nat → (d < fuel)%nat →
    ∃ r sent', _request fuel server sent retries = (Some r, sent')
      ∧ (sent < sent' ≤ sent + (2 ^ S d - 1))%nat.
Proof.
  intros Hs. induction d as [|d IH]; intros retries fuel sent Hr Hf.
  - destruct fuel as [|fuel]; [lia|]. cbn [_request].
    assert ((retries <? MAX_RETRIES)%nat = false) as Hlt
      by (apply Nat.ltb_ge; unfold MAX_RETRIES; lia).
    rewrite Hlt. destruct (server sent) as [status text| |] eqn:E.
    + destruct (status =? 429)%nat eqn:E429.
      { apply Nat.eqb_eq in E429. subst. by destruct (Hs sent text). }
      rewrite andb_false_r.
      destruct (status =? 204)%nat; [eexists _, _; split; [done|simpl; lia]|].
      destruct (400 <=? status)%nat; eexists _, _; (split; [done|simpl; lia]).
    + eexists _, _. split; [done|simpl; lia].
    + eexists _, _. split; [done|simpl; lia].
  - destruct fuel as [|fuel]; [lia|].
    assert (2 ^ S (S d) = 2 * 2 ^ S d)%nat as Hp by (by rewrite Nat.pow_succ_r').
    assert (1 ≤ 2 ^ S d)%nat as Hp1
      by (apply Nat.neq_0_lt_0, Nat.pow_nonzero; lia).
    destruct (retries <? MAX_RETRIES)%nat eqn:Hlt.
    2:{ destruct (IH retries (S fuel) sent) as (r & s' & E & Hb).
        - apply Nat.ltb_ge in Hlt. unfold MAX_RETRIES in Hlt. lia.
        - lia.
        - exists r, s'. split; [done|lia]. }
    cbn [_request]. rewrite Hlt.
    destruct (server sent) as [status text| |] eqn:E.
    + destruct (status =? 429)%nat eqn:E429.
      { apply Nat.eqb_eq in E429. subst. by destruct (Hs sent text). }
      destruct (500 <=? status)%nat; cbn [andb].
      * destruct (IH (S retries) fuel (S sent)) as (r & s1 & E1 & Hb1); [lia|lia|].
        rewrite E1.
        destruct r as [a|e].
        { eexists _, _. split; [done|lia]. }
        destruct e;
          try (eexists _, _; split; [done|lia]).
        destruct (IH (S retries) fuel s1) as (r2 & s2 & E2 & Hb2); [lia|lia|].
        rewrite E2. eexists _, _. split; [done|lia].
      * destruct (status =? 204)%nat; [eexists _, _; split; [done|lia]|].
        destruct (400 <=? status)%nat; eexists _, _; (split; [done|lia]).
    + destruct (IH (S retries) fuel (S sent)) as (r & s1 & E1 & Hb1); [lia|lia|].
      rewrite E1. eexists _, _. split; [done|lia].
    + eexists _, _. split; [done|lia].
Qed.

(** X2: when the tracker never answers 429, one call of
    [JiraClient._request] of jira-sync-comprehensive.py ends, with a
    result or an exception, after at most 15 requests and within four
    nested frames; 15 is reached, so the bound on the requests of one
    call is not [MAX_RETRIES + 1]. *)
Theorem request_without_rate_limit_ends server sent fuel :
  (∀ n text, server n ≠ Status 429 text) →
  (4 ≤ fuel)%nat →
  (∃ r sent', _request fuel server sent 0 = (Some r, sent')
     ∧ (sent < sent' ≤ sent + 15)%nat)
  ∧ _request 4 worst_replies 0 0 = (Some (Raise Timeout), 15%nat).
Proof.
  intros Hs Hf. split; [|by vm_compute].
  destruct (request_depth server Hs 3 0 fuel sent) as (r & s' & E & Hb); [lia|lia|].
  exists r, s'. split; [done|]. simpl in Hb. lia.
Qed.

Lemma request_without_rate_limit_ends_witness :
  ∃ r sent', _request 4 worst_replies 0 0 = (Some r, sent')
    ∧ (0 < sent' ≤ 0 + 15)%nat.
Proof.
  destruct (request_without_rate_limit_ends worst_replies 0 4) as [H _].
  - intros n text. unfold worst_replies. by case_bool_decide.
  - lia.
  - exact H.
Defined.

End Retries.

Section DryRun.
Import Str Re Remote SyncComprehensive.

Lemma same_but_counts_refl w : same_but_counts w w.
Proof. by repeat split. Qed.

Lemma sync_epic_dry resume w0 w epic :
  same_but_counts w0 w → same_but_counts w0 (sync_epic true resume w epic).1.
Proof.
  intros H. unfold sync_epic.
  destruct (resume && truthy _); [exact H|]. exact H.
Qed.

Lemma sync_story_dry resume ek w0 w story :
  same_but_counts w0 w → same_but_counts w0 (sync_story true resume ek w story).1.
Proof.
  intros H. unfold sync_story.
  destruct (resume && truthy _); [exact H|]. exact H.
Qed.

Lemma sync_task_dry resume sk w0 w task :
  same_but_counts w0 w → same_but_counts w0 (sync_task true resume sk w task).1.
Proof.
  intros H. unfold sync_task.
  destruct (resume && truthy _); [exact H|]. exact H.
Qed.

Lemma for_each_fst {A} (f : World → A → World * A) w x l :
  (for_each f w (x :: l)).1 = (for_each f (f w x).1 l).1.
Proof.
  simpl. destruct (f w x) as [w1 x1]. simpl.
  by destruct (for_each f w1 l).
Qed.

Lemma phase2_epic_fst dry resume w epic :
  (phase2_epic dry resume w epic).1
  = (for_each (sync_story dry resume
                 (or_key (st_epics (state w) !! epic_id epic) (epic_jira_key epic)))
       w (epic_stories epic)).1.
Proof. unfold phase2_epic. by destruct (for_each _ _ _). Qed.

Lemma phase3_story_fst dry resume w story :
  (phase3_story dry resume w story).1
  = if negb (truthy (or_key (st_stories (state w) !! story_id story) (story_jira_key story)))
    then w
    else (for_each (sync_task dry resume
                      (or_key (st_stories (state w) !! story_id story) (story_jira_key story)))
            w (story_tasks story)).1.
Proof.
  unfold phase3_story. destruct (negb _); [done|]. by destruct (for_each _ _ _).
Qed.

Lemma phase3_epic_fst dry resume w epic :
  (phase3_epic dry resume w epic).1
  = (for_each (phase3_story dry resume) w (epic_stories epic)).1.
Proof. unfold phase3_epic. by destruct (for_each _ _ _). Qed.

Lemma sync_to_jira_fst epics w dry resume :
  ∃ epics1 epics2,
    (sync_to_jira epics w dry resume false).1
    = (for_each (phase3_epic dry resume)
         (for_each (phase2_epic dry resume)
            (for_each (sync_epic dry resume) w epics).1 epics1).1 epics2).1.
Proof.
  unfold sync_to_jira.
  destruct (for_each (sync_epic dry resume) w epics) as [w1 e1] eqn:E1.
  destruct (for_each (phase2_epic dry resume) w1 e1) as [w2 e2] eqn:E2.
  exists e1, e2. simpl. by rewrite E2.
Qed.

(** The three phases keep an invariant that each of their steps
    keeps. *)
Lemma sync_to_jira_inv (P : World → Prop) epics w dry resume links_only :
  (∀ w epic, P w → P (sync_epic dry resume w epic).1) →
  (∀ ek w story, P w → P (sync_story dry resume ek w story).1) →
  (∀ sk w task, P w → P (sync_task dry resume sk w task).1) →
  P w → P (sync_to_jira epics w dry resume links_only).1.
Proof.
  intros He Hs Ht Hw. destruct links_only; [done|].
  destruct (sync_to_jira_fst epics w dry resume) as (e1 & e2 & ->).
  apply for_each_inv.
  { intros w' epic H. rewrite phase3_epic_fst. apply for_each_inv; [|done].
    intros w'' story H'. rewrite phase3_story_fst. destruct (negb _); [done|].
    apply for_each_inv; [|done]. intros ? ?. apply Ht. }
  apply for_each_inv.
  { intros w' epic H. rewrite phase2_epic_fst. apply for_each_inv; [|done].
    intros ? ?. apply Hs. }
  by apply for_each_inv.
Qed.

(** X3: in a dry run the three creation phases of [sync_to_jira] send
    nothing to the tracker, change no document, record no key in the
    state and count no error: only the counters of created and
    skipped entities move. *)
Theorem dry_run_changes_nothing epics w resume links_only :
  jira (sync_to_jira epics w true resume links_only).1 = jira w
  ∧ fs (sync_to_jira epics w true resume links_only).1 = fs w
  ∧ state (sync_to_jira epics w true resume links_only).1 = state w
  ∧ errors (stats (sync_to_jira epics w true resume links_only).1) = errors (stats w).
Proof.
  assert (same_but_counts w (sync_to_jira epics w true resume links_only).1) as H.
  { apply (sync_to_jira_inv (same_but_counts w)).
    - intros. by apply sync_epic_dry.
    - intros. by apply sync_story_dry.
    - intros. by apply sync_task_dry.
    - apply same_but_counts_refl. }
  destruct H as (? & ? & ? & ? & ?). by repeat split.
Qed.

Lemma create_issue_issues j ty summ par :
  match create_issue j ty summ par with
  | (Return _, j') => length (issues j') = S (length (issues j))
  | (Raise _, j') => issues j' = issues j
  end.
Proof.
  unfold create_issue, post_issue, next_fault.
  destruct (faults j) as [|[] r]; simpl; rewrite ?length_app; simpl; try lia; done.
Qed.

Lemma created_counts k ev local_id file_path jira_key j w :
  jira (created k ev local_id file_path jira_key j w) = j
  ∧ created_total (stats (created k ev local_id file_path jira_key j w))
    = S (created_total (stats w)).
Proof.
  unfold created.
  destruct (update_jira_key_in_file _ _ _) as [[fs' b]|e];
    destruct k; simpl; unfold created_total; simpl; split; try done; lia.
Qed.

Lemma set_epic_link_issues j : issues (set_epic_link j) = issues j.
Proof. unfold set_epic_link, next_fault. by destruct (faults j). Qed.

Lemma sync_epic_counted resume w0 w epic :
  counted w0 w → counted w0 (sync_epic false resume w epic).1.
Proof.
  unfold counted. intros H. unfold sync_epic.
  destruct (resume && truthy _); [exact H|]. cbn [negb].
  pose proof (create_issue_issues (jira w) (py "Epic") (epic_name epic) None) as Hc.
  destruct (create_issue _ _ _ _) as [[k|e] j]; cbn [fst].
  - destruct (created_counts KEpic (CreatedEpic (epic_id epic) k) (epic_id epic)
                (epic_file_path epic) k j w) as [-> ->]. lia.
  - simpl. rewrite Hc. exact H.
Qed.

Lemma sync_story_counted resume ek w0 w story :
  counted w0 w → counted w0 (sync_story false resume ek w story).1.
Proof.
  unfold counted. intros H. unfold sync_story.
  destruct (resume && truthy _); [exact H|]. cbn [negb].
  pose proof (create_issue_issues (jira w) (py "Story")
                ("[" :: story_id story ++ py "] " ++ story_title story) None) as Hc.
  destruct (create_issue _ _ _ _) as [[k|e] j]; cbn [fst].
  - match goal with
    | |- context [created ?a ?b ?c ?d ?e ?f ?g] =>
        destruct (created_counts a b c d e f g) as [-> ->]
    end.
    destruct (truthy ek); rewrite ?set_epic_link_issues; lia.
  - simpl. rewrite Hc. exact H.
Qed.

Lemma sync_task_counted resume sk w0 w task :
  counted w0 w → counted w0 (sync_task false resume sk w task).1.
Proof.
  unfold counted. intros H. unfold sync_task.
  destruct (resume && truthy _); [exact H|]. cbn [negb].
  pose proof (create_issue_issues (jira w) (py "Subtask")
                ("[" :: task_id task ++ py "] " ++ task_title task) (Some sk)) as Hc.
  destruct (create_issue _ _ _ _) as [[k|e] j]; cbn [fst].
  - match goal with
    | |- context [created ?a ?b ?c ?d ?e ?f ?g] =>
        destruct (created_counts a b c d e f g) as [-> ->]
    end. lia.
  - simpl. rewrite Hc. exact H.
Qed.

(** X4: in the creation phases of a run of [sync_to_jira] that is no
    dry run, the counters
    [epics_created], [stories_created] and [tasks_created] grow
    together by the number of issues that the run added to the
    tracker: a failed request is not counted as created, and an
    issue is counted also when writing its key to the file fails. *)
Theorem created_counts_are_issues epics w resume links_only :
  (length (issues (jira (sync_to_jira epics w false resume links_only).1))
   + created_total (stats w)
   = length (issues (jira w))
     + created_total (stats (sync_to_jira epics w false resume links_only).1))%nat.
Proof.
  apply (sync_to_jira_inv (counted w)).
  - intros. by apply sync_epic_counted.
  - intros. by apply sync_story_counted.
  - intros. by apply sync_task_counted.
  - by unfold counted.
Qed.

End DryRun.

Section Bulk.
Import Str Re Remote.

Ltac sizes_eq := repeat (apply (f_equal2 (@cons nat)); [lia|]); done.

Section BulkCounts.
Import BulkSync.
Context (matches : str → str → bool).

Lemma search_sizes s summ ty :
issues (jira (_search_issue matches s summ ty).2) = issues (jira s)
∧ created (_search_issue matches s summ ty).2 = created s
∧ skipped (_search_issue matches s summ ty).2 = skipped s
∧ errors (_search_issue matches s summ ty).2 = errors s
∧ items (_search_issue matches s summ ty).2 = items s.
Proof.
unfold _search_issue, next_fault.
destruct (faults (jira s)) as [|[] r]; by simpl.
Qed.

Lemma create_sizes s ty local_id title :
match _create s ty local_id title with
| (Some _, s') =>
    length (issues (jira s')) = S (length (issues (jira s)))
    ∧ errors s' = errors s
| (None, s') =>
    issues (jira s') = issues (jira s)
    ∧ length (errors s') = S (length (errors s))
end
∧ created (_create s ty local_id title).2 = created s
∧ skipped (_create s ty local_id title).2 = skipped s
∧ items (_create s ty local_id title).2 = items s.
Proof.
unfold _create, post_issue, next_fault.
destruct (faults (jira s)) as [|[] r]; simpl; rewrite ?length_app; simpl;
  repeat split; try done; lia.
Qed.

(** One story: exactly one of the three counts grows by one, and the
  lists and the tracker grow with it. *)
Lemma sync_story_sizes acc story :
∃ c k e : nat,
  (c + k + e = 1)%nat
  ∧ bulk_sizes (sync_story matches acc story)
    = zip_with Nat.add (bulk_sizes acc) [c; c; k; e; c; k; e].
Proof.
destruct acc as [s n]. unfold sync_story.
pose proof (search_sizes s (story_data_id story ++ py ":") (py "Story"))
  as (Hi & Hc & Hk & He & _).
destruct (_search_issue matches s _ _) as [[i|] s1]; simpl in Hi, Hc, Hk, He.
- exists 0%nat, 1%nat, 0%nat. split; [done|].
  unfold bulk_sizes. simpl. rewrite Hi, Hc, Hk, He, length_app. simpl.
  sizes_eq.
- pose proof (create_sizes s1 (py "Story") (story_data_id story)
                (story_data_title story)) as (H1 & Hc2 & Hk2 & _).
  destruct (_create s1 _ _ _) as [[key|] s2];
    simpl in Hc2, Hk2; destruct H1 as [Hi2 He2].
  + exists 1%nat, 0%nat, 0%nat. split; [done|].
    unfold bulk_sizes. simpl. rewrite Hi2, Hc2, Hk2, He2, Hi, Hc, Hk, He, length_app.
    simpl. sizes_eq.
  + exists 0%nat, 0%nat, 1%nat. split; [done|].
    unfold bulk_sizes. simpl. rewrite Hi2, Hc2, Hk2, He2, Hi, Hc, Hk, He.
    sizes_eq.
Qed.

Lemma sync_stories_sizes stories acc :
∃ c k e : nat,
  (c + k + e = length stories)%nat
  ∧ bulk_sizes (fold_left (sync_story matches) stories acc)
    = zip_with Nat.add (bulk_sizes acc) [c; c; k; e; c; k; e].
Proof.
revert acc. induction stories as [|story stories IH]; intros acc.
- exists 0%nat, 0%nat, 0%nat. split; [done|].
  unfold bulk_sizes. simpl. sizes_eq.
- simpl. destruct (IH (sync_story matches acc story)) as (c & k & e & Hs & ->).
  destruct (sync_story_sizes acc story) as (c1 & k1 & e1 & Hs1 & ->).
  exists (c1 + c)%nat, (k1 + k)%nat, (e1 + e)%nat. split; [lia|].
  unfold bulk_sizes. simpl. sizes_eq.
Qed.

Lemma sync_epic_sizes s epic_data stories :
let r := sync_epic matches s epic_data stories in
(∃ c k e ec ek : nat,
    (c + k + e = length stories)%nat ∧ (ec + ek = 1)%nat
    ∧ bulk_sizes r
      = zip_with Nat.add (bulk_sizes (s, zero))
                 [ec + c; ec + c; ek + k; e; c; k; e]%nat)
∨ (r.2 = {| n_created := 0; n_skipped := 0; n_errors := 1 |}
   ∧ issues (jira r.1) = issues (jira s)
   ∧ created r.1 = created s ∧ skipped r.1 = skipped s ∧ items r.1 = items s
   ∧ length (errors r.1) = S (length (errors s))).
Proof.
intros r. subst r. unfold sync_epic.
pose proof (search_sizes s (epic_data_id epic_data ++ py ":") (py "Epic"))
  as (Hi & Hc & Hk & He & Hit).
destruct (_search_issue matches s _ _) as [[i|] s1]; simpl in Hi, Hc, Hk, He, Hit.
- left.
  destruct (sync_stories_sizes stories
              (note_skipped (epic_data_id epic_data) (key i) s1,
               {| n_created := 0; n_skipped := 0; n_errors := 0 |}))
    as (c & k & e & Hs & ->).
  exists c, k, e, 0%nat, 1%nat. split; [done|]. split; [done|].
  unfold bulk_sizes. simpl. rewrite Hi, Hc, Hk, He, length_app. simpl.
  sizes_eq.
- pose proof (create_sizes s1 (py "Epic") (epic_data_id epic_data)
                (epic_data_title epic_data)) as (H1 & Hc2 & Hk2 & Hit2).
  destruct (_create s1 _ _ _) as [[key|] s2];
    simpl in Hc2, Hk2, Hit2; destruct H1 as [Hi2 He2].
  + left.
    destruct (sync_stories_sizes stories
                (note_created (py "Epic") (epic_data_id epic_data) key s2,
                 {| n_created := 0; n_skipped := 0; n_errors := 0 |}))
      as (c & k & e & Hs & ->).
    exists c, k, e, 1%nat, 0%nat. split; [done|]. split; [done|].
    unfold bulk_sizes. simpl. rewrite Hi2, Hc2, Hk2, He2, Hi, Hc, Hk, He, length_app.
    simpl. sizes_eq.
  + right. simpl. rewrite Hi2, Hc2, Hk2, Hit2, He2, Hi, Hc, Hk, He, Hit. done.
Qed.

End BulkCounts.

(** X5: [sync_epic] of jira-bulk-sync.py returns counts of stories only.
    When the epic is found or created, [created + skipped + errors] is
    the number of stories, each new issue has its line in
    [self.created], and the epic adds one line to [self.created] or
    [self.skipped] that the counts leave out.  When the epic cannot be
    created the result is one error, and no story is searched for or
    created. *)
Theorem sync_epic_counts (matches : str → str → bool) s epic_data stories :
  let r := BulkSync.sync_epic matches s epic_data stories in
  let grown (f : BulkSync.JIRASync → nat) : nat := (f r.1 - f s)%nat in
  ((BulkSync.n_created r.2 + BulkSync.n_skipped r.2 + BulkSync.n_errors r.2
    = length stories)%nat
   ∧ grown (λ s, length (issues (BulkSync.jira s))) = grown (λ s, length (BulkSync.created s))
   ∧ (grown (λ s, length (BulkSync.created s)) + grown (λ s, length (BulkSync.skipped s))
      = BulkSync.n_created r.2 + BulkSync.n_skipped r.2 + 1)%nat
   ∧ grown (λ s, length (BulkSync.errors s)) = BulkSync.n_errors r.2)
  ∨ (r.2 = {| BulkSync.n_created := 0; BulkSync.n_skipped := 0; BulkSync.n_errors := 1 |}
     ∧ issues (BulkSync.jira r.1) = issues (BulkSync.jira s)
     ∧ BulkSync.created r.1 = BulkSync.created s
     ∧ BulkSync.skipped r.1 = BulkSync.skipped s
     ∧ BulkSync.items r.1 = BulkSync.items s
     ∧ grown (λ s, length (BulkSync.errors s)) = 1%nat).
Proof.
  intros r grown. subst grown.
  destruct (sync_epic_sizes matches s epic_data stories) as [H|H]; fold r in H.
  - left. destruct H as (c & k & e & ec & ek & Hs & He & H).
    unfold bulk_sizes in H. simpl in H.
    injection H as H1 H2 H3 H4 H5 H6 H7. cbv beta. lia.
  - right. destruct H as (? & ? & ? & ? & ? & ?). repeat split; try done.
    cbv beta. lia.
Qed.

End Bulk.

Section KeyRow.
Import Str Re.

Lemma search_jira_key_shape l k :
  search_jira_key l = Some k →
  key_shape k = true
  ∧ ∃ i lab val, l !! i = Some lab ∧ l !! S i = Some val
      ∧ is_label (py "JIRA Key") lab = true ∧ strip val = k.
Proof.
  induction l as [|lab l IH]; [done|].
  destruct l as [|val [|nxt rest]]; [done|done|]. cbn [search_jira_key].
  destruct (is_label (py "JIRA Key") lab && key_shape (strip val)) eqn:E.
  - intros H. injection H as <-. apply andb_true_iff in E as [E1 E2]. split; [done|].
    by exists 0%nat, lab, val.
  - intros H. destruct (IH H) as (Hk & i & lab' & val' & H1 & H2 & H3 & H4).
    split; [done|]. by exists (S i), lab', val'.
Qed.

Lemma search_jira_key_none l :
  Forall (λ lab, is_label (py "JIRA Key") lab = false) l → search_jira_key l = None.
Proof.
  induction 1 as [|lab l H _ IH]; [done|].
  destruct l as [|val [|nxt rest]]; [done|done|]. cbn [search_jira_key]. by rewrite H.
Qed.

(** X6: [extract_jira_key] of jira-post-import-fix.py returns the empty
    string or a string shaped like a remote key, which [is_jira_key]
    accepts; a key that it returns is the stripped value cell behind a
    label cell [JIRA Key] of the content; and a content without such
    a label cell, in particular one without a bar, gives the empty
    string. *)
Theorem extract_jira_key_shape content :
  (PostImportFix.extract_jira_key content = []
   ∨ key_shape (PostImportFix.extract_jira_key content) = true
     ∧ PostImportFix.is_jira_key (PostImportFix.extract_jira_key content) = true
     ∧ ∃ i lab val, cells content !! S i = Some lab ∧ cells content !! S (S i) = Some val
         ∧ is_label (py "JIRA Key") lab = true
         ∧ strip val = PostImportFix.extract_jira_key content)
  ∧ (Forall (λ lab, is_label (py "JIRA Key") lab = false) (cells content) →
     PostImportFix.extract_jira_key content = [])
  ∧ ("|" ∉ content → PostImportFix.extract_jira_key content = []).
Proof.
  unfold PostImportFix.extract_jira_key. split; [|split].
  - destruct (search_jira_key (tail (cells content))) as [k|] eqn:E; [|by left].
    right. simpl. destruct (search_jira_key_shape _ _ E) as (Hk & i & lab & val & H1 & H2 & H3 & H4).
    split; [done|]. split; [by apply key_shape_is_jira_key|].
    exists i, lab, val. rewrite lookup_tail in H1, H2. done.
  - intros H. rewrite search_jira_key_none; [done|].
    destruct (cells content); [done|]. by inversion H.
  - intros H. unfold cells. by rewrite split_nosep.
Qed.

(** *** Writing a key and reading it back *)

Lemma sub_jira_key_row k lab val nxt rest :
  SyncComprehensive.sub_jira_key k (lab :: val :: nxt :: rest)
  = if is_label (py "JIRA Key") lab
    then "|" :: lab ++ "|" :: " " :: k ++ " " :: "|" :: nxt
           ++ SyncComprehensive.sub_jira_key k rest
    else "|" :: lab ++ SyncComprehensive.sub_jira_key k (val :: nxt :: rest).
Proof. done. Qed.

Lemma sub_cells_row k lab val nxt rest :
  sub_cells k (lab :: val :: nxt :: rest)
  = if is_label (py "JIRA Key") lab
    then lab :: (" " :: k ++ [" "]) :: nxt :: sub_cells k rest
    else lab :: sub_cells k (val :: nxt :: rest).
Proof. done. Qed.

Lemma sub_jira_key_cells k l :
  SyncComprehensive.sub_jira_key k l = bars (sub_cells k l).
Proof.
  induction l as [l IH] using (induction_ltof1 _ (@length str)). unfold ltof in IH.
  destruct l as [|lab [|val [|nxt rest]]]; [done|done| |].
  - done.
  - rewrite sub_jira_key_row, sub_cells_row.
    destruct (is_label (py "JIRA Key") lab).
    + rewrite (IH rest) by (simpl; lia). unfold bars. simpl.
      by repeat (rewrite <- ?app_assoc; simpl; try f_equal).
    + rewrite (IH (val :: nxt :: rest)) by (simpl; lia). done.
Qed.

Lemma sub_cells_length k l : length (sub_cells k l) = length l.
Proof.
  induction l as [l IH] using (induction_ltof1 _ (@length str)). unfold ltof in IH.
  destruct l as [|lab [|val [|nxt rest]]]; [done|done| |].
  - done.
  - rewrite sub_cells_row. destruct (is_label (py "JIRA Key") lab); cbn [length].
    + by rewrite (IH rest) by (simpl; lia).
    + by rewrite (IH (val :: nxt :: rest)) by (simpl; lia).
Qed.

Lemma sub_cells_nobar k l :
  "|" ∉ k → Forall (λ x, "|" ∉ x) l → Forall (λ x, "|" ∉ x) (sub_cells k l).
Proof.
  intros Hk. induction l as [l IH] using (induction_ltof1 _ (@length str)).
  unfold ltof in IH. intros Hl.
  destruct l as [|lab [|val [|nxt rest]]]; [done|done| |].
  - done.
  - rewrite sub_cells_row. inversion Hl as [|? ? H1 H2]; subst.
    inversion H2 as [|? ? H3 H4]; subst. inversion H4 as [|? ? H5 H6]; subst.
    destruct (is_label (py "JIRA Key") lab).
    + constructor; [done|]. constructor.
      { rewrite elem_of_cons, elem_of_app, list_elem_of_singleton.
        intros [?|[?|?]]; [done|done|done]. }
      constructor; [done|]. apply IH; [simpl; lia|done].
    + constructor; [done|]. apply IH; [simpl; lia|done].
Qed.

Lemma re_sub_jira_key_cells k content :
  "|" ∉ k →
  cells (SyncComprehensive.re_sub_jira_key k content)
  = match cells content with
    | [] => []
    | s0 :: l => s0 :: sub_cells k l
    end.
Proof.
  intros Hk. unfold SyncComprehensive.re_sub_jira_key.
  pose proof (split_pieces "|" content) as Hp. fold (cells content) in Hp.
  pose proof (split_nonempty "|" content) as Hn. fold (cells content) in Hn.
  destruct (cells content) as [|s0 l]; [done|].
  rewrite sub_jira_key_cells, <- join_bars. unfold cells.
  apply split_join; [done|]. inversion Hp; subst.
  constructor; [done|]. by apply sub_cells_nobar.
Qed.

Lemma strip_padded_key k : key_shape k = true → strip (" " :: k ++ [" "]) = k.
Proof.
  intros Hk. change (" " :: k ++ [" "]) with ([" "] ++ k ++ [" "]).
  rewrite strip_blank_l by apply blank_one.
  rewrite strip_blank_r by apply blank_one.
  by apply clean_strip, key_shape_clean.
Qed.

Lemma key_shape_nonempty k : key_shape k = true → k ≠ [].
Proof. by intros H ->. Qed.

Lemma search_field_sub_cells k l :
  has_key_row l = true →
  ∃ lab, search_field (py "JIRA Key") (sub_cells k l)
         = Some (field_groups lab (" " :: k ++ [" "])).
Proof.
  induction l as [|lab l IH]; [done|]. cbn [has_key_row].
  destruct l as [|val [|nxt rest]]; [done|done|]. intros H.
  rewrite sub_cells_row. destruct (is_label (py "JIRA Key") lab) eqn:E.
  - exists lab. cbn [search_field]. by rewrite E.
  - simpl in H. destruct (IH H) as [lab' E'].
    exists lab'. cbn [search_field].
    pose proof (sub_cells_length k (val :: nxt :: rest)) as Hlen.
    destruct (sub_cells k (val :: nxt :: rest)) as [|a [|b r]]; try done.
    by rewrite E.
Qed.

Lemma search_jira_key_sub_cells k l :
  key_shape k = true → has_key_row l = true →
  search_jira_key (sub_cells k l) = Some k.
Proof.
  intros Hk. induction l as [|lab l IH]; [done|]. cbn [has_key_row].
  destruct l as [|val [|nxt rest]]; [done|done|]. intros H.
  rewrite sub_cells_row. destruct (is_label (py "JIRA Key") lab) eqn:E.
  - cbn [search_jira_key]. by rewrite E, strip_padded_key, Hk.
  - simpl in H. specialize (IH H). cbn [search_jira_key].
    pose proof (sub_cells_length k (val :: nxt :: rest)) as Hlen.
    destruct (sub_cells k (val :: nxt :: rest)) as [|a [|b r]]; try done.
    by rewrite E.
Qed.

(** X7: after [update_jira_key_in_file] has run on a file that holds a
    row of the key, with a key shaped like a remote key, the parser
    of jira-sync-comprehensive.py and [extract_jira_key] of
    jira-post-import-fix.py both read this key from the file. *)
Theorem jira_key_round_trip (fs : SyncComprehensive.FS) file_path jira_key content :
  fs !! file_path = Some content →
  key_shape jira_key = true →
  has_key_row (tail (cells content)) = true →
  ∃ fs' b content',
    SyncComprehensive.update_jira_key_in_file fs file_path jira_key = Return (fs', b)
    ∧ fs' !! file_path = Some content'
    ∧ BMadParser.parse_jira_key content' = jira_key
    ∧ PostImportFix.extract_jira_key content' = jira_key.
Proof.
  intros Hf Hk Hrow.
  assert ("|" ∉ jira_key) as Hbar by (by apply (key_shape_notin _ "|")).
  set (content' := SyncComprehensive.re_sub_jira_key jira_key content).
  assert (tail (cells content') = sub_cells jira_key (tail (cells content))) as Hc.
  { unfold content'. rewrite re_sub_jira_key_cells by done.
    by destruct (cells content). }
  assert (BMadParser.parse_jira_key content' = jira_key
          ∧ PostImportFix.extract_jira_key content' = jira_key) as [H1 H2].
  { unfold BMadParser.parse_jira_key, PostImportFix.extract_jira_key. rewrite Hc. split.
    - destruct (search_field_sub_cells jira_key _ Hrow) as [lab ->].
      destruct (field_groups_spec lab (" " :: jira_key ++ [" "])) as (g & -> & _ & Hg);
        [done|].
      cbv zeta. rewrite Hg, strip_padded_key by done.
      rewrite key_shape_match by done.
      by destruct jira_key.
    - by rewrite search_jira_key_sub_cells. }
  unfold SyncComprehensive.update_jira_key_in_file. rewrite Hf. fold content'.
  case_bool_decide as Hne.
  - exists (<[file_path := content']> fs), true, content'.
    by rewrite lookup_insert_eq.
  - exists fs, false, content'. repeat split; try done. by rewrite Hne.
Qed.

Lemma jira_key_round_trip_witness :
  ∃ fs' b content',
    SyncComprehensive.update_jira_key_in_file {[ py "README.md" := readme_with_row ]}
      (py "README.md") (py "ARGUS-7") = Return (fs', b)
    ∧ fs' !! py "README.md" = Some content'
    ∧ BMadParser.parse_jira_key content' = py "ARGUS-7"
    ∧ PostImportFix.extract_jira_key content' = py "ARGUS-7".
Proof.
  apply (jira_key_round_trip {[ py "README.md" := readme_with_row ]}
           (py "README.md") (py "ARGUS-7") readme_with_row); by vm_compute.
Defined.

End KeyRow.

Section Mapping.
Import Str Re PostImportFix Header CompleteMapping.

Lemma fold_left_inv_elem {A B} (P : A → Prop) (f : A → B → A) l a :
  (∀ a x, x ∈ l → P a → P (f a x)) → P a → P (fold_left f l a).
Proof.
  revert a. induction l as [|x l IH]; intros a Hf Ha; [done|]. simpl.
  apply IH.
  - intros a' y Hy. apply Hf. by right.
  - apply Hf; [by left|done].
Qed.

Lemma extract_key_or_empty content : key_or_empty (extract_jira_key content).
Proof.
  unfold extract_jira_key.
  destruct (search_jira_key (tail (cells content))) as [k|] eqn:E; [|by right].
  left. by destruct (search_jira_key_shape _ _ E).
Qed.

Lemma is_nil_false (s : str) : is_nil s = false → s ≠ [].
Proof. by destruct s. Qed.

Lemma extract_key_not_empty content :
  is_nil (extract_jira_key content) = false → key_shape (extract_jira_key content) = true.
Proof.
  intros En. destruct (extract_key_or_empty content) as [H|H]; [done|].
  by rewrite H in En.
Qed.

Lemma keys_set_epic k v m :
  key_shape v = true → keys_only m → keys_only (set_epic k v m).
Proof.
  intros Hv (H1 & H2 & H3 & H4 & H5). repeat split; try done.
  by apply map_Forall_insert_2.
Qed.

Lemma keys_set_story k v m :
  key_or_empty v → keys_only m → keys_only (set_story k v m).
Proof.
  intros Hv (H1 & H2 & H3 & H4 & H5). repeat split; try done.
  by apply map_Forall_insert_2.
Qed.

Lemma keys_set_story_by_epic k v m :
  key_shape v = true → keys_only m → keys_only (set_story_by_epic k v m).
Proof.
  intros Hv (H1 & H2 & H3 & H4 & H5). repeat split; try done.
  by apply map_Forall_insert_2.
Qed.

Lemma keys_set_task k v m :
  key_shape v = true → keys_only m → keys_only (set_task k v m).
Proof.
  intros Hv (H1 & H2 & H3 & H4 & H5). repeat split; try done.
  by apply map_Forall_insert_2.
Qed.

Lemma keys_set_task_tuple k v m :
  key_shape v = true → keys_only m → keys_only (set_task_tuple k v m).
Proof.
  intros Hv (H1 & H2 & H3 & H4 & H5). repeat split; try done.
  by apply map_Forall_insert_2.
Qed.

Lemma keys_set_short_forms e n v m :
  key_shape v = true → keys_only m → keys_only (set_short_forms e n v m).
Proof. intros. unfold set_short_forms. by repeat apply keys_set_story_by_epic. Qed.

Lemma keys_map_epic epic_dir m : keys_only m → keys_only (map_epic epic_dir m).
Proof.
  intros H. unfold map_epic. destruct (Tree.readme epic_dir) as [content|]; [|done].
  destruct (is_nil _) eqn:En; [done|]. apply extract_key_not_empty in En. cbv zeta.
  destruct (startswith _ _); [|by apply keys_set_epic].
  case_bool_decide; by repeat apply keys_set_epic.
Qed.

Lemma keys_map_task d m task_file : keys_only m → keys_only (map_task d m task_file).
Proof.
  intros H. unfold map_task.
  destruct (is_nil _) eqn:En; [done|]. apply extract_key_not_empty in En. cbv zeta.
  assert (keys_only
            match match_task_name (Tree.file_name task_file) with
            | Some digits =>
                set_task_tuple (d, "T" :: or_str (lstrip_zeros digits) (py "1"))
                  (extract_jira_key (Tree.file_content task_file)) m
            | None => m
            end) as H'.
  { destruct (match_task_name _); [by apply keys_set_task_tuple|done]. }
  destruct (search_line task_id_header true _); [|done].
  destruct (is_nil _); [by apply keys_set_task|].
  by apply keys_set_task_tuple, keys_set_task.
Qed.

Lemma keys_map_story e m story_dir : keys_only m → keys_only (map_story e m story_dir).
Proof.
  intros H. unfold map_story.
  destruct (Tree.story_files story_dir) as [|story_file ?]; [done|]. cbv zeta.
  pose proof (extract_key_or_empty (Tree.file_content story_file)) as Hk.
  pose proof (extract_key_not_empty (Tree.file_content story_file)) as Hn.
  set (k := extract_jira_key (Tree.file_content story_file)) in *.
  set (m1 := set_story (Tree.story_dir_name story_dir) k m).
  assert (keys_only m1) as H1 by (by apply keys_set_story).
  set (m2 := match match_digits (Tree.story_dir_name story_dir) with
             | Some digits => if is_nil k then m1 else _ | None => m1 end).
  assert (keys_only m2) as H2.
  { unfold m2. destruct (match_digits _); [|done].
    destruct (is_nil k); [done|]. by apply keys_set_short_forms; [apply Hn|]. }
  set (m3 := match search_line story_id_header true (Tree.file_content story_file) with
             | Some story_id => if is_nil k then m2 else _ | None => m2 end).
  assert (keys_only m3) as H3.
  { unfold m3. destruct (search_line _ _ _); [|done].
    destruct (is_nil k); [done|].
    by apply keys_set_short_forms; [apply Hn|apply keys_set_story]. }
  destruct (Tree.tasks_dir story_dir) as [task_files|]; [|done].
  apply fold_left_inv_elem; [|done]. intros. by apply keys_map_task.
Qed.

Lemma keys_map_epic_dir m epic_dir : keys_only m → keys_only (map_epic_dir m epic_dir).
Proof.
  intros H. unfold map_epic_dir.
  pose proof (keys_map_epic epic_dir m H) as H'.
  destruct (Tree.stories_dir epic_dir); [|done].
  apply fold_left_inv_elem; [|done]. intros. by apply keys_map_story.
Qed.

Lemma keys_empty : keys_only empty_mapping.
Proof. repeat split; apply map_Forall_empty. Qed.

Lemma build_complete_mapping_keys epic_dirs : keys_only (build_complete_mapping epic_dirs).
Proof.
  unfold build_complete_mapping.
  apply fold_left_inv_elem; [|apply keys_empty].
  intros. by apply keys_map_epic_dir.
Qed.

Lemma keys_only_values m : keys_only m → values_ok m.
Proof.
  intros (H1 & H2 & H3 & H4 & H5).
  repeat split; try done; (eapply map_Forall_impl; [eassumption|]); intros ? ? ?; by left.
Qed.

Lemma build_complete_mapping_values epic_dirs :
  values_ok (build_complete_mapping epic_dirs).
Proof. apply keys_only_values, build_complete_mapping_keys. Qed.

(** X8: every value that [build_complete_mapping] enters in the tables
    of the epics, of the stories by epic, of the tasks and of the
    tasks by story is shaped like a remote key; a value of the table
    of the stories is shaped like a remote key or is empty. *)
Theorem complete_mapping_values epic_dirs :
  keys_only (build_complete_mapping epic_dirs)
  ∧ values_ok (build_complete_mapping epic_dirs).
Proof.
  split; [apply build_complete_mapping_keys|apply build_complete_mapping_values].
Qed.

(** X9: with the tables that the script builds itself, the rewrite of the
    four reference fields keeps every bar and every cell outside the
    rows of these fields, and a second rewrite changes nothing unless
    one of the field names is itself a key of the tables. *)
Theorem complete_mapping_rewrite epic_dirs content ctx field_names :
  default default_field_names field_names ⊆ default_field_names →
  let m := build_complete_mapping epic_dirs in
  let fixed := (fix_references_in_content content m ctx field_names).1.1 in
  outside_rows_kept (default default_field_names field_names) content fixed
  ∧ ((∀ F, F ∈ default default_field_names field_names →
         (convert_reference F m ctx).2 = false) →
     (fix_references_in_content fixed m ctx field_names).1.1 = fixed).
Proof.
  intros Hs m fixed. split.
  - apply fix_frame; [apply build_complete_mapping_values|done].
  - intros Hl. apply fix_idempotent; [apply build_complete_mapping_values|done|done].
Qed.

(** *** The scope of the short forms *)

Section Scope.
Context (epic_dirs : list Tree.EpicDir).

Lemma scoped_set_epic k v m : scoped epic_dirs m → scoped epic_dirs (set_epic k v m).
Proof. done. Qed.

Lemma scoped_set_story k v m : scoped epic_dirs m → scoped epic_dirs (set_story k v m).
Proof. done. Qed.

Lemma scoped_set_task k v m : scoped epic_dirs m → scoped epic_dirs (set_task k v m).
Proof. done. Qed.

Lemma scoped_set_story_by_epic e r v m :
story_key_of epic_dirs e v → scoped epic_dirs m →
scoped epic_dirs (set_story_by_epic (e, r) v m).
Proof.
intros Hv [H1 H2]. split; [|done]. intros e' r' k. simpl.
destruct (decide ((e, r) = (e', r'))) as [[= <- <-]|Hne].
- rewrite lookup_insert_eq. by intros [= <-].
- rewrite lookup_insert_ne by done. apply H1.
Qed.

Lemma scoped_set_short_forms e n v m :
story_key_of epic_dirs e v → scoped epic_dirs m →
scoped epic_dirs (set_short_forms e n v m).
Proof. intros. unfold set_short_forms. by repeat apply scoped_set_story_by_epic. Qed.

Lemma scoped_set_task_tuple d r v m :
task_key_of epic_dirs d v → scoped epic_dirs m →
scoped epic_dirs (set_task_tuple (d, r) v m).
Proof.
intros Hv [H1 H2]. split; [done|]. intros d' r' k. simpl.
destruct (decide ((d, r) = (d', r'))) as [[= <- <-]|Hne].
- rewrite lookup_insert_eq. by intros [= <-].
- rewrite lookup_insert_ne by done. apply H2.
Qed.

Lemma scoped_map_epic epic_dir m :
scoped epic_dirs m → scoped epic_dirs (map_epic epic_dir m).
Proof.
intros H. unfold map_epic. destruct (Tree.readme epic_dir); [|done].
destruct (is_nil _); [done|]. cbv zeta.
destruct (startswith _ _); [|done]. by case_bool_decide.
Qed.

Lemma scoped_map_task epic_dir story_dirs story_dir task_files task_file m :
epic_dir ∈ epic_dirs → Tree.stories_dir epic_dir = Some story_dirs →
story_dir ∈ story_dirs → Tree.tasks_dir story_dir = Some task_files →
task_file ∈ task_files →
scoped epic_dirs m →
scoped epic_dirs (map_task (Tree.story_dir_name story_dir) m task_file).
Proof.
intros He Hs Hsd Ht Htf H. unfold map_task.
destruct (is_nil _) eqn:En; [done|]. apply is_nil_false in En. cbv zeta.
assert (task_key_of epic_dirs (Tree.story_dir_name story_dir)
          (extract_jira_key (Tree.file_content task_file))) as Hk.
{ by exists epic_dir, story_dirs, story_dir, task_files, task_file. }
assert (scoped epic_dirs
          match match_task_name (Tree.file_name task_file) with
          | Some digits =>
              set_task_tuple
                (Tree.story_dir_name story_dir, "T" :: or_str (lstrip_zeros digits) (py "1"))
                (extract_jira_key (Tree.file_content task_file)) m
          | None => m
          end) as H'.
{ destruct (match_task_name _); [by apply scoped_set_task_tuple|done]. }
destruct (search_line task_id_header true _); [|done].
destruct (is_nil _); [by apply scoped_set_task|].
by apply scoped_set_task_tuple, scoped_set_task.
Qed.

Lemma scoped_map_story epic_dir story_dirs story_dir m :
epic_dir ∈ epic_dirs → Tree.stories_dir epic_dir = Some story_dirs →
story_dir ∈ story_dirs →
scoped epic_dirs m →
scoped epic_dirs (map_story (Tree.epic_dir_name epic_dir) m story_dir).
Proof.
intros He Hs Hsd H. unfold map_story.
destruct (Tree.story_files story_dir) as [|story_file ?] eqn:Ef; [done|]. cbv zeta.
set (k := extract_jira_key (Tree.file_content story_file)) in *.
assert (is_nil k = false → story_key_of epic_dirs (Tree.epic_dir_name epic_dir) k) as Hk.
{ intros En. apply is_nil_false in En.
  exists epic_dir, story_dirs, story_dir, story_file. rewrite Ef. by repeat split. }
set (m1 := set_story (Tree.story_dir_name story_dir) k m).
assert (scoped epic_dirs m1) as H1 by done.
set (m2 := match match_digits (Tree.story_dir_name story_dir) with
           | Some digits => if is_nil k then m1 else _ | None => m1 end).
assert (scoped epic_dirs m2) as H2.
{ unfold m2. destruct (match_digits _); [|done].
  destruct (is_nil k); [done|]. by apply scoped_set_short_forms; [apply Hk|]. }
set (m3 := match search_line story_id_header true (Tree.file_content story_file) with
           | Some story_id => if is_nil k then m2 else _ | None => m2 end).
assert (scoped epic_dirs m3) as H3.
{ unfold m3. destruct (search_line _ _ _); [|done].
  destruct (is_nil k); [done|].
  by apply scoped_set_short_forms; [apply Hk|apply scoped_set_story]. }
destruct (Tree.tasks_dir story_dir) as [task_files|] eqn:Et; [|done].
apply fold_left_inv_elem; [|done]. intros m' tf Htf Hm'.
by eapply scoped_map_task.
Qed.

Lemma scoped_map_epic_dir m epic_dir :
epic_dir ∈ epic_dirs → scoped epic_dirs m → scoped epic_dirs (map_epic_dir m epic_dir).
Proof.
intros He H. unfold map_epic_dir.
pose proof (scoped_map_epic epic_dir m H) as H'.
destruct (Tree.stories_dir epic_dir) as [story_dirs|] eqn:Es; [|done].
apply fold_left_inv_elem; [|done]. intros m' sd Hsd Hm'.
by eapply scoped_map_story.
Qed.

Lemma scoped_build : scoped epic_dirs (build_complete_mapping epic_dirs).
Proof.
unfold build_complete_mapping. apply fold_left_inv_elem.
- intros m ed Hed Hm. by apply scoped_map_epic_dir.
- split; intros ? ? ?; simpl; by rewrite lookup_empty.
Qed.

End Scope.

(** X10: the two scoped lookups of [convert_reference] stay in their
    scope with the tables that the script builds: in the context of
    an epic, a short story reference only resolves to the key of a
    story file in an epic directory of that name, and in the context
    of a story directory a task reference only resolves to the key of
    a task file in a story directory of that name. *)
Theorem complete_mapping_scoped epic_dirs ref ctx k :
  let m := build_complete_mapping epic_dirs in
  (story_in_epic ref m ctx = Some k →
   ∃ e, ctx ≫= epic_name = Some e ∧ story_key_of epic_dirs e k)
  ∧ (task_in_story ref m ctx = Some k →
     ∃ d, ctx ≫= story_dir_name = Some d ∧ task_key_of epic_dirs d k).
Proof.
  intros m. destruct (scoped_build epic_dirs) as [H1 H2]. fold m in H1, H2. split.
  - unfold story_in_epic. destruct (ctx ≫= epic_name) as [[|c e]|]; [done| |done].
    intros H. exists (c :: e). split; [done|].
    repeat match type of H with
           | context [if ?b then _ else _] => destruct b
           | context [stories_by_epic m !! ?x] =>
               let E := fresh "E" in
               destruct (stories_by_epic m !! x) eqn:E;
               [try (apply H1 in E)|]
           end; simplify_eq; try done.
  - unfold task_in_story. destruct (ctx ≫= story_dir_name) as [d|]; [|done].
    intros H. exists d. split; [done|]. by apply H2 in H.
Qed.

(** *** The short form of an epic directory *)

Lemma epics_map_task d m task_file : epics (map_task d m task_file) = epics m.
Proof.
  unfold map_task. destruct (is_nil _); [done|]. cbv zeta.
  destruct (search_line task_id_header true _);
    [destruct (is_nil _)|]; by destruct (match_task_name _).
Qed.

Lemma epics_fold_map_task d task_files m :
  epics (fold_left (map_task d) task_files m) = epics m.
Proof.
  revert m. induction task_files as [|tf l IH]; intros m; [done|].
  simpl. by rewrite IH, epics_map_task.
Qed.

Lemma epics_map_story e m story_dir : epics (map_story e m story_dir) = epics m.
Proof.
  unfold map_story. destruct (Tree.story_files story_dir) as [|f ?]; [done|]. cbv zeta.
  destruct (Tree.tasks_dir story_dir) as [tfs|];
    [rewrite (epics_fold_map_task _ tfs)|];
    (destruct (search_line story_id_header true _);
     destruct (match_digits _); try destruct (is_nil _); done).
Qed.

Lemma epics_fold_map_story e story_dirs m :
  epics (fold_left (map_story e) story_dirs m) = epics m.
Proof.
  revert m. induction story_dirs as [|sd l IH]; intros m; [done|].
  simpl. by rewrite IH, epics_map_story.
Qed.

Lemma epics_map_epic_dir m epic_dir :
  epics (map_epic_dir m epic_dir) = epics (map_epic epic_dir m).
Proof.
  unfold map_epic_dir. destruct (Tree.stories_dir epic_dir); [|done].
  apply epics_fold_map_story.
Qed.

Lemma match_key_dash s : match_key s = true → "-" ∈ s.
Proof.
  unfold match_key. destruct (span is_upper_az s) as [a b] eqn:E.
  destruct (span_spec _ _ _ _ E) as [-> _].
  destruct a; [done|]. destruct b as [|c b]; [done|].
  destruct (decide (c = "-")) as [->|Hne].
  - intros _. apply elem_of_app. right. by left.
  - intros H. exfalso.
    destruct c as [[] [] [] [] [] [] [] []]; try done.
Qed.

(** X11: an epic directory [EPIC-n-...] with a key registers [n] alone in
    the table of the epics.  When it is the last such directory read,
    the reference [n] resolves to the key of this epic in every
    context: the table of the epics is looked up first, so the story
    numbered [n] of the epic of the context is never reached. *)
Theorem epic_short_form_shadows epic_dirs epic_dir n rest content ctx :
  Tree.epic_dir_name epic_dir = py "EPIC-" ++ n ++ "-" :: rest →
  "-" ∉ n →
  Tree.readme epic_dir = Some content →
  extract_jira_key content ≠ [] →
  clean n → is_none_value n = false →
  let m := build_complete_mapping (epic_dirs ++ [epic_dir]) in
  epics m !! n = Some (extract_jira_key content)
  ∧ convert_reference n m ctx = (extract_jira_key content, true).
Proof.
  intros Hname Hn Hr Hk Hc Hnone m.
  assert (epics m !! n = Some (extract_jira_key content)) as He.
  { unfold m, build_complete_mapping. rewrite fold_left_app. simpl.
    rewrite epics_map_epic_dir. unfold map_epic. rewrite Hr.
    destruct (is_nil (extract_jira_key content)) eqn:En;
      [by destruct (extract_jira_key content)|]. cbv zeta.
    rewrite Hname. change (py "EPIC-" ++ n ++ "-" :: rest)
      with ("E" :: "P" :: "I" :: "C" :: "-" :: (n ++ "-" :: rest)).
    cbn [startswith py list_ascii_of_string Ascii.eqb Bool.eqb andb drop].
    rewrite !drop_0.
    rewrite bool_decide_true by (apply elem_of_app; right; by left).
    rewrite split_app_sep by done. simpl. by rewrite lookup_insert_eq. }
  split; [done|].
  unfold convert_reference. rewrite (clean_strip n Hc).
  assert (is_jira_key n = false) as ->.
  { unfold is_jira_key. rewrite (clean_strip n Hc).
    destruct (match_key n) eqn:E; [|done]. by apply match_key_dash in E. }
  rewrite Hnone. unfold lookups, epic_lookup. by rewrite He.
Qed.

Lemma epic_short_form_shadows_witness :
  epics (build_complete_mapping [platform_epic]) !! py "1" = Some (py "ARGUS-1")
  ∧ convert_reference (py "1") (build_complete_mapping [platform_epic]) platform_ctx
    = (py "ARGUS-1", true).
Proof.
  apply (epic_short_form_shadows [] platform_epic (py "1") (py "PLATFORM")
           (py "# EPIC-1: Platform
| JIRA Key | ARGUS-1 |
") platform_ctx); try done.
  - by apply (bool_decide_unpack _).
Defined.

Example platform_mapping :
  let m := build_complete_mapping [platform_epic] in
  epics m !! py "EPIC-1-PLATFORM" = Some (py "ARGUS-1")
  ∧ epics m !! py "1-PLATFORM" = Some (py "ARGUS-1")
  ∧ epics m !! py "1" = Some (py "ARGUS-1")
  ∧ stories m !! py "01-backup" = Some (py "ARGUS-2")
  ∧ stories m !! py "PLAT-001" = Some (py "ARGUS-2")
  ∧ stories_by_epic m !! (py "EPIC-1-PLATFORM", py "1") = Some (py "ARGUS-2")
  ∧ stories_by_epic m !! (py "EPIC-1-PLATFORM", py "S1") = Some (py "ARGUS-2")
  ∧ tasks m !! py "PLAT-001-T1" = Some (py "ARGUS-3")
  ∧ task_tuples m !! (py "01-backup", py "T1") = Some (py "ARGUS-3")
  ∧ story_in_epic (py "S1") m platform_ctx = Some (py "ARGUS-2")
  ∧ convert_reference (py "S1") m platform_ctx = (py "ARGUS-2", true)
  ∧ convert_reference (py "T1") m platform_ctx = (py "ARGUS-3", true).
Proof. by vm_compute. Qed.

Lemma complete_mapping_rewrite_witness :
  (fix_references_in_content platform_story (build_complete_mapping [platform_epic])
     platform_ctx None).1.1
  = py "# PLAT-002: Restore
| JIRA Key | ARGUS-4 |
| Depends On | ARGUS-2, PLAT-001 |
| Requires | ARGUS-3 |
"
  ∧ outside_rows_kept default_field_names platform_story
      (fix_references_in_content platform_story (build_complete_mapping [platform_epic])
         platform_ctx None).1.1
  ∧ (fix_references_in_content
       (fix_references_in_content platform_story (build_complete_mapping [platform_epic])
          platform_ctx None).1.1
       (build_complete_mapping [platform_epic]) platform_ctx None).1.1
    = (fix_references_in_content platform_story (build_complete_mapping [platform_epic])
         platform_ctx None).1.1.
Proof.
  split; [by vm_compute|].
  destruct (complete_mapping_rewrite [platform_epic] platform_story platform_ctx None)
    as [H1 H2]; [done|].
  split; [exact H1|]. apply H2.
  intros F HF. simpl in HF.
  repeat (apply elem_of_cons in HF as [->|HF]; [by vm_compute|]).
  by apply elem_of_nil in HF.
Defined.

End Mapping.

Section ConvertedRefs.
Import Str Re PostImportFix.

Lemma extract_key_shape content k :
  ConvertAllRefs.extract_jira_key content = Some k → key_shape k = true.
Proof. intros H. by destruct (search_jira_key_shape _ _ H). Qed.

Section StoryMapValues.
Import Corpus ConvertAllRefs.

Lemma story_entry_values m sd :
map_Forall (λ _ v, key_shape v = true) m →
map_Forall (λ _ v, key_shape v = true) (story_entry m sd).
Proof.
intros H. unfold story_entry. destruct (story_files sd) as [|content ?]; [done|].
destruct (search_header true content); [|done].
destruct (extract_jira_key content) as [k|] eqn:E; [|done].
apply extract_key_shape in E. by repeat apply map_Forall_insert_2.
Qed.

Lemma build_story_jira_map_values epics_dir :
map_Forall (λ _ v : str, key_shape v = true) (build_story_jira_map epics_dir).
Proof.
unfold build_story_jira_map. apply fold_left_inv_elem; [|apply map_Forall_empty].
intros m ed _ Hm. destruct (stories_dir ed); [|done].
apply fold_left_inv_elem; [|done]. intros. by apply story_entry_values.
Qed.

Context (story_map : gmap str str).
Hypothesis Hsm : map_Forall (λ _ v, key_or_empty v) story_map.

Lemma story_ref_keeps_or_key t :
clean t → story_ref story_map t = t ∨ key_or_empty (story_ref story_map t).
Proof.
intros _. unfold story_ref. destruct (story_map !! t) eqn:E; [right; exact (Hsm _ _ E)|].
destruct (startswith _ _); [|by left].
destruct (story_map !! drop 1 t) eqn:E'; [right; exact (Hsm _ _ E')|by left].
Qed.

Lemma replace_story_field_groups lab cell st :
cell ≠ [] →
replace_story_field story_map (field_groups lab cell) st =
("|" :: lab ++ "|" :: rewrite_story_cell story_map cell ++ ["|"], st).
Proof.
intros Hne. destruct (field_groups_spec lab cell Hne) as (g & -> & Hg & Hs).
unfold replace_story_field, rewrite_story_cell, rewrite_with.
rewrite (tokens_of_group g cell Hs). f_equal.
by repeat (rewrite <- ?app_assoc; simpl; try f_equal).
Qed.

Lemma convert_story_refs_cells content :
cells (convert_story_refs content story_map) =
fold_left (pass (rewrite_story_cell story_map)) [py "Depends On"; py "Blocks"]
          (cells content).
Proof.
unfold convert_story_refs. simpl.
rewrite (re_sub_field_cells _ _ (rewrite_story_cell story_map)).
- f_equal. apply (re_sub_field_cells _ _ (rewrite_story_cell story_map)).
  + intros lab cell st Hne. by rewrite replace_story_field_groups.
  + apply rewrite_with_nobar, story_ref_keeps_or_key.
- intros lab cell st Hne. by rewrite replace_story_field_groups.
- apply rewrite_with_nobar, story_ref_keeps_or_key.
Qed.

Lemma story_labels_good : Forall good_label [py "Depends On"; py "Blocks"].
Proof.
pose proof default_labels_good as H.
inversion H as [|? ? H1 H2]; subst. inversion H2 as [|? ? H3 H4]; subst.
constructor; [done|]. constructor; [done|]. constructor.
Qed.

Lemma convert_story_refs_frame content :
outside_rows_kept [py "Depends On"; py "Blocks"] content
  (convert_story_refs content story_map).
Proof.
unfold outside_rows_kept. rewrite convert_story_refs_cells.
apply (passes_frame (rewrite_story_cell story_map) [py "Depends On"; py "Blocks"]).
- intros G c HG. apply rewrite_with_label_inv; [apply story_ref_keeps_or_key|].
  pose proof story_labels_good as H. rewrite Forall_forall in H. by apply H.
- done.
- done.
- intros j c G _ Hj Hc. eauto.
- intros j. by left.
Qed.

End StoryMapValues.

(** X12: every value of the map of [build_story_jira_map] is shaped like a
    remote key, and with this map [convert_story_refs] keeps every
    bar and every cell of a document that does not stand behind a
    label cell [Depends On] or [Blocks]. *)
Theorem story_map_rewrite_frame epics_dir content :
  map_Forall (λ _ v : str, key_shape v = true) (ConvertAllRefs.build_story_jira_map epics_dir)
  ∧ outside_rows_kept [py "Depends On"; py "Blocks"] content
      (ConvertAllRefs.convert_story_refs content
         (ConvertAllRefs.build_story_jira_map epics_dir)).
Proof.
  split; [apply build_story_jira_map_values|].
  apply convert_story_refs_frame.
  eapply map_Forall_impl; [apply build_story_jira_map_values|].
  intros ? ? ?. by left.
Qed.

(** *** The task map *)

Section TaskMapScope.
Import Corpus TaskMap.
Context (epics_dir : list EpicDir).

Definition task_map_ok (m : gmap (str * str) str) : Prop :=
∀ d t k, m !! (d, t) = Some k → key_shape k = true ∧ task_file_key_of epics_dir d k.

Lemma task_entry_ok epic_dir story_dirs sd task_files content m :
epic_dir ∈ epics_dir → stories_dir epic_dir = Some story_dirs →
sd ∈ story_dirs → tasks_dir sd = Some task_files → content ∈ task_files →
task_map_ok m → task_map_ok (task_entry (story_dir_name sd) m content).
Proof.
intros He Hs Hsd Ht Hc Hm. unfold task_entry.
destruct (Header.search_line task_header true content) as [num|]; [|done].
destruct (ConvertAllRefs.extract_jira_key content) as [k|] eqn:E; [|done].
intros d t k'. destruct (decide ((story_dir_name sd, num) = (d, t))) as [[= <- <-]|Hne].
- rewrite lookup_insert_eq. intros [= <-]. split; [by eapply extract_key_shape|].
  by exists epic_dir, story_dirs, sd, task_files, content.
- rewrite lookup_insert_ne by done. apply Hm.
Qed.

Lemma build_task_jira_map_ok : task_map_ok (build_task_jira_map epics_dir).
Proof.
unfold build_task_jira_map. apply fold_left_inv_elem.
- intros m ed Hed Hm. destruct (stories_dir ed) as [sds|] eqn:Es; [|done].
  apply fold_left_inv_elem; [|done]. intros m' sd Hsd Hm'.
  unfold story_tasks. destruct (tasks_dir sd) as [tfs|] eqn:Et; [|done].
  apply fold_left_inv_elem; [|done]. intros m'' c Hc Hm''.
  by eapply task_entry_ok.
- intros ? ? ?. by rewrite lookup_empty.
Qed.

End TaskMapScope.

Lemma sub_field_ext {S} F (repl repl' : str * str * str → S → str * S) l st :
  (∀ g st, repl g st = repl' g st) → sub_field F repl l st = sub_field F repl' l st.
Proof.
  intros H. revert st.
  induction l as [|a|a b IH|lab cell nxt rest IH1 IH2] using row_ind; intros st.
  - done.
  - done.
  - done.
  - change (sub_field F repl (lab :: cell :: nxt :: rest) st) with
      (if is_label F lab && negb (is_nil cell)
       then let '(out, st1) := repl (field_groups lab cell) st in
            let '(tl, st2) := sub_field F repl rest st1 in
            (out ++ nxt ++ tl, st2)
       else let '(tl, st1) := sub_field F repl (cell :: nxt :: rest) st in
            ("|" :: lab ++ tl, st1)).
    change (sub_field F repl' (lab :: cell :: nxt :: rest) st) with
      (if is_label F lab && negb (is_nil cell)
       then let '(out, st1) := repl' (field_groups lab cell) st in
            let '(tl, st2) := sub_field F repl' rest st1 in
            (out ++ nxt ++ tl, st2)
       else let '(tl, st1) := sub_field F repl' (cell :: nxt :: rest) st in
            ("|" :: lab ++ tl, st1)).
    destruct (is_label F lab && negb (is_nil cell)).
    + rewrite H. destruct (repl' (field_groups lab cell) st) as [out st1].
      by rewrite IH1.
    + by rewrite IH2.
Qed.

Lemma re_sub_field_ext {S} F (repl repl' : str * str * str → S → str * S) content st :
  (∀ g st, repl g st = repl' g st) →
  re_sub_field F repl content st = re_sub_field F repl' content st.
Proof.
  intros H. unfold re_sub_field. destruct (cells content); [done|].
  by rewrite (sub_field_ext F repl repl').
Qed.

(** X13: [convert_task_refs] for a story directory reads only the entries
    of the task map that belong to this directory: two maps that
    agree on them give the same content.  And with the map that
    [build_task_jira_map] builds, a token is only rewritten to the
    key of a task file in a story directory of that name. *)
Theorem task_refs_scoped task_map task_map' story_dir_name content :
  (∀ p, task_map !! (story_dir_name, p) = task_map' !! (story_dir_name, p)) →
  ConvertAllRefs.convert_task_refs content task_map story_dir_name
  = ConvertAllRefs.convert_task_refs content task_map' story_dir_name
  ∧ ∀ epics_dir p,
      ConvertAllRefs.task_ref (TaskMap.build_task_jira_map epics_dir) story_dir_name p = p
      ∨ key_shape (ConvertAllRefs.task_ref (TaskMap.build_task_jira_map epics_dir)
                     story_dir_name p) = true
        ∧ task_file_key_of epics_dir story_dir_name
            (ConvertAllRefs.task_ref (TaskMap.build_task_jira_map epics_dir)
               story_dir_name p).
Proof.
  intros H. split.
  - assert (∀ g st, ConvertAllRefs.replace_task_field task_map story_dir_name g st
                    = ConvertAllRefs.replace_task_field task_map' story_dir_name g st) as E.
    { intros [[prefix refs] suffix] st. unfold ConvertAllRefs.replace_task_field.
      destruct (_ || _); [done|].
      assert (map (ConvertAllRefs.task_ref task_map story_dir_name) (map strip (split "," refs))
              = map (ConvertAllRefs.task_ref task_map' story_dir_name)
                    (map strip (split "," refs))) as ->; [|done].
      apply map_ext. intros p. unfold ConvertAllRefs.task_ref. by rewrite H. }
    unfold ConvertAllRefs.convert_task_refs. cbv zeta.
    rewrite (re_sub_field_ext _ _ _ content tt E).
    by rewrite (re_sub_field_ext _ _ _ _ tt E).
  - intros epics_dir p. unfold ConvertAllRefs.task_ref.
    destruct (TaskMap.build_task_jira_map epics_dir !! (story_dir_name, p)) as [k|] eqn:E;
      [|by left].
    right. by apply (build_task_jira_map_ok epics_dir) in E.
Qed.

Lemma task_refs_scoped_witness :
  ConvertAllRefs.convert_task_refs task_doc
    {[ (py "01-login", py "T1") := py "ARGUS-7"; (py "02-logout", py "T1") := py "ARGUS-9" ]}
    (py "01-login")
  = ConvertAllRefs.convert_task_refs task_doc
      {[ (py "01-login", py "T1") := py "ARGUS-7" ]} (py "01-login").
Proof.
  apply (task_refs_scoped
           {[ (py "01-login", py "T1") := py "ARGUS-7";
              (py "02-logout", py "T1") := py "ARGUS-9" ]}
           {[ (py "01-login", py "T1") := py "ARGUS-7" ]} (py "01-login") task_doc).
  intros p. destruct (decide (p = py "T1")) as [->|Hne].
  - by vm_compute.
  - rewrite lookup_insert_ne by congruence.
    rewrite !lookup_singleton_ne by congruence. done.
Defined.

Example task_doc_converted :
  ConvertAllRefs.convert_task_refs task_doc
    {[ (py "01-login", py "T1") := py "ARGUS-7"; (py "02-logout", py "T1") := py "ARGUS-9" ]}
    (py "01-login")
  = py "# AUTH-001-1-T2: Form
| Requires | ARGUS-7 |
| JIRA Key | ARGUS-8 |
".
Proof. by vm_compute. Qed.

End ConvertedRefs.

Section Fixes.
Import Str Re PostImportFix Header FixFiles.

Ltac effect :=
  first [ done
        | lia
        | by intros p Hp; rewrite lookup_insert_ne
        | by intros; rewrite lookup_insert_eq
        | intros;
          repeat match goal with
                 | b : bool |- _ => destruct b
                 | k : kind |- _ => destruct k
                 end; simpl; lia ].

Lemma update_issue_sent c :
  (sent c ≤ sent (update_issue c).2 ≤ sent c + 3)%nat.
Proof.
  unfold update_issue. destruct (enabled c); cbn [negb]; [|cbn [snd]; lia].
  pose proof (attempts_sent 3 0 c) as H.
  destruct (attempts 3 0 c) as [[?|?] c']; cbn [snd] in *; lia.
Qed.

Lemma fix_file_effects k label field_names context fs file_path content mapping
    client res dry_run :
  fix_effects file_path content
    (fix_references_in_content content mapping context (Some field_names)).1.1
    dry_run fs client res
    (fix_file k label field_names context fs file_path content mapping client res dry_run).
Proof.
  unfold fix_file.
  destruct (fix_references_in_content content mapping context (Some field_names))
    as [[fixed n] unresolved]. cbn [fst snd].
  pose proof (update_issue_sent client) as Hsent.
  unfold fix_effects.
  case_bool_decide as Hch; cbn [andb negb].
  - destruct dry_run; cbn [negb andb].
    + rewrite andb_false_r. cbn [fst snd].
      repeat split; effect.
    + rewrite andb_true_r.
      destruct (is_nil (extract_jira_key content)) eqn:En; cbn [negb andb].
      * cbn [fst snd]. repeat split; effect.
      * destruct (update_issue client) as [ok client']. cbn [fst snd] in *.
        repeat split; try effect.
        intros E. by rewrite E in En.
  - subst fixed. rewrite andb_false_r. cbn [andb fst snd].
    repeat split; effect.
Qed.

(** X14: [fix_epic], [fix_story] and [fix_task] of jira-post-import-fix.py
    write no file but their own, and write nothing and send nothing
    in a dry run or when the rewrite leaves the content as it is; a
    changed content is written as rewritten and counted once, also in
    a dry run; a file without a key sends nothing, and no call sends
    more than three requests.  [fix_epic] does nothing for a missing
    README, while [fix_story] and [fix_task] raise for a missing
    file. *)
Theorem fix_files_effects fs file_path stem story_dir_name epic_dir_name mapping client res
    dry_run epic_name :
  match fs !! file_path with
  | Some content =>
      (∃ out, fix_story fs file_path stem mapping client res dry_run epic_name = Return out
         ∧ fix_effects file_path content
             (fix_references_in_content content mapping (story_context epic_name)
                (Some [py "Depends On"; py "Blocks"])).1.1
             dry_run fs client res out)
      ∧ (∃ out, fix_task fs file_path stem story_dir_name mapping client res dry_run epic_name
                = Return out
           ∧ fix_effects file_path content
               (fix_references_in_content content mapping
                  (Some {| epic_name := epic_name;
                           PostImportFix.story_dir_name := Some story_dir_name |})
                  (Some [py "Requires"; py "Unlocks"])).1.1
               dry_run fs client res out)
      ∧ fix_effects file_path content
          (fix_references_in_content content mapping None
             (Some [py "Depends On"; py "Blocks"])).1.1
          dry_run fs client res
          (fix_epic fs file_path epic_dir_name mapping client res dry_run)
  | None =>
      fix_story fs file_path stem mapping client res dry_run epic_name = Raise FileNotFound
      ∧ fix_task fs file_path stem story_dir_name mapping client res dry_run epic_name
        = Raise FileNotFound
      ∧ fix_epic fs file_path epic_dir_name mapping client res dry_run = (fs, client, res)
  end.
Proof.
  unfold fix_story, fix_task, fix_epic.
  destruct (fs !! file_path) as [content|]; [|done].
  split; [|split].
  - eexists. split; [done|]. apply fix_file_effects.
  - eexists. split; [done|]. apply fix_file_effects.
  - apply fix_file_effects.
Qed.

(** *** Fixing a file again *)

Lemma fix_file_fixed k label field_names context fs file_path content mapping
    client res dry_run :
  (fix_references_in_content content mapping context (Some field_names)).1.1 = content →
  ∃ res',
    fix_file k label field_names context fs file_path content mapping client res dry_run
    = (fs, client, res')
    ∧ epics_fixed res' = epics_fixed res ∧ stories_fixed res' = stories_fixed res
    ∧ tasks_fixed res' = tasks_fixed res ∧ jira_updated res' = jira_updated res.
Proof.
  intros H. unfold fix_file.
  destruct (fix_references_in_content content mapping context (Some field_names))
    as [[fixed n] unresolved]. cbn [fst snd] in *. subst fixed.
  rewrite bool_decide_false by (by intros ?). rewrite andb_false_r. cbn [andb].
  eexists. split; [done|]. done.
Qed.

(** X15: after [fix_story] has fixed a file, with tables whose values are
    remote keys or empty and which do not convert [Depends On] and
    [Blocks] themselves, fixing the same file again with the same tables writes
    nothing, sends nothing and counts nothing as fixed. *)
Theorem fix_story_again fs story_file stem mapping client res epic_name out content :
  values_ok mapping →
  (∀ F, F ∈ [py "Depends On"; py "Blocks"] →
        (convert_reference F mapping (story_context epic_name)).2 = false) →
  fs !! story_file = Some content →
  fix_story fs story_file stem mapping client res false epic_name = Return out →
  ∃ res',
    fix_story out.1.1 story_file stem mapping out.1.2 out.2 false epic_name
    = Return (out.1.1, out.1.2, res')
    ∧ stories_fixed res' = stories_fixed out.2
    ∧ jira_updated res' = jira_updated out.2.
Proof.
  intros Hm Hl Hf Hout. unfold fix_story in Hout. rewrite Hf in Hout.
  injection Hout as Hout.
  match type of Hout with
  | fix_file ?k ?label ?names ?context _ _ _ _ _ _ _ = _ =>
      pose proof (fix_file_effects k label names context fs story_file content mapping
                    client res false) as (_ & _ & Hsame & Hwrite & _);
      assert (∀ c, (fix_references_in_content c mapping context (Some names)).1.1 = c →
                ∀ label' fs' client' res',
                ∃ res'', fix_file k label' names context fs' story_file c mapping
                           client' res' false = (fs', client', res'')
                  ∧ epics_fixed res'' = epics_fixed res'
                  ∧ stories_fixed res'' = stories_fixed res'
                  ∧ tasks_fixed res'' = tasks_fixed res'
                  ∧ jira_updated res'' = jira_updated res') as Hagain;
      [|assert (∀ c, (fix_references_in_content
                        (fix_references_in_content c mapping context (Some names)).1.1
                        mapping context (Some names)).1.1
                     = (fix_references_in_content c mapping context (Some names)).1.1)
          as Hidem]
  end.
  { intros c Hc label' fs' client' res'. by apply fix_file_fixed. }
  { intros c. apply fix_idempotent; [done| |].
    - intros x Hx. simpl in Hx.
      apply elem_of_cons in Hx as [->|Hx]; [by left|].
      apply elem_of_cons in Hx as [->|Hx]; [right; by left|].
      by apply elem_of_nil in Hx.
    - intros F HF. by apply Hl. }
  rewrite Hout in Hsame, Hwrite.
  match type of Hwrite with
  | ?fixed ≠ _ → _ =>
      assert (∃ content', out.1.1 !! story_file = Some content'
                ∧ (content' = content ∧ fixed = content ∨ content' = fixed))
        as (content' & Hf' & Hc')
  end.
  { match type of Hwrite with
    | ?fixed ≠ _ → _ => destruct (decide (fixed = content)) as [E|E]
    end.
    - destruct (Hsame E) as (-> & _). exists content. split; [done|]. by left.
    - eexists. split; [by apply Hwrite|]. by right. }
  unfold fix_story. rewrite Hf'.
  specialize (Hagain content').
  match type of Hagain with
  | ?P → _ => assert P as Hfixed by (destruct Hc' as [[-> E]| ->]; [done|apply Hidem])
  end.
  match goal with
  | |- ∃ _, Return (fix_file _ ?l _ _ ?f _ _ _ ?c ?r _) = _ ∧ _ =>
      destruct (Hagain Hfixed l f c r) as (res'' & E & _ & H1 & _ & H2)
  end.
  exists res''. split; [|done]. f_equal. exact E.
Qed.

Lemma fix_story_again_witness :
  ∃ res',
    fix_story {[ py "story-02.md" :=
                   (fix_references_in_content story_doc table_S1 ctx_X
                      (Some [py "Depends On"; py "Blocks"])).1.1 ]}
      (py "story-02.md") (py "story-02") table_S1
      (exchanged linked_client) (bump_updated (bump_fixed KStory no_result))
      false (Some (py "EPIC-X"))
    = Return ({[ py "story-02.md" :=
                   (fix_references_in_content story_doc table_S1 ctx_X
                      (Some [py "Depends On"; py "Blocks"])).1.1 ]},
              exchanged linked_client, res')
    ∧ stories_fixed res' = 1%nat ∧ jira_updated res' = 1%nat.
Proof.
  destruct (fix_story_again story_fs (py "story-02.md") (py "story-02") table_S1
              linked_client no_result (Some (py "EPIC-X"))
              ({[ py "story-02.md" :=
                    (fix_references_in_content story_doc table_S1 ctx_X
                       (Some [py "Depends On"; py "Blocks"])).1.1 ]},
               exchanged linked_client, bump_updated (bump_fixed KStory no_result))
              story_doc)
    as (res' & E & H1 & H2).
  - exact table_S1_ok.
  - intros F HF.
    repeat (apply elem_of_cons in HF as [->|HF]; [by vm_compute|]).
    by apply elem_of_nil in HF.
  - done.
  - by vm_compute.
  - exists res'. by repeat split.
Defined.

End Fixes.

Section Validation.
Import Str Re PostImportFix Header Validate.

Lemma count_ref_balanced label field acc ref :
  balanced acc → balanced (count_ref label field acc ref).
Proof.
  destruct acc as [[total jira] non_jira]. unfold balanced, count_ref. simpl.
  destruct (is_jira_key (strip ref)); simpl; rewrite ?length_app; simpl; lia.
Qed.

Lemma validate_field_balanced label content acc field :
  balanced acc → balanced (validate_field label content acc field).
Proof.
  intros H. unfold validate_field.
  destruct (search_field field _) as [[[? g] ?]|]; [|done].
  destruct (is_none_value _); [done|].
  apply fold_left_inv_elem; [|done]. intros. by apply count_ref_balanced.
Qed.

Lemma validate_doc_balanced label fields content acc :
  balanced acc → balanced (validate_doc label fields content acc).
Proof.
  intros H. unfold validate_doc.
  apply fold_left_inv_elem; [|done]. intros. by apply validate_field_balanced.
Qed.

Lemma validate_story_dir_balanced acc story_dir :
  balanced acc → balanced (validate_story_dir acc story_dir).
Proof.
  intros H. unfold validate_story_dir.
  assert (balanced
            match Tree.story_files story_dir with
            | [] => acc
            | story_file :: _ =>
                validate_doc
                  (py "Story " ++ default (Tree.story_dir_name story_dir)
                     (search_line story_id_header_2 true (Tree.file_content story_file)))
                  [py "Depends On"; py "Blocks"] (Tree.file_content story_file) acc
            end) as H'.
  { destruct (Tree.story_files story_dir); [done|]. by apply validate_doc_balanced. }
  destruct (Tree.tasks_dir story_dir); [|done].
  apply fold_left_inv_elem; [|done]. intros. unfold validate_task.
  by apply validate_doc_balanced.
Qed.

Lemma validate_epic_dir_balanced acc epic_dir :
  balanced acc → balanced (validate_epic_dir acc epic_dir).
Proof.
  intros H. unfold validate_epic_dir.
  assert (balanced
            match Tree.readme epic_dir with
            | None => acc
            | Some content =>
                validate_doc (py "Epic " ++ Tree.epic_dir_name epic_dir)
                  [py "Depends On"; py "Blocks"] content acc
            end) as H'.
  { destruct (Tree.readme epic_dir); [|done]. by apply validate_doc_balanced. }
  destruct (Tree.stories_dir epic_dir); [|done].
  apply fold_left_inv_elem; [|done]. intros. by apply validate_story_dir_balanced.
Qed.

(** *** One document *)

Lemma count_refs_tokens label field refs total jira non_jira :
  let out := fold_left (count_ref label field) refs (total, jira, non_jira) in
  out.1.1 = (total + length refs)%nat
  ∧ out.1.2 = (jira + length (filter (λ t, is_jira_key t = true) (map strip refs)))%nat
  ∧ out.2 = non_jira
            ++ map (λ t, label ++ py " " ++ field ++ py ": " ++ t)
                 (filter (λ t, is_jira_key t ≠ true) (map strip refs)).
Proof.
  revert total jira non_jira. induction refs as [|ref refs IH]; intros total jira non_jira.
  - simpl. rewrite app_nil_r. repeat split; lia.
  - cbn [fold_left count_ref map]. rewrite !filter_cons.
    destruct (is_jira_key (strip ref)) eqn:E.
    + destruct (IH (S total) (S jira) non_jira) as (H1 & H2 & H3).
      rewrite decide_True by done. rewrite decide_False by (by intros ?).
      cbv zeta in *. rewrite H1, H2, H3. simpl. repeat split; lia.
    + destruct (IH (S total) jira
                  (non_jira ++ [label ++ py " " ++ field ++ py ": " ++ strip ref]))
        as (H1 & H2 & H3).
      rewrite decide_False by done. rewrite decide_True by done.
      cbv zeta in *. rewrite H1, H2, H3. simpl. rewrite <- app_assoc.
      repeat split; lia.
Qed.

Lemma validate_field_tokens label content field total jira non_jira :
  let r := validate_field label content (total, jira, non_jira) field in
  let toks := field_tokens content field in
  r.1.1 = (total + length toks)%nat
  ∧ r.1.2 = (jira + length (filter (λ t, is_jira_key t = true) toks))%nat
  ∧ length r.2
    = (length non_jira + length (filter (λ t, is_jira_key t ≠ true) toks))%nat.
Proof.
  unfold validate_field, field_tokens.
  destruct (search_field field _) as [[[p g] sfx]|]; [|simpl; repeat split; lia].
  destruct (is_none_value (strip g)); [simpl; repeat split; lia|].
  pose proof (count_refs_tokens label field (split "," (strip g)) total jira non_jira)
    as (H1 & H2 & H3). cbv zeta in *.
  rewrite H1, H2, H3, length_app, !length_map. repeat split; lia.
Qed.

Lemma validate_fields_tokens label content fields total jira non_jira :
  let r := fold_left (validate_field label content) fields (total, jira, non_jira) in
  let toks := validated_tokens fields content in
  r.1.1 = (total + length toks)%nat
  ∧ r.1.2 = (jira + length (filter (λ t, is_jira_key t = true) toks))%nat
  ∧ length r.2
    = (length non_jira + length (filter (λ t, is_jira_key t ≠ true) toks))%nat.
Proof.
  revert total jira non_jira.
  induction fields as [|field fields IH]; intros total jira non_jira.
  - simpl. repeat split; lia.
  - cbn [fold_left]. unfold validated_tokens. cbn [flat_map].
    fold (validated_tokens fields content).
    pose proof (validate_field_tokens label content field total jira non_jira)
      as (H1 & H2 & H3). cbv zeta in *.
    destruct (validate_field label content (total, jira, non_jira) field) as [[t j] n].
    simpl in H1, H2, H3.
    destruct (IH t j n) as (I1 & I2 & I3). cbv zeta in *.
    rewrite I1, I2, I3, H1, H2, H3, !filter_app, !length_app. repeat split; lia.
Qed.

(** X16: [validate_all_refs] counts every reference once: the total is
    the number of keys plus the number of reported references, so
    the report is empty exactly when every counted reference is a
    key.  For one document it counts the tokens of the first row of
    each field, and nothing for a row that holds a none value: the
    keys are the tokens that [is_jira_key] accepts, and the others
    are reported in their order. *)
Theorem validation_counts epic_dirs label fields content :
  let out := validate_all_refs epic_dirs in
  let doc := validate_doc label fields content (0, 0, [])%nat in
  (out.1.1 = out.1.2 + length out.2)%nat
  ∧ (out.2 = [] ↔ out.1.2 = out.1.1)
  ∧ doc.1.1 = length (validated_tokens fields content)
  ∧ doc.1.2 = length (filter (λ t, is_jira_key t = true) (validated_tokens fields content))
  ∧ length doc.2
    = length (filter (λ t, is_jira_key t ≠ true) (validated_tokens fields content)).
Proof.
  intros out doc.
  assert (balanced out) as Hb.
  { unfold out, validate_all_refs. apply fold_left_inv_elem; [|done].
    intros. by apply validate_epic_dir_balanced. }
  unfold balanced in Hb. split; [done|]. split.
  { rewrite Hb. split; [intros ->; simpl; lia|]. intros H.
    destruct out.2; [done|]. simpl in H. lia. }
  unfold doc, validate_doc.
  destruct (validate_fields_tokens label content fields 0 0 [])%nat as (H1 & H2 & H3).
  cbv zeta in *. rewrite H1, H2, H3. done.
Qed.

End Validation.

Section LinkPhase.
Import Str Re SyncLinks.

Lemma fold_left_flat_map {A B C} (f : A → C → A) (g : B → list C) l a :
  fold_left f (flat_map g l) a = fold_left (λ a x, fold_left f (g x) a) l a.
Proof.
  revert a. induction l as [|x l IH]; intros a; [done|].
  simpl. by rewrite fold_left_app, IH.
Qed.

Lemma fold_left_ext_in {A B} (f g : A → B → A) l a :
  (∀ a x, x ∈ l → f a x = g a x) → fold_left f l a = fold_left g l a.
Proof.
  revert a. induction l as [|x l IH]; intros a H; [done|]. simpl.
  rewrite H by (by left). apply IH. intros a' y Hy. apply H. by right.
Qed.

Lemma link_refs_flat p m key w refs :
  link_refs p m key w refs = fold_left link_pair (ref_pairs p m key refs) w.
Proof.
  unfold link_refs, ref_pairs. rewrite fold_left_flat_map.
  apply fold_left_ext_in. intros w' ref _.
  destruct (match_ref p ref) as [n|]; [|done].
  destruct (m !! n) as [k|]; [|done]. by destruct (truthy k).
Qed.

Lemma link_stories_flat w epic :
  link_stories w epic = fold_left link_pair (story_pairs epic) w.
Proof.
  unfold link_stories, story_pairs. rewrite fold_left_flat_map.
  apply fold_left_ext_in. intros w' story _.
  destruct (negb _); [done|]. apply link_refs_flat.
Qed.

Lemma link_tasks_flat w story :
  link_tasks w story = fold_left link_pair (task_pairs story) w.
Proof.
  unfold link_tasks, task_pairs. rewrite fold_left_flat_map.
  apply fold_left_ext_in. intros w' task _.
  destruct (negb _); [done|]. apply link_refs_flat.
Qed.

Lemma link_phase_flat epics w :
  link_phase epics w false = fold_left link_pair (candidates epics) w.
Proof.
  unfold link_phase, candidates. rewrite fold_left_app, !fold_left_flat_map.
  assert (fold_left link_stories epics w
          = fold_left (λ a x, fold_left link_pair (story_pairs x) a) epics w) as ->.
  { apply fold_left_ext_in. intros w' epic _. apply link_stories_flat. }
  apply fold_left_ext_in. intros w' epic _. rewrite fold_left_flat_map.
  apply fold_left_ext_in. intros w'' story _. apply link_tasks_flat.
Qed.

(** *** The pairs are in scope *)

Lemma story_num_to_key_spec stories n k :
  story_num_to_key stories !! n = Some k →
  k ≠ [] ∧ ∃ story, story ∈ stories ∧ story_jira_key story = k ∧ story_num story = n.
Proof.
  unfold story_num_to_key.
  apply (fold_left_inv_elem
           (λ m, m !! n = Some k →
                 k ≠ [] ∧ ∃ story, story ∈ stories ∧ story_jira_key story = k
                                   ∧ story_num story = n)).
  - intros m story Hs IH. destruct (truthy (story_jira_key story)) eqn:E; [|done].
    destruct (decide (story_num story = n)) as [<-|Hne].
    + rewrite lookup_insert_eq. intros [= <-]. split; [by destruct (story_jira_key story)|].
      by exists story.
    + by rewrite lookup_insert_ne.
  - by rewrite lookup_empty.
Qed.

Lemma task_num_to_key_spec tasks n k :
  task_num_to_key tasks !! n = Some k →
  k ≠ [] ∧ ∃ task, task ∈ tasks ∧ task_jira_key task = k ∧ task_num task = n.
Proof.
  unfold task_num_to_key.
  apply (fold_left_inv_elem
           (λ m, m !! n = Some k →
                 k ≠ [] ∧ ∃ task, task ∈ tasks ∧ task_jira_key task = k
                                  ∧ task_num task = n)).
  - intros m task Hs IH. destruct (truthy (task_jira_key task)) eqn:E; [|done].
    destruct (decide (task_num task = n)) as [<-|Hne].
    + rewrite lookup_insert_eq. intros [= <-]. split; [by destruct (task_jira_key task)|].
      by exists task.
    + by rewrite lookup_insert_ne.
  - by rewrite lookup_empty.
Qed.

Lemma ref_pairs_elem p m key refs pr :
  pr ∈ ref_pairs p m key refs →
  pr.2 = key ∧ ∃ ref n, ref ∈ refs ∧ match_ref p ref = Some n ∧ m !! n = Some pr.1.
Proof.
  unfold ref_pairs. rewrite list_elem_of_In, in_flat_map.
  intros (ref & Hr & Hin). apply list_elem_of_In in Hr, Hin.
  destruct (match_ref p ref) as [n|] eqn:E; [|by apply elem_of_nil in Hin].
  destruct (m !! n) as [k|] eqn:E'; [|by apply elem_of_nil in Hin].
  destruct (truthy k); [|by apply elem_of_nil in Hin].
  apply list_elem_of_singleton in Hin as ->. split; [done|]. by exists ref, n.
Qed.

Lemma candidates_in_scope epics p : p ∈ candidates epics → in_scope epics p.
Proof.
  unfold candidates. rewrite elem_of_app, !list_elem_of_In, !in_flat_map.
  intros [(epic & He & Hp)|(epic & He & Hp)].
  - unfold story_pairs in Hp. apply in_flat_map in Hp as (story' & Hs' & Hp).
    apply list_elem_of_In in He, Hs', Hp.
    destruct (truthy (story_jira_key story')) eqn:Et; [|by apply elem_of_nil in Hp].
    cbn [negb] in Hp.
    apply ref_pairs_elem in Hp as (H2 & ref & n & Hr & Hm & Hk).
    apply story_num_to_key_spec in Hk as (Hne & story & Hs & Hkey & Hnum).
    split; [done|]. split; [rewrite H2; by destruct (story_jira_key story')|].
    left. exists epic, story, story'. repeat split; try done.
    exists ref. by rewrite Hnum.
  - apply in_flat_map in Hp as (story & Hs & Hp). unfold task_pairs in Hp.
    apply in_flat_map in Hp as (task' & Ht' & Hp).
    apply list_elem_of_In in He, Hs, Ht', Hp.
    destruct (truthy (task_jira_key task')) eqn:Et; [|by apply elem_of_nil in Hp].
    cbn [negb] in Hp.
    apply ref_pairs_elem in Hp as (H2 & ref & n & Hr & Hm & Hk).
    apply task_num_to_key_spec in Hk as (Hne & task & Ht & Hkey & Hnum).
    split; [done|]. split; [rewrite H2; by destruct (task_jira_key task')|].
    right. exists epic, story, task, task'. repeat split; try done.
    exists ref. by rewrite Hnum.
Qed.

Lemma link_pair_linked w0 w created p :
  linked w0 w created →
  ∃ created', linked w0 (link_pair w p) created'
    ∧ (created' = created ∨ created' = created ++ [p]).
Proof.
  intros (H1 & H2 & H3 & H4). unfold link_pair, link, is_link_created.
  case_bool_decide as Hin; cbn [negb].
  - exists created. split; [done|by left].
  - unfold create_issue_link, mark_link_created.
    rewrite bool_decide_false by done.
    assert (linked w0
              {| jira := {| links := links (jira w) ++ [(p.1, p.2)];
                            faults := tail (faults (jira w)) |};
                 links_created := links_created w ++ [link_id p.1 p.2];
                 n_links := S (n_links w) |} (created ++ [p])) as Hok.
    { destruct p as [f t]. unfold linked, link_ids. simpl.
      rewrite H1, H2, H3, map_app, length_app, <- !app_assoc. simpl.
      repeat split; try done; try lia.
      rewrite app_assoc. apply NoDup_app. split; [by rewrite <- H2|].
      split; [|apply NoDup_singleton].
      intros x Hx Hx'. apply list_elem_of_singleton in Hx' as ->.
      rewrite <- H2 in Hx. done. }
    destruct (faults (jira w)) as [|[] r]; simpl.
    + exists (created ++ [p]). split; [exact Hok|by right].
    + exists created. split; [done|by left].
    + exists (created ++ [p]). split; [exact Hok|by right].
Qed.

Lemma link_pairs_linked w0 l w created :
  linked w0 w created →
  ∃ extra, linked w0 (fold_left link_pair l w) (created ++ extra)
    ∧ Forall (λ p, p ∈ l) extra.
Proof.
  revert w created. induction l as [|p l IH]; intros w created H.
  - exists []. rewrite app_nil_r. by split.
  - simpl. destruct (link_pair_linked w0 w created p H) as (created' & H' & [->| ->]).
    + destruct (IH _ _ H') as (extra & He & Hin). exists extra. split; [done|].
      eapply Forall_impl; [exact Hin|]. intros. by right.
    + destruct (IH _ _ H') as (extra & He & Hin). exists (p :: extra).
      rewrite <- app_assoc in He. split; [done|].
      constructor; [by left|]. eapply Forall_impl; [exact Hin|]. intros. by right.
Qed.

(** X17: the link phase of [sync_to_jira] asks the tracker for no link
    that the state holds and for none twice: from a state without
    duplicates, the links it creates are added to the tracker, to the
    state and to the count alike, and the state stays without
    duplicates.  Every link it creates joins two stories of one epic
    or two tasks of one story, both with a key.  In a dry run the
    phase does nothing. *)
Theorem link_phase_creates_once epics w :
  NoDup (links_created w) →
  (∃ created,
      links (jira (link_phase epics w false)) = links (jira w) ++ created
      ∧ links_created (link_phase epics w false) = links_created w ++ link_ids created
      ∧ n_links (link_phase epics w false) = (n_links w + length created)%nat
      ∧ NoDup (links_created (link_phase epics w false))
      ∧ Forall (in_scope epics) created)
  ∧ link_phase epics w true = w.
Proof.
  intros Hnd. split; [|done]. rewrite link_phase_flat.
  destruct (link_pairs_linked w (candidates epics) w []) as (extra & (H1 & H2 & H3 & H4) & Hin).
  { unfold linked, link_ids. simpl. rewrite !app_nil_r. repeat split; try done; lia. }
  exists extra. simpl in *. repeat split; try done.
  eapply Forall_impl; [exact Hin|]. intros p. apply candidates_in_scope.
Qed.

Lemma link_pair_settles w p :
  faults (jira w) = [] →
  faults (jira (link_pair w p)) = []
  ∧ settled (link_pair w p) p
  ∧ ∀ q, settled w q → settled (link_pair w p) q.
Proof.
  intros Hf. unfold link_pair, link, is_link_created, settled.
  case_bool_decide as Hin; cbn [negb]; [done|].
  unfold create_issue_link, mark_link_created. rewrite Hf. simpl.
  rewrite bool_decide_false by done. repeat split.
  - apply elem_of_app. right. by left.
  - intros q Hq. apply elem_of_app. by left.
Qed.

Lemma link_pairs_settle l w :
  faults (jira w) = [] →
  faults (jira (fold_left link_pair l w)) = []
  ∧ (∀ p, p ∈ l → settled (fold_left link_pair l w) p)
  ∧ ∀ q, settled w q → settled (fold_left link_pair l w) q.
Proof.
  revert w. induction l as [|p l IH]; intros w Hf.
  - repeat split; try done. intros p Hp. by apply elem_of_nil in Hp.
  - simpl. destruct (link_pair_settles w p Hf) as (Hf' & Hp & Hmono).
    destruct (IH _ Hf') as (Hf'' & Hl & Hmono'). repeat split; [done| |].
    + intros q Hq. apply elem_of_cons in Hq as [->|Hq]; [by apply Hmono'|by apply Hl].
    + intros q Hq. by apply Hmono', Hmono.
Qed.

Lemma link_pairs_settled l w :
  (∀ p, p ∈ l → settled w p) → fold_left link_pair l w = w.
Proof.
  induction l as [|p l IH]; intros H; [done|]. simpl.
  assert (link_pair w p = w) as ->.
  { unfold link_pair, link, is_link_created.
    rewrite bool_decide_true; [done|]. apply H. by left. }
  apply IH. intros q Hq. apply H. by right.
Qed.

(** X18: when every call of [create_issue_link] succeeds, the link phase
    leaves nothing to do: a second link phase over the same epics
    changes neither the tracker nor the state nor the count. *)
Theorem link_phase_again epics w :
  faults (jira w) = [] →
  link_phase epics (link_phase epics w false) false = link_phase epics w false.
Proof.
  intros Hf. rewrite !link_phase_flat.
  destruct (link_pairs_settle (candidates epics) w Hf) as (_ & H & _).
  by apply link_pairs_settled.
Qed.

Lemma link_phase_creates_once_witness :
  ∃ created,
    links (jira (link_phase [auth_epic] fresh_links false)) = [] ++ created
    ∧ links_created (link_phase [auth_epic] fresh_links false) = [] ++ link_ids created
    ∧ n_links (link_phase [auth_epic] fresh_links false) = (0 + length created)%nat
    ∧ NoDup (links_created (link_phase [auth_epic] fresh_links false))
    ∧ Forall (in_scope [auth_epic]) created.
Proof.
  destruct (link_phase_creates_once [auth_epic] fresh_links) as [H _].
  - apply NoDup_nil_2.
  - exact H.
Defined.

Lemma link_phase_again_witness :
  link_phase [auth_epic] (link_phase [auth_epic] fresh_links false) false
  = link_phase [auth_epic] fresh_links false.
Proof. by apply (link_phase_again [auth_epic] fresh_links). Defined.

Example auth_epic_links :
  links (jira (link_phase [auth_epic] fresh_links false))
  = [(py "ARGUS-11", py "ARGUS-12"); (py "ARGUS-13", py "ARGUS-14")]
  ∧ links_created (link_phase [auth_epic] fresh_links false)
    = [py "ARGUS-11->ARGUS-12"; py "ARGUS-13->ARGUS-14"]
  ∧ n_links (link_phase [auth_epic] fresh_links false) = 2%nat.
Proof. by vm_compute. Qed.

End LinkPhase.

Section MissingKey.
Import Str Re PostImportFix Header CompleteMapping.

(** *** A story without a key *)

Lemma stories_map_task d m task_file : stories (map_task d m task_file) = stories m.
Proof.
  unfold map_task. destruct (is_nil _); [done|]. cbv zeta.
  destruct (search_line task_id_header true _);
    [destruct (is_nil _)|]; by destruct (match_task_name _).
Qed.

Lemma stories_fold_map_task d task_files m :
  stories (fold_left (map_task d) task_files m) = stories m.
Proof.
  revert m. induction task_files as [|tf l IH]; intros m; [done|].
  simpl. by rewrite IH, stories_map_task.
Qed.

Lemma stories_map_story_no_key e m story_dir story_file files :
  Tree.story_files story_dir = story_file :: files →
  extract_jira_key (Tree.file_content story_file) = [] →
  stories (map_story e m story_dir) = <[Tree.story_dir_name story_dir := []]> (stories m).
Proof.
  intros Hf Hk. unfold map_story. rewrite Hf. cbv zeta. rewrite Hk. cbn [is_nil].
  destruct (Tree.tasks_dir story_dir) as [tfs|];
    [rewrite (stories_fold_map_task _ tfs)|];
    (destruct (search_line story_id_header true _); by destruct (match_digits _)).
Qed.

(** X19: a story directory whose story file holds no key is entered in
    the table of the stories all the same, with the empty string.
    When it is the last directory read, a reference that names it is
    rewritten to the empty string and counted as converted, so the
    reference is lost from the field. *)
Theorem story_without_key_empties_reference
    epic_dirs epic_dir story_dirs story_dir story_file files ctx :
  Tree.stories_dir epic_dir = Some (story_dirs ++ [story_dir]) →
  Tree.story_files story_dir = story_file :: files →
  extract_jira_key (Tree.file_content story_file) = [] →
  let name := Tree.story_dir_name story_dir in
  let m := build_complete_mapping (epic_dirs ++ [epic_dir]) in
  stories m !! name = Some []
  ∧ (clean name → is_jira_key name = false → is_none_value name = false →
     epic_lookup name m = None →
     convert_reference name m ctx = ([], true)).
Proof.
  intros Hs Hf Hk name m.
  assert (stories m !! name = Some []) as Hm.
  { unfold m, build_complete_mapping. rewrite fold_left_app. simpl.
    unfold map_epic_dir. rewrite Hs, fold_left_app. simpl.
    rewrite (stories_map_story_no_key _ _ _ _ _ Hf Hk).
    apply lookup_insert_eq. }
  split; [done|]. intros Hc Hj Hn He.
  unfold convert_reference. rewrite (clean_strip name Hc), Hj, Hn.
  unfold lookups. cbn [first_hit]. by rewrite He, Hm.
Qed.

Lemma story_without_key_empties_reference_witness :
  stories (build_complete_mapping [billing_epic]) !! py "02-refund" = Some []
  ∧ convert_reference (py "02-refund") (build_complete_mapping [billing_epic]) None
    = ([], true).
Proof.
  destruct (story_without_key_empties_reference [] billing_epic
              [ {| Tree.story_dir_name := py "01-invoice";
                   Tree.story_files :=
                     [ {| Tree.file_name := py "story-01-invoice.md";
                          Tree.file_content := py "# BILL-002-1: Invoice
| JIRA Key | ARGUS-30 |
| Blocks | 02-refund |
" |} ];
                   Tree.tasks_dir := None |} ]
              {| Tree.story_dir_name := py "02-refund";
                 Tree.story_files :=
                   [ {| Tree.file_name := py "story-02-refund.md";
                        Tree.file_content := py "# BILL-002-2: Refund
| JIRA Key | - |
" |} ];
                 Tree.tasks_dir := None |}
              {| Tree.file_name := py "story-02-refund.md";
                 Tree.file_content := py "# BILL-002-2: Refund
| JIRA Key | - |
" |} [] None) as [H1 H2]; [done|done|by vm_compute|].
  split; [exact H1|]. apply H2; by vm_compute.
Defined.

Example billing_story_fixed :
  (fix_references_in_content
     (py "# BILL-002-1: Invoice
| JIRA Key | ARGUS-30 |
| Blocks | 02-refund |
") (build_complete_mapping [billing_epic]) None None)
  = (py "# BILL-002-1: Invoice
| JIRA Key | ARGUS-30 |
| Blocks |  |
", 1%nat, []).
Proof. by vm_compute. Qed.

End MissingKey.

Section Readers.
Import Str Re.

(** ** The two readers of the key *)

(** A stripped string that [^[A-Z]+-\d+$] matches has no final newline. *)
Lemma match_key_clean s : clean s → match_key s = true → key_shape s = true.
Proof.
  intros [_ Hr]. unfold match_key, key_shape.
  destruct (span is_upper_az s) as [a b] eqn:Ea.
  destruct (span_spec _ _ _ _ Ea) as [-> _].
  destruct a as [|a0 a]; [done|]. destruct b as [|c d]; [done|].
  destruct (Ascii.eqb c "-") eqn:Ec;
    [apply Ascii.eqb_eq in Ec as ->|
     by destruct c as [[] [] [] [] [] [] [] []]].
  destruct (span is_decimal d) as [ds e] eqn:Ed.
  destruct (span_spec _ _ _ _ Ed) as [-> _].
  destruct ds as [|d0 ds]; [done|]. destruct e as [|n [|? ?]]; [done| |done].
  intros Hn. apply Ascii.eqb_eq in Hn as ->. exfalso.
  assert (blank ["010"]) as Hb by (by repeat constructor).
  replace ((a0 :: a) ++ "-" :: (d0 :: ds) ++ ["010"])
    with (((a0 :: a) ++ "-" :: d0 :: ds) ++ ["010"]) in Hr
    by (by rewrite <- !app_assoc).
  rewrite rstrip_app_blank in Hr by done.
  destruct (rstrip_trailing ((a0 :: a) ++ "-" :: d0 :: ds)) as (w & _ & Hw).
  rewrite Hr in Hw. apply (f_equal length) in Hw.
  rewrite !length_app in Hw. simpl in Hw. lia.
Qed.

(** Where the first row of the key holds a key, the search for a row
    with a key finds this row. *)
Lemma search_field_key l pre g post :
  search_field (py "JIRA Key") l = Some (pre, g, post) →
  key_shape (strip g) = true →
  search_jira_key l = Some (strip g).
Proof.
  induction l as [|lab l IH]; [done|].
  destruct l as [|val [|nxt rest]]; [done|done|].
  cbn [search_field search_jira_key].
  destruct (is_label (py "JIRA Key") lab) eqn:El; cbn [andb].
  - destruct val as [|v0 val]; cbn [is_nil negb].
    + intros H Hk. change (strip []) with (@nil ascii). cbn [key_shape span].
      by apply IH.
    + intros H Hk. injection H as H.
      destruct (field_groups_spec lab (v0 :: val)) as (g' & Hg & _ & Hs); [done|].
      rewrite Hg in H. injection H as _ <- _. rewrite Hs in Hk. by rewrite Hk, Hs.
  - apply IH.
Qed.

(** X20: the key that the parser of jira-sync-comprehensive.py reads from
    a document is empty or shaped like a remote key, and a key that
    it reads is the key that [extract_jira_key] of
    jira-post-import-fix.py reads from the same document.  The
    converse fails: the parser looks at the first row of the key
    only, while [extract_jira_key] looks for the first row that
    holds a key. *)
Theorem key_readers_agree content :
  (BMadParser.parse_jira_key content = []
   ∨ key_shape (BMadParser.parse_jira_key content) = true
     ∧ PostImportFix.extract_jira_key content = BMadParser.parse_jira_key content)
  ∧ BMadParser.parse_jira_key two_key_rows = []
  ∧ PostImportFix.extract_jira_key two_key_rows = py "ARGUS-9".
Proof.
  split; [|by vm_compute].
  unfold BMadParser.parse_jira_key, PostImportFix.extract_jira_key.
  destruct (search_field (py "JIRA Key") (tail (cells content))) as [[[pre g] post]|] eqn:E;
    [|by left].
  cbv zeta. destruct (negb (is_nil (strip g)) && match_key (strip g)) eqn:Ek; [|by left].
  right. apply andb_true_iff in Ek as [_ Ek].
  apply match_key_clean in Ek; [|apply strip_clean].
  split; [done|]. by rewrite (search_field_key _ _ _ _ E Ek).
Qed.

End Readers.

Section Reconversion.
Import Str Re PostImportFix.

Lemma leading_nil_lstrip s : leading_space s = [] → lstrip s = s.
Proof. intros H. pose proof (lstrip_leading s) as E. by rewrite H in E. Qed.

Section Again.
Context (guard : str → bool) (cv : str → str).
Hypothesis Hcv_fix : ∀ t, cv (cv t) = cv t.
Hypothesis Hcv_keeps : ∀ t, clean t → cv t = t ∨ key_or_empty (cv t).

Lemma converted_tokens_clean cell : Forall clean (map cv (tokens cell)).
Proof.
apply Forall_map. eapply Forall_impl; [apply tokens_clean|].
intros t Ht. simpl. destruct (Hcv_keeps t Ht) as [->|H]; [done|].
by apply key_or_empty_clean.
Qed.

Lemma converted_tokens_nocomma cell : Forall (λ x, "," ∉ x) (map cv (tokens cell)).
Proof. apply converted_notin; [done|done|apply tokens_nocomma]. Qed.

(** Rewriting a rewritten cell changes nothing, whatever the guard. *)
Lemma rewrite_with_again cell :
rewrite_with guard cv (rewrite_with guard cv cell) = rewrite_with guard cv cell.
Proof.
destruct (guard cell) eqn:E.
{ assert (rewrite_with guard cv cell = cell) as R
    by (unfold rewrite_with; by rewrite E).
  by rewrite !R. }
set (ts := map cv (tokens cell)).
set (out := cell_lead cell ++ join (py ", ") ts ++ py " ").
assert (rewrite_with guard cv cell = out) as R
  by (unfold rewrite_with; by rewrite E).
rewrite R. unfold rewrite_with. destruct (guard out); [done|].
assert (tokens out = ts) as Ht.
{ unfold tokens, out. rewrite strip_rewritten, tokens_strip by done.
  apply tokens_join.
  - unfold ts. pose proof (tokens_nonempty cell). by destruct (tokens cell).
  - apply converted_tokens_clean.
  - apply converted_tokens_nocomma. }
assert (map cv ts = ts) as Hm.
{ unfold ts. rewrite <- list_fmap_compose. apply list_fmap_ext.
  intros i x _. simpl. apply Hcv_fix. }
assert (cell_lead out = cell_lead cell) as Hl.
{ unfold out. destruct (join (py ", ") ts) as [|j0 J] eqn:EJ.
  - simpl. unfold cell_lead at 1.
    rewrite lstrip_blank
      by (apply Forall_app; split; [apply cell_lead_blank|apply blank_one]).
    apply removelast_last.
  - assert (leading_space ((j0 :: J) ++ py " ") = []) as Hs.
    { rewrite <- EJ. apply join_leading; [apply converted_tokens_clean|].
      by rewrite EJ. }
    assert (lstrip (cell_lead cell ++ (j0 :: J) ++ py " ") = (j0 :: J) ++ py " ") as Hls.
    { rewrite lstrip_blank_app by apply cell_lead_blank. by apply leading_nil_lstrip. }
    rewrite cell_lead_nonblank by (by rewrite Hls).
    rewrite leading_space_blank_app by apply cell_lead_blank.
    by rewrite Hs, app_nil_r. }
by rewrite Ht, Hm, Hl.
Qed.

Lemma rewrite_with_filled cell : is_nil (rewrite_with guard cv cell) = is_nil cell ∨ cell = [].
Proof.
destruct cell as [|c cell]; [by right|]. left.
unfold rewrite_with. destruct (guard _); [done|].
destruct (cell_lead (c :: cell)); [|done]. by destruct (join _ _).
Qed.

Lemma rewrite_filled_again cell :
rewrite_filled guard cv (rewrite_filled guard cv cell) = rewrite_filled guard cv cell.
Proof.
unfold rewrite_filled. destruct cell as [|c cell]; [done|]. cbn [is_nil].
destruct (rewrite_with_filled (c :: cell)) as [H|H]; [|done].
rewrite H. cbn [is_nil]. apply rewrite_with_again.
Qed.

Lemma rewrite_filled_nil cell : is_nil (rewrite_filled guard cv cell) = is_nil cell.
Proof.
unfold rewrite_filled. destruct cell as [|c cell]; [done|]. cbn [is_nil].
by destruct (rewrite_with_filled (c :: cell)) as [H|H].
Qed.

Lemma rewrite_filled_label G cell :
good_label G → cv G = G →
is_label G (rewrite_filled guard cv cell) = is_label G cell.
Proof.
intros HG Hfix. unfold rewrite_filled. destruct cell as [|c cell]; [done|]. cbn [is_nil].
apply eq_true_iff_eq. split.
- by apply rewrite_with_label_inv.
- by apply rewrite_with_label.
Qed.

Lemma rewrite_filled_nobar cell : "|" ∉ cell → "|" ∉ rewrite_filled guard cv cell.
Proof.
intros H. unfold rewrite_filled. destruct (is_nil cell); [done|].
by apply rewrite_with_nobar.
Qed.

(** Two substitution passes with the same callback, run again on
  their own output. *)
Lemma two_passes_again F1 F2 (repl : str * str * str → () → str * ()) content :
good_label F1 → good_label F2 → cv F1 = F1 → cv F2 = F2 →
(∀ lab cell st, cell ≠ [] →
   (repl (field_groups lab cell) st).1
   = "|" :: lab ++ "|" :: rewrite_with guard cv cell ++ ["|"]) →
let conv c := (re_sub_field F2 repl (re_sub_field F1 repl c ()).1 ()).1 in
conv (conv content) = conv content.
Proof.
intros H1 H2 E1 E2 Hrepl conv.
assert (∀ c, cells (conv c)
             = fold_left (pass (rewrite_filled guard cv)) [F1; F2] (cells c)) as Hc.
{ intros c. unfold conv. simpl.
  rewrite (re_sub_field_cells _ _ (rewrite_filled guard cv)).
  - f_equal. apply (re_sub_field_cells _ _ (rewrite_filled guard cv)).
    + intros lab cell st Hne. rewrite Hrepl by done. unfold rewrite_filled.
      by destruct cell.
    + apply rewrite_filled_nobar.
  - intros lab cell st Hne. rewrite Hrepl by done. unfold rewrite_filled.
    by destruct cell.
  - apply rewrite_filled_nobar. }
apply cells_inj. rewrite !Hc.
apply (passes_idemp (rewrite_filled guard cv) [F1; F2]).
- intros G c HG. apply elem_of_cons in HG as [->|HG];
    [|apply list_elem_of_singleton in HG as ->]; by apply rewrite_filled_label.
- apply rewrite_filled_nil.
- apply rewrite_filled_again.
- done.
Qed.

End Again.

(** *** The maps that the script builds *)

Lemma key_shape_dash k : key_shape k = true → "-" ∈ k.
Proof. intros H. by apply match_key_dash, key_shape_match. Qed.

Lemma key_shape_not_short k : key_shape k = true → ¬ short_form k.
Proof. intros H [_ Hd]. by apply Hd, key_shape_dash. Qed.

Lemma key_shape_tail_not_short k : key_shape k = true → ¬ short_form (drop 1 k).
Proof.
  intros H [_ Hd]. apply Hd. pose proof (key_shape_dash k H) as Hin.
  destruct k as [|c k]; [done|]. change (drop 1 (c :: k)) with k.
  apply elem_of_cons in Hin as [<-|Hin]; [|done].
  by vm_compute in H.
Qed.

Lemma short_form_digits d ds :
  is_decimal d = true → Forall (λ c, is_decimal c = true) ds → short_form (d :: ds).
Proof.
  intros Hd Hds. split; [exists d; split; [by left|done]|].
  intros Hin. apply elem_of_cons in Hin as [<-|Hin]; [done|].
  rewrite Forall_forall in Hds. by specialize (Hds _ Hin).
Qed.

Lemma short_form_app p c :
  short_form p → Ascii.eqb c "-" = false → short_form (p ++ [c]).
Proof.
  intros [(x & Hx & Hd) Hn] Hc. split.
  - exists x. split; [|done]. apply elem_of_app. by left.
  - intros Hin. apply elem_of_app in Hin as [Hin|Hin]; [done|].
    apply list_elem_of_singleton in Hin as <-. done.
Qed.

Lemma short_form_cons c p :
  short_form p → Ascii.eqb c "-" = false → short_form (c :: p).
Proof.
  intros [(x & Hx & Hd) Hn] Hc. split.
  - exists x. split; [by right|done].
  - intros Hin. apply elem_of_cons in Hin as [<-|Hin]; done.
Qed.

Lemma label_not_short G :
  G ∈ [py "Depends On"; py "Blocks"; py "Requires"; py "Unlocks"] → ¬ short_form G.
Proof.
  intros HG [(c & Hc & Hd) _].
  repeat (apply elem_of_cons in HG as [->|HG];
          [repeat (apply elem_of_cons in Hc as [->|Hc]; [done|]);
           by apply elem_of_nil in Hc|]).
  by apply elem_of_nil in HG.
Qed.

Section StoryMapShort.
Import Corpus ConvertAllRefs.

Lemma story_header_short s g : story_header s = Some g → short_form g.
Proof.
unfold story_header. destruct s as [|c r]; [done|].
destruct (Ascii.eqb c "#") eqn:Ec;
  [apply Ascii.eqb_eq in Ec as ->|by destruct c as [[] [] [] [] [] [] [] []]].
destruct (span isspace r) as [[|? ?] r1]; [done|].
destruct (span is_upper_az r1) as [[|? ?] [|c2 r2]]; try done.
destruct (Ascii.eqb c2 "-") eqn:Ec2;
  [apply Ascii.eqb_eq in Ec2 as ->|by destruct c2 as [[] [] [] [] [] [] [] []]].
destruct (span is_decimal r2) as [[|? ?] [|c3 r3]]; try done.
destruct (Ascii.eqb c3 "-") eqn:Ec3;
  [apply Ascii.eqb_eq in Ec3 as ->|by destruct c3 as [[] [] [] [] [] [] [] []]].
destruct (span is_decimal r3) as [ds e] eqn:Ed.
destruct (span_spec _ _ _ _ Ed) as [_ Hds].
destruct ds as [|d ds]; [done|]. inversion Hds as [|? ? Hd Hds']; subst.
pose proof (short_form_digits d ds Hd Hds') as Hs.
destruct e as [|c4 e]; [done|].
destruct (Ascii.eqb c4 ":") eqn:Ec4.
{ apply Ascii.eqb_eq in Ec4 as ->. by intros [= <-]. }
assert (match e with
        | ":" :: _ => if is_lower_az c4 then Some ((d :: ds) ++ [c4]) else None
        | _ => None
        end = Some g → short_form g) as H.
{ destruct e as [|c5 e]; [done|].
  destruct (Ascii.eqb c5 ":") eqn:Ec5;
    [apply Ascii.eqb_eq in Ec5 as ->|by destruct c5 as [[] [] [] [] [] [] [] []]].
  destruct (is_lower_az c4) eqn:El; [|done]. intros [= <-].
  apply (short_form_app (d :: ds) c4); [done|].
  by destruct c4 as [[] [] [] [] [] [] [] []]. }
by destruct c4 as [[] [] [] [] [] [] [] []].
Qed.

Lemma search_header_short b s g : search_header b s = Some g → short_form g.
Proof.
revert b. induction s as [|c t IH]; intros b; [done|]. cbn [search_header].
destruct b.
- destruct (story_header (c :: t)) as [g'|] eqn:E.
  + intros [= <-]. by eapply story_header_short.
  + apply IH.
- apply IH.
Qed.

Lemma story_entry_short m sd : story_map_short m → story_map_short (story_entry m sd).
Proof.
intros H. unfold story_entry. destruct (story_files sd) as [|content ?]; [done|].
destruct (search_header true content) as [num|] eqn:En; [|done].
destruct (extract_jira_key content) as [k|] eqn:E; [|done].
apply extract_key_shape in E. apply search_header_short in En.
intros p k'. destruct (decide ("S" :: num = p)) as [<-|Hne].
- rewrite lookup_insert_eq. intros [= <-]. split; [|done]. by apply short_form_cons.
- rewrite lookup_insert_ne by done.
  destruct (decide (num = p)) as [<-|Hne'].
  + rewrite lookup_insert_eq. by intros [= <-].
  + rewrite lookup_insert_ne by done. apply H.
Qed.

Lemma build_story_jira_map_short epics_dir :
story_map_short (build_story_jira_map epics_dir).
Proof.
unfold build_story_jira_map. apply fold_left_inv_elem.
- intros m ed _ Hm. destruct (stories_dir ed); [|done].
  apply fold_left_inv_elem; [|done]. intros. by apply story_entry_short.
- intros p k H. by rewrite lookup_empty in H.
Qed.

Context (story_map : gmap str str).
Hypothesis Hsm : story_map_short story_map.

Lemma story_ref_unknown p :
¬ short_form p → ¬ short_form (drop 1 p) → story_ref story_map p = p.
Proof.
intros H1 H2. unfold story_ref.
destruct (story_map !! p) as [k|] eqn:E; [by destruct (Hsm _ _ E)|].
destruct (startswith _ _); [|done].
destruct (story_map !! drop 1 p) as [k|] eqn:E'; [by destruct (Hsm _ _ E')|done].
Qed.

Lemma story_ref_key k : key_shape k = true → story_ref story_map k = k.
Proof.
intros H. apply story_ref_unknown;
  [by apply key_shape_not_short|by apply key_shape_tail_not_short].
Qed.

Lemma story_ref_cases t :
story_ref story_map t = t ∨ key_shape (story_ref story_map t) = true.
Proof.
unfold story_ref. destruct (story_map !! t) as [k|] eqn:E.
{ right. by destruct (Hsm _ _ E). }
destruct (startswith _ _); [|by left].
destruct (story_map !! drop 1 t) as [k|] eqn:E'; [|by left].
right. by destruct (Hsm _ _ E').
Qed.

Lemma story_ref_fix t : story_ref story_map (story_ref story_map t) = story_ref story_map t.
Proof.
destruct (story_ref_cases t) as [E|H]; [by rewrite !E|by apply story_ref_key].
Qed.

Lemma story_map_values : map_Forall (λ _ v, key_or_empty v) story_map.
Proof. intros p k E. left. by destruct (Hsm _ _ E). Qed.

Lemma story_ref_label G :
G ∈ [py "Depends On"; py "Blocks"] → story_ref story_map G = G.
Proof.
intros HG.
assert (G ∈ [py "Depends On"; py "Blocks"; py "Requires"; py "Unlocks"]) as HG'.
{ apply elem_of_cons in HG as [->|HG]; [by left|].
  apply list_elem_of_singleton in HG as ->. right. by left. }
apply story_ref_unknown; [by apply label_not_short|].
intros [(c & Hc & Hd) _].
apply elem_of_cons in HG as [->|HG]; [|apply list_elem_of_singleton in HG as ->];
  simpl in Hc; repeat (apply elem_of_cons in Hc as [->|Hc]; [done|]);
  by apply elem_of_nil in Hc.
Qed.

Lemma convert_story_refs_again content :
convert_story_refs (convert_story_refs content story_map) story_map
= convert_story_refs content story_map.
Proof.
assert (good_label (py "Depends On") ∧ good_label (py "Blocks")) as [G1 G2].
{ pose proof story_labels_good as HL. rewrite !Forall_cons in HL.
  by destruct HL as (? & ? & _). }
assert (∀ lab cell (st : ()), cell ≠ [] →
          (replace_story_field story_map (field_groups lab cell) st).1
          = "|" :: lab ++ "|" :: rewrite_with (λ _, false) (story_ref story_map) cell
              ++ ["|"]) as Hrepl.
{ intros lab cell st Hne. by rewrite replace_story_field_groups. }
exact (two_passes_again (λ _, false) (story_ref story_map) story_ref_fix
         (story_ref_keeps_or_key story_map story_map_values)
         (py "Depends On") (py "Blocks") (replace_story_field story_map) content
         G1 G2 (story_ref_label _ ltac:(by left))
         (story_ref_label _ ltac:(by right; left)) Hrepl).
Qed.

End StoryMapShort.

Section TaskMapShort.
Import Corpus ConvertAllRefs TaskMap.

Lemma task_num_short t g : task_num t = Some g → short_form g.
Proof.
unfold task_num. destruct t as [|c1 [|c2 t1]]; try done;
  try by destruct c1 as [[] [] [] [] [] [] [] []].
destruct (Ascii.eqb c1 "-") eqn:E1;
  [apply Ascii.eqb_eq in E1 as ->|by destruct c1 as [[] [] [] [] [] [] [] []]].
destruct (Ascii.eqb c2 "T") eqn:E2;
  [apply Ascii.eqb_eq in E2 as ->|by destruct c2 as [[] [] [] [] [] [] [] []]].
destruct (span is_decimal t1) as [ds e] eqn:Ed.
destruct (span_spec _ _ _ _ Ed) as [_ Hds].
destruct ds as [|n ns]; [done|]. inversion Hds as [|? ? Hn Hns]; subst.
destruct e as [|c3 e]; [done|].
destruct (Ascii.eqb c3 ":") eqn:E3;
  [apply Ascii.eqb_eq in E3 as ->|by destruct c3 as [[] [] [] [] [] [] [] []]].
intros [= <-]. apply short_form_cons; [|done]. by apply short_form_digits.
Qed.

Lemma task_header_short s g : task_header s = Some g → short_form g.
Proof.
unfold task_header. destruct (Header.id_head s) as [[? r3]|]; [|done]. simpl.
destruct (Header.dash_number r3) as [[? r5]|]; [|done]. simpl.
destruct r5 as [|c t']; [done|].
destruct (Header.is_lower_az c).
- unfold Header.orelse. destruct (task_num t') eqn:E.
  + intros [= <-]. by eapply task_num_short.
  + apply task_num_short.
- apply task_num_short.
Qed.

Lemma search_line_some {A} (p : str → option A) b s g :
Header.search_line p b s = Some g → ∃ s', p s' = Some g.
Proof.
revert b. induction s as [|c t IH]; intros b; [done|]. cbn [Header.search_line].
destruct b.
- destruct (p (c :: t)) as [g'|] eqn:E.
  + intros [= <-]. by exists (c :: t).
  + apply IH.
- apply IH.
Qed.

Lemma task_entry_short d m content : task_map_short m → task_map_short (task_entry d m content).
Proof.
intros H. unfold task_entry.
destruct (Header.search_line task_header true content) as [num|] eqn:En; [|done].
destruct (ConvertAllRefs.extract_jira_key content) as [k|] eqn:E; [|done].
apply extract_key_shape in E. apply search_line_some in En as [s' En].
apply task_header_short in En.
intros d' p k'. destruct (decide ((d, num) = (d', p))) as [[= <- <-]|Hne].
- rewrite lookup_insert_eq. by intros [= <-].
- rewrite lookup_insert_ne by done. apply H.
Qed.

Lemma build_task_jira_map_short epics_dir :
task_map_short (build_task_jira_map epics_dir).
Proof.
unfold build_task_jira_map. apply fold_left_inv_elem.
- intros m ed _ Hm. destruct (stories_dir ed); [|done].
  apply fold_left_inv_elem; [|done]. intros m' sd _ Hm'.
  unfold story_tasks. destruct (tasks_dir sd); [|done].
  apply fold_left_inv_elem; [|done]. intros. by apply task_entry_short.
- intros d p k H. by rewrite lookup_empty in H.
Qed.

Context (task_map : gmap (str * str) str) (dir : str).
Hypothesis Htm : task_map_short task_map.

Lemma task_ref_unknown p : ¬ short_form p → task_ref task_map dir p = p.
Proof.
intros H. unfold task_ref.
destruct (task_map !! (dir, p)) as [k|] eqn:E; [by destruct (Htm _ _ _ E)|done].
Qed.

Lemma task_ref_cases t :
task_ref task_map dir t = t ∨ key_shape (task_ref task_map dir t) = true.
Proof.
unfold task_ref. destruct (task_map !! (dir, t)) as [k|] eqn:E; [|by left].
right. by destruct (Htm _ _ _ E).
Qed.

Lemma task_ref_fix t : task_ref task_map dir (task_ref task_map dir t) = task_ref task_map dir t.
Proof.
destruct (task_ref_cases t) as [E|H]; [by rewrite !E|].
by apply task_ref_unknown, key_shape_not_short.
Qed.

Lemma task_map_values : map_Forall (λ _ v, key_or_empty v) task_map.
Proof. intros [d p] k E. left. by destruct (Htm _ _ _ E). Qed.

Lemma convert_task_refs_again content :
convert_task_refs (convert_task_refs content task_map dir) task_map dir
= convert_task_refs content task_map dir.
Proof.
assert (good_label (py "Requires") ∧ good_label (py "Unlocks")) as [G1 G2].
{ pose proof task_labels_good as HL. rewrite !Forall_cons in HL.
  by destruct HL as (? & ? & _). }
assert (∀ lab cell (st : ()), cell ≠ [] →
          (replace_task_field task_map dir (field_groups lab cell) st).1
          = "|" :: lab ++ "|" :: rewrite_with task_guard (task_ref task_map dir) cell
              ++ ["|"]) as Hrepl.
{ intros lab cell st Hne. by rewrite replace_task_field_groups. }
assert (∀ G, G ∈ [py "Requires"; py "Unlocks"] → task_ref task_map dir G = G) as HG.
{ intros G HG. apply task_ref_unknown, label_not_short. do 2 right.
  apply elem_of_cons in HG as [->|HG]; [by left|].
  apply list_elem_of_singleton in HG as ->. right. by left. }
exact (two_passes_again task_guard (task_ref task_map dir) task_ref_fix
         (task_ref_keeps_or_key task_map dir task_map_values)
         (py "Requires") (py "Unlocks") (replace_task_field task_map dir) content
         G1 G2 (HG _ ltac:(by left)) (HG _ ltac:(by right; left)) Hrepl).
Qed.

End TaskMapShort.

(** X21: with the maps that convert-all-refs-to-jira-keys.py builds
    itself, converting a converted document changes nothing:
    [convert_story_refs] and [convert_task_refs] give their own output
    back, so a second run of the script over the same corpus rewrites
    no reference field. *)
Theorem convert_refs_again epics_dir content story_dir_name :
  let story_map := ConvertAllRefs.build_story_jira_map epics_dir in
  let task_map := TaskMap.build_task_jira_map epics_dir in
  ConvertAllRefs.convert_story_refs
    (ConvertAllRefs.convert_story_refs content story_map) story_map
  = ConvertAllRefs.convert_story_refs content story_map
  ∧ ConvertAllRefs.convert_task_refs
      (ConvertAllRefs.convert_task_refs content task_map story_dir_name)
      task_map story_dir_name
    = ConvertAllRefs.convert_task_refs content task_map story_dir_name.
Proof.
  split.
  - apply convert_story_refs_again, build_story_jira_map_short.
  - apply convert_task_refs_again, build_task_jira_map_short.
Qed.

End Reconversion.
